(** * Spectrum analyzer client: frame codec, stream reassembly, detection

    A shallow embedding of the protocol and detection core of the two
    application variants of the repository:

    - [arduino_spectr.py]: buffer based frame parser, stream reassembly in
      [SpectrumWorker.run], query encoder [get_spectrum];
    - [ex2_Test.py]: transport based frame parser, query encoder
      [get_spectrum_float], the periodic cycle with its EMA / hysteresis
      detection ([update_spectrum], [background_processing]), calibration
      and the range registry.

    Python integers are [Z], byte strings are [list byte], Python floats
    (and NumPy float64 scalars) are binary64 primitive floats.  Exceptions
    are values of an error monad, so that "returns normally" is a property
    one can state. *)

From Stdlib Require Import ZArith List Lia Bool.
From Stdlib.Strings Require Import Byte.
From Stdlib Require Import PrimFloat SpecFloat FloatOps FloatAxioms Uint63.
From stdpp Require Import base list.
Import ListNotations.

#[local] Set Warnings "-inexact-float".

(** ** Exceptions *)

Inductive exn : Type :=
  | StructError        (* struct.error *)
  | IndexError
  | ValueError
  | OverflowError
  | AttributeError
  | SerialException.   (* serial.SerialException *)

Inductive outcome (A : Type) : Type :=
  | Return (a : A)
  | Raise (e : exn).
Arguments Return {A} a.
Arguments Raise {A} e.

Definition bind {A B : Type} (m : outcome A) (k : A -> outcome B) : outcome B :=
  match m with
  | Return a => k a
  | Raise e => Raise e
  end.

(** [try: ... except Exception as e: handler]. *)
Definition try_except {A : Type} (body : outcome A) (handler : exn -> outcome A)
  : outcome A :=
  match body with
  | Return a => Return a
  | Raise e => handler e
  end.

Declare Scope outcome_scope.
Delimit Scope outcome_scope with outcome.
Notation "'do' x <- m ; k" := (bind m (fun x => k))
  (at level 10, x name, m at level 100, k at level 200) : outcome_scope.
Open Scope outcome_scope.
Open Scope Z_scope.

(** ** Bytes and byte strings *)

Definition byte_val (b : byte) : Z := Z.of_N (Byte.to_N b).

Definition byte_of_Z (z : Z) : byte :=
  match Byte.of_N (Z.to_N (z mod 256)) with
  | Some b => b
  | None => x00
  end.

Definition len {A : Type} (l : list A) : Z := Z.of_nat (length l).

(** [b[lo:hi]] for non-negative bounds: the slice is clipped to the
    string, as in Python. *)
Definition slice {A : Type} (b : list A) (lo hi : Z) : list A :=
  take (Z.to_nat (hi - lo)) (drop (Z.to_nat lo) b).

(** [b[:hi]] and [b[lo:]]. *)
Definition slice_to {A : Type} (b : list A) (hi : Z) : list A :=
  take (Z.to_nat hi) b.
Definition slice_from {A : Type} (b : list A) (lo : Z) : list A :=
  drop (Z.to_nat lo) b.

(** [b[i]] for a non-negative index. *)
Definition index (b : list byte) (i : Z) : outcome byte :=
  match b !! Z.to_nat i with
  | Some x => Return x
  | None => Raise IndexError
  end.

Definition byte_eqb (a b : byte) : bool := Byte.eqb a b.

(** ** Checksum codec: [fletcher_checksum] (identical in both variants) *)

Fixpoint fletcher_loop (data : list byte) (CK_A CK_B : Z) : Z * Z :=
  match data with
  | [] => (CK_A, CK_B)
  | b :: rest =>
      let CK_A := (CK_A + byte_val b) mod 256 in
      let CK_B := (CK_B + CK_A) mod 256 in
      fletcher_loop rest CK_A CK_B
  end.

Definition fletcher_checksum (data : list byte) : Z * Z :=
  fletcher_loop data 0 0.

(** ** [struct] formats used by the code *)

(** Little-endian encoding of [v] on [n] bytes. *)
Fixpoint le_bytes (n : nat) (v : Z) : list byte :=
  match n with
  | O => []
  | S n' => byte_of_Z v :: le_bytes n' (v / 256)
  end.

(** Little-endian value of a byte string. *)
Fixpoint le_value (b : list byte) : Z :=
  match b with
  | [] => 0
  | x :: rest => byte_val x + 256 * le_value rest
  end.

(** [struct.pack] of one unsigned field of [n] bytes: out-of-range
    arguments raise [struct.error]. *)
Definition pack_unsigned (n : nat) (v : Z) : outcome (list byte) :=
  if ((0 <=? v) && (v <? 256 ^ Z.of_nat n))%Z then Return (le_bytes n v)
  else Raise StructError.

Definition pack_B := pack_unsigned 1.
Definition pack_H := pack_unsigned 2.
Definition pack_Q := pack_unsigned 8.

(** [struct.unpack('<H', b)[0]]: the buffer must hold exactly 2 bytes. *)
Definition unpack_H (b : list byte) : outcome Z :=
  match b with
  | [_; _] => Return (le_value b)
  | _ => Raise StructError
  end.

(** A little-endian IEEE binary32 value, widened to binary64 as
    [struct.unpack] does for format [f]. *)
Definition float_of_bits32 (bits : Z) : float :=
  let s := Z.testbit bits 31 in
  let e := Z.land (Z.shiftr bits 23) 255 in
  let m := Z.land bits 8388607 in
  let mag :=
    if (e =? 255)%Z then (if (m =? 0)%Z then infinity else nan)
    else if (e =? 0)%Z then Z.ldexp (of_uint63 (Uint63.of_Z m)) (-149)
    else Z.ldexp (of_uint63 (Uint63.of_Z (m + 8388608))) (e - 150) in
  if s then PrimFloat.opp mag else mag.

Fixpoint floats_of_bytes (data : list byte) : list float :=
  match data with
  | b0 :: b1 :: b2 :: b3 :: rest =>
      float_of_bits32 (le_value [b0; b1; b2; b3]) :: floats_of_bytes rest
  | _ => []
  end.

(** [struct.unpack(f'<{n}f', data)]: the buffer must hold exactly [4 * n]
    bytes. *)
Definition unpack_floats (n : Z) (data : list byte) : outcome (list float) :=
  if (len data =? 4 * n)%Z then Return (floats_of_bytes data)
  else Raise StructError.

(** [int(x)] for a float: truncation towards zero; infinities and NaN
    raise. *)
Definition int_of_float (x : float) : outcome Z :=
  match Prim2SF x with
  | S754_zero _ => Return 0
  | S754_infinity _ => Raise OverflowError
  | S754_nan => Raise ValueError
  | S754_finite s m e =>
      let mag := if 0 <=? e then Z.pos m * 2 ^ e else Z.pos m / 2 ^ (- e) in
      Return (if s then - mag else mag)
  end.

(** The decoded pair of arrays [(mags, freqs)]. *)
Definition samples : Type := list float * list float.

(** ** Protocol constants *)

Definition MARKER : byte := xbb.
Definition GET_SPECTRUM_FLOAT : byte := xc2.

(** ** Query encoder *)

(** The part shared by [get_spectrum] and [get_spectrum_float]:
    [struct.pack('<BBHQQBBB', 0xBB, 0xC2, 19, start, stop, rfin, bw, speed)]
    followed by the two checksum bytes. *)
Definition pack_query (start_freq stop_freq rfin bw speed : Z)
  : outcome (list byte) :=
  do f0 <- pack_B (byte_val MARKER);
  do f1 <- pack_B (byte_val GET_SPECTRUM_FLOAT);
  do f2 <- pack_H 19;
  do f3 <- pack_Q start_freq;
  do f4 <- pack_Q stop_freq;
  do f5 <- pack_B rfin;
  do f6 <- pack_B bw;
  do f7 <- pack_B speed;
  Return (f0 ++ f1 ++ f2 ++ f3 ++ f4 ++ f5 ++ f6 ++ f7).

Definition encode_query (start_freq stop_freq rfin bw speed : Z)
  : outcome (list byte) :=
  do command <- pack_query start_freq stop_freq rfin bw speed;
  let '(crc1, crc2) := fletcher_checksum command in
  do tail <- (do c1 <- pack_B crc1; do c2 <- pack_B crc2; Return (c1 ++ c2));
  Return (command ++ tail).

(** * Variant [arduino_spectr.py] *)

Module Arduino.

(** [get_spectrum]: the bytes written to the transport
    ([start_freq], [stop_freq] are the values after [int(...)]; the defaults
    are 800e6 and 4800e6). *)
Definition get_spectrum (start_freq stop_freq : Z) : outcome (list byte) :=
  encode_query start_freq stop_freq 2 3 0.

(** ** Frame parser, buffer based ([arduino_spectr.parse_response]) *)

(** The warning logged before each [return None, None]. *)
Inductive parse_failure : Type :=
  | BufferTooShort          (* "Buffer too short to parse" *)
  | InvalidStartByte        (* "Invalid start byte" *)
  | IncorrectCommand        (* "Incorrect command code" *)
  | IncompletePacket        (* "Incomplete packet" *)
  | CRCMismatch             (* "CRC mismatch" *)
  | IncorrectFloatCount     (* "Incorrect number of floats" *)
  | ParseException (e : exn). (* "Error parsing response" *)

(** [inl w]: the function returned [(None, None)] after logging [w]. *)
Definition parse_result : Type := parse_failure + samples.

(** The checksum comparison of [parse_response]. *)
Definition calculated_crc (buffer : list byte) (payload_len : Z) : Z :=
  let '(calc_crc1, calc_crc2) :=
    fletcher_checksum (slice_to buffer (4 + payload_len)) in
  Z.lor (Z.shiftl calc_crc2 8) calc_crc1.

(** Lines 57-71: the spectrum decoder. *)
Definition decode_payload (data : list byte) : outcome parse_result :=
  let num_floats := (len data / 4)%Z in
  if negb (num_floats mod 2 =? 0)%Z then Return (inl IncorrectFloatCount)
  else
    do float_data <- unpack_floats num_floats data;
    let mags := slice_to float_data (num_floats / 2) in
    let freqs := map (fun x => (x / 1000000)%float)
                     (slice_from float_data (num_floats / 2)) in
    Return (inr (mags, freqs)).

Definition parse_body (buffer : list byte) : outcome parse_result :=
  if (len buffer <? 6)%Z then Return (inl BufferTooShort)
  else
    do start_byte <- index buffer 0;
    if negb (byte_eqb start_byte MARKER) then Return (inl InvalidStartByte)
    else
      do cmd <- index buffer 1;
      if negb (byte_eqb cmd GET_SPECTRUM_FLOAT) then Return (inl IncorrectCommand)
      else
        do payload_len <- unpack_H (slice buffer 2 4);
        if (len buffer <? 6 + payload_len)%Z then Return (inl IncompletePacket)
        else
          do received_crc <-
            unpack_H (slice buffer (4 + payload_len) (6 + payload_len));
          if negb (received_crc =? calculated_crc buffer payload_len)%Z
          then Return (inl CRCMismatch)
          else decode_payload (slice buffer 4 (4 + payload_len)).

Definition parse_response (buffer : list byte) : outcome parse_result :=
  try_except (parse_body buffer) (fun e => Return (inl (ParseException e))).

(** ** Stream reassembly: the loop of [SpectrumWorker.run] (lines 204-237) *)

(** [buffer.find(b'\xBB')]: [None] stands for [-1]. *)
Fixpoint find_marker (buffer : list byte) : option nat :=
  match buffer with
  | [] => None
  | b :: rest =>
      if byte_eqb b MARKER then Some O
      else match find_marker rest with
           | Some i => Some (S i)
           | None => None
           end
  end.

(** One pass through the body of [while True], up to the call of
    [parse_response].  [Raised] keeps the buffer as the pass left it. *)
Inductive scan_step : Type :=
  | Break (buffer : list byte)
  | Packet (packet buffer : list byte)
  | Raised (e : exn) (buffer : list byte).

Definition scan_once (buffer : list byte) : scan_step :=
  match find_marker buffer with
  | None => Break buffer
  | Some start_idx =>
      let buffer := drop start_idx buffer in
      if len buffer <? 4 then Break buffer
      else
        match unpack_H (slice buffer 2 4) with
        | Raise e => Raised e buffer
        | Return payload_len =>
            let packet_len := 6 + payload_len in
            if len buffer <? packet_len then Break buffer
            else Packet (slice_to buffer packet_len)
                        (slice_from buffer packet_len)
        end
  end.

(** What the loop leaves behind: the frames handed to [data_updated], the
    buffer, and the exception that left the loop, if any.  The per-frame
    threshold test, the alert signal and the LED command do not touch the
    buffer and are not part of this model. *)
Record scan_result : Type := mk_scan_result {
  emitted : list samples;
  remaining : list byte;
  raised : option exn
}.

(** [while True: ...].  Each pass that does not break shortens the
    buffer, so a [fuel] above its length is never used up
    ([scan_loop_terminates] below); [None] is an exhausted [fuel]. *)
Fixpoint scan_loop (fuel : nat) (buffer : list byte) (acc : list samples)
  : option scan_result :=
  match fuel with
  | O => None
  | S fuel' =>
      match scan_once buffer with
      | Raised e buffer' => Some (mk_scan_result acc buffer' (Some e))
      | Break buffer' => Some (mk_scan_result acc buffer' None)
      | Packet packet buffer' =>
          match parse_response packet with
          | Raise e => Some (mk_scan_result acc buffer' (Some e))
          | Return (inr s) => scan_loop fuel' buffer' (acc ++ [s])
          | Return (inl _) => scan_loop fuel' buffer' acc
          end
      end
  end.

(** [self.buffer.extend(data)] followed by the loop.  The default of the
    last branch is never produced ([ingest_fuel] below). *)
Definition ingest (buffer data : list byte) : scan_result :=
  let buffer := buffer ++ data in
  match scan_loop (S (length buffer)) buffer [] with
  | Some r => r
  | None => mk_scan_result [] buffer None
  end.

(** *** The worker thread: [SpectrumWorker.run] *)

Record worker : Type := mk_worker {
  self_running : bool;
  self_ser_open : bool;          (* [self.ser and self.ser.is_open] *)
  self_buffer : list byte
}.

(** What the transport does during one pass of [while self.running]:
    the result of [get_spectrum(self.ser)] if the pass reconnects, and of
    [self.ser.read(1024)].  The connect loop of lines 197-198 is taken to
    succeed eventually; it has no exit otherwise. *)
Record io : Type := mk_io {
  write_result : outcome unit;
  read_result : outcome (list byte)
}.

Inductive session : Type :=
  | Running (w : worker)
  | Finished (w : worker).

(** [except Exception] then [finally]: the buffer is cleared, the ports
    are closed and [running] is reset. *)
Definition on_exception (w : worker) : session :=
  Finished (mk_worker false false []).

(** Leaving [while self.running] normally, then [finally]. *)
Definition on_exit (w : worker) : session :=
  Finished (mk_worker false false (self_buffer w)).

(** The body of [while self.running] (lines 195-237). *)
Definition loop_body (env : io) (w : worker) : session * list samples :=
  let reconnect :=
    if negb (self_ser_open w) then write_result env else Return tt in
  match reconnect with
  | Raise _ => (on_exception w, [])
  | Return _ =>
      let w := mk_worker (self_running w) true (self_buffer w) in
      match read_result env with
      | Raise _ => (on_exception w, [])
      | Return [] => (Running w, [])
      | Return data =>
          let r := ingest (self_buffer w) data in
          match raised r with
          | Some _ => (on_exception w, emitted r)
          | None =>
              (Running (mk_worker (self_running w) true (remaining r)),
               emitted r)
          end
      end
  end.

(** What happens between two tests of [self.running]. *)
Inductive event : Type :=
  | Pass (env : io)             (* one pass of the loop *)
  | PortClosed                  (* the port is closed under the worker *)
  | StopRequested.              (* [closeEvent]: [worker.running = False] *)

Definition step (ev : event) (s : session) : session * list samples :=
  match s with
  | Finished w => (Finished w, [])
  | Running w =>
      match ev with
      | StopRequested => (on_exit w, [])
      | PortClosed =>
          (Running (mk_worker (self_running w) false (self_buffer w)), [])
      | Pass env => loop_body env w
      end
  end.

Fixpoint run_from (evs : list event) (s : session) : session * list samples :=
  match evs with
  | [] => (s, [])
  | ev :: evs' =>
      let '(s1, out1) := step ev s in
      let '(s2, out2) := run_from evs' s1 in
      (s2, out1 ++ out2)
  end.

(** [run], once the first connection is made ([self.running = True] with
    an open port and the buffer of [__init__]). *)
Definition run (evs : list event) : session * list samples :=
  run_from evs (Running (mk_worker true true [])).

(** *** Per-frame detection (lines 220-237) *)

(** [self.threshold] and [self.min_alert_interval] of [__init__]. *)
Definition threshold : float := (-97)%float.
Definition min_alert_interval : float := 1%float.

(** What the handling of one decoded frame leaves behind: the pairs sent
    with [alert_triggered], the new [self.last_alert_time], and
    [has_peak], which selects the command sent to the LED (['1'] or
    ['0']). *)
Record frame_outcome : Type := mk_frame_outcome {
  alerts : list (float * float);
  last_alert_time : float;
  has_peak : bool
}.

(** [for amp, freq in zip(mags, freqs)] with its running state. *)
Fixpoint scan_peaks (current_time : float) (mags freqs : list float)
    (st : frame_outcome) : frame_outcome :=
  match mags, freqs with
  | amp :: mags', freq :: freqs' =>
      if (threshold <? amp)%float then
        if (min_alert_interval <? current_time - last_alert_time st)%float
        then scan_peaks current_time mags' freqs'
               (mk_frame_outcome (alerts st ++ [(amp, freq)]) current_time true)
        else scan_peaks current_time mags' freqs'
               (mk_frame_outcome (alerts st) (last_alert_time st) true)
      else scan_peaks current_time mags' freqs' st
  | _, _ => st
  end.

(** The body of [if mags is not None and freqs is not None], for a frame
    handled at [current_time = time.time()]. *)
Definition handle_frame (current_time : float) (s : samples)
    (last_alert : float) : frame_outcome :=
  scan_peaks current_time (fst s) (snd s) (mk_frame_outcome [] last_alert false).



(** The bytes returned by the reads of a run of the worker. *)
Fixpoint received (evs : list event) : list byte :=
  match evs with
  | [] => []
  | Pass env :: evs' =>
      match read_result env with
      | Return data => data ++ received evs'
      | Raise _ => received evs'
      end
  | _ :: evs' => received evs'
  end.

End Arduino.

(** * Variant [ex2_Test.py] *)

Module Ex2.

(** ** The transport *)

(** A [serial.Serial] object seen from the client: [rx] holds the bytes
    the device delivers before the read timeout, [written] what was sent;
    a [broken] port raises [SerialException] on every operation. *)
Record serial_port : Type := mk_serial {
  rx : list byte;
  written : list (list byte);
  broken : bool
}.

Definition ser_read (n : Z) (conn : serial_port)
  : outcome (list byte) * serial_port :=
  if broken conn then (Raise SerialException, conn)
  else (Return (slice_to (rx conn) n),
        mk_serial (slice_from (rx conn) n) (written conn) false).

Definition ser_write (data : list byte) (conn : serial_port)
  : outcome unit * serial_port :=
  if broken conn then (Raise SerialException, conn)
  else (Return tt, mk_serial (rx conn) (written conn ++ [data]) false).

Fixpoint bytes_eqb (a b : list byte) : bool :=
  match a, b with
  | [], [] => true
  | x :: a', y :: b' => byte_eqb x y && bytes_eqb a' b'
  | _, _ => false
  end.

(** ** Frame parser, transport based ([parse_response], lines 39-60) *)

(** [None] is the pair [(None, None)]. *)
Definition parse_try (conn : serial_port)
  : outcome (option samples) * serial_port :=
  match ser_read 4 conn with
  | (Raise e, conn) => (Raise e, conn)
  | (Return header, conn) =>
    if len header <? 4 then (Return None, conn)
    else
      match unpack_H (slice header 2 4) with
      | Raise e => (Raise e, conn)
      | Return payload_len =>
        match ser_read payload_len conn with
        | (Raise e, conn) => (Raise e, conn)
        | (Return response_data, conn) =>
          if len response_data <? payload_len then (Return None, conn)
          else
            match ser_read 2 conn with
            | (Raise e, conn) => (Raise e, conn)
            | (Return received_crc, conn) =>
              let '(calc_crc1, calc_crc2) :=
                fletcher_checksum (header ++ response_data) in
              if negb (bytes_eqb received_crc
                         [byte_of_Z calc_crc1; byte_of_Z calc_crc2])
              then (Return None, conn)
              else
                match unpack_floats (payload_len / 4) response_data with
                | Raise e => (Raise e, conn)
                | Return float_data =>
                  let mags := slice_to float_data (len float_data / 2) in
                  let freqs :=
                    map (fun x => (x / 1000000)%float)
                        (slice_from float_data (len float_data / 2)) in
                  (Return (Some (mags, freqs)), conn)
                end
            end
        end
      end
  end.

(** [except serial.SerialException: return None, None]; any other
    exception leaves the function. *)
Definition parse_response (conn : serial_port)
  : outcome (option samples) * serial_port :=
  match parse_try conn with
  | (Raise SerialException, conn) => (Return None, conn)
  | r => r
  end.

(** [get_spectrum_float(serial_conn, start_freq, stop_freq, rfin, bw,
    speed)]; the defaults are [rfin=2, bw=3, speed=0].  [serial_conn] may
    be [None]. *)
Definition get_spectrum_float (serial_conn : option serial_port)
    (start_freq stop_freq rfin bw speed : Z)
  : outcome (option samples) * option serial_port :=
  match encode_query start_freq stop_freq rfin bw speed with
  | Raise e => (Raise e, serial_conn)
  | Return command =>
      match serial_conn with
      | None => (Raise AttributeError, None)
      | Some conn =>
          match ser_write command conn with
          | (Raise SerialException, conn) => (Return None, Some conn)
          | (Raise e, conn) => (Raise e, Some conn)
          | (Return _, conn) =>
              match parse_response conn with
              | (Raise SerialException, conn) => (Return None, Some conn)
              | (r, conn) => (r, Some conn)
              end
          end
      end
  end.

(** ** Application state ([SpectrumAnalyzerApp]) *)

Inductive log_entry : Type :=
  | LogAutoThreshold (start stop : Z) (threshold : float)   (* info *)
  | LogNoConnection                                         (* error *)
  | LogThresholdExceeded (start stop : Z) (amplitude : float) (* warning *)
  | LogRangeAdded
  | LogRangeEdited
  | LogRangeDeleted.

(** A range is the tuple [(start, stop, threshold)]; [alert_flags] keeps
    the ['high'] entry of each dictionary; the counters never go below
    zero. *)
Definition scan_range : Type := Z * Z * option float.

Record app : Type := mk_app {
  scan_ranges : list scan_range;
  alert_flags : list bool;
  ema_values : list (option float);
  stability_counter : list nat;
  serial_conn : option serial_port;
  log : list log_entry
}.

Definition ema_alpha : float := 0.1.
Definition hysteresis_threshold : float := 0.5.
Definition stability_duration : nat := 3.

(** [__init__], up to the call of [auto_calibrate_thresholds]. *)
Definition init (conn : option serial_port) : app :=
  mk_app [(400000000, 500000000, None)] [false] [None] [O] conn [].

(** ** Detection (one range, one polling cycle) *)

(** The state the cycle keeps for one range: [ema_values[i]],
    [stability_counter[i]] and [alert_flags[i]['high']]. *)
Record range_state : Type := mk_range_state {
  ema_value : option float;
  stability_count : nat;
  alert_active : bool
}.

(** The new value of [ema_values[index]], also returned by
    [update_ema]. *)
Definition ema_next (current_value : float) (ema : option float) : float :=
  match ema with
  | None => current_value
  | Some e => (ema_alpha * current_value + (1 - ema_alpha) * e)%float
  end.

Definition threshold_high (v : float) (ema : option float) : float :=
  (ema_next v ema + 1)%float.

Definition threshold_low (v : float) (ema : option float) : float :=
  (threshold_high v ema - hysteresis_threshold)%float.

(** The two tests of lines 303 and 309, for the working amplitude [v] met
    in a state whose EMA is [ema]. *)
Definition exceeds_high (v : float) (ema : option float) : bool :=
  (threshold_high v ema <? v)%float.

Definition at_or_below_low (v : float) (ema : option float) : bool :=
  negb (exceeds_high v ema) && (v <=? threshold_low v ema)%float.

(** Lines 296-311 for one range; the boolean tells whether [show_alert]
    was called. *)
Definition detect (v : float) (s : range_state) : range_state * bool :=
  let ema_value' := ema_next v (ema_value s) in
  let threshold_high := (ema_value' + 1)%float in
  let threshold_low := (threshold_high - hysteresis_threshold)%float in
  if (threshold_high <? v)%float then
    let count := S (stability_count s) in
    if (stability_duration <=? count)%nat && negb (alert_active s)
    then (mk_range_state (Some ema_value') count true, true)
    else (mk_range_state (Some ema_value') count (alert_active s), false)
  else if (v <=? threshold_low)%float then
    (mk_range_state (Some ema_value') O false, false)
  else
    (mk_range_state (Some ema_value') (stability_count s) (alert_active s),
     false).

(** What the periodic [update_spectrum] does to one range.  [Polled v] is
    the cycle of [background_processing] for the range, [v] being its
    working amplitude (lines 296-311).  [Shown v] is the
    [update_ema(filtered_mags.max(), 0)] of the display part (line 235),
    which runs before every [background_processing] and writes the EMA of
    range 0, whatever the displayed window is. *)
Inductive cycle : Type :=
  | Shown (v : float)
  | Polled (v : float).

(** [update_ema] alone, on the state of one range. *)
Definition show (v : float) (s : range_state) : range_state :=
  mk_range_state (Some (ema_next v (ema_value s)))
                 (stability_count s) (alert_active s).

Definition cycle_step (c : cycle) (s : range_state) : range_state * bool :=
  match c with
  | Shown v => (show v s, false)
  | Polled v => detect v s
  end.

(** A run of such steps on one range; the result lists, step by step,
    whether an alert was shown. *)
Fixpoint detect_run (cs : list cycle) (s : range_state)
  : range_state * list bool :=
  match cs with
  | [] => (s, [])
  | c :: cs' =>
      let '(s1, fired) := cycle_step c s in
      let '(s2, rest) := detect_run cs' s1 in
      (s2, fired :: rest)
  end.

(** How the code sorts a cycle: the [if] of line 303, the [elif] of line
    309, or neither (the amplitude lies between the two thresholds). *)
Inductive cycle_kind : Type :=
  | High
  | Low
  | Between.

Definition kind_of (v : float) (s : range_state) : cycle_kind :=
  if exceeds_high v (ema_value s) then High
  else if at_or_below_low v (ema_value s) then Low
  else Between.

(** The kinds of the polling cycles of a run, each judged in the state
    it meets (with the EMA as the display part left it). *)
Fixpoint kinds (cs : list cycle) (s : range_state) : list cycle_kind :=
  match cs with
  | [] => []
  | Shown v :: cs' => kinds cs' (show v s)
  | Polled v :: cs' => kind_of v s :: kinds cs' (fst (detect v s))
  end.

Definition is_high (k : cycle_kind) : bool :=
  match k with High => true | _ => false end.

Definition is_low (k : cycle_kind) : bool :=
  match k with Low => true | _ => false end.

Fixpoint count_if {A : Type} (p : A -> bool) (l : list A) : nat :=
  match l with
  | [] => O
  | x :: l' => if p x then S (count_if p l') else count_if p l'
  end.

(** The same cycle on the parallel lists, as the code has it: each list
    access may raise [IndexError], leaving the earlier updates in place. *)
Definition update_ema (current_value : float) (index : nat) (a : app)
  : outcome float * app :=
  match ema_values a !! index with
  | None => (Raise IndexError, a)
  | Some ema =>
      let v := ema_next current_value ema in
      (Return v,
       mk_app (scan_ranges a) (alert_flags a)
              (<[index := Some v]> (ema_values a))
              (stability_counter a) (serial_conn a) (log a))
  end.

Definition set_counter (i : nat) (c : nat) (a : app) : app :=
  mk_app (scan_ranges a) (alert_flags a) (ema_values a)
         (<[i := c]> (stability_counter a)) (serial_conn a) (log a).

Definition set_flag (i : nat) (f : bool) (a : app) : app :=
  mk_app (scan_ranges a) (<[i := f]> (alert_flags a)) (ema_values a)
         (stability_counter a) (serial_conn a) (log a).

Definition add_log (e : log_entry) (a : app) : app :=
  mk_app (scan_ranges a) (alert_flags a) (ema_values a)
         (stability_counter a) (serial_conn a) (log a ++ [e]).

Definition detect_at (i : nat) (start stop : Z) (v : float) (a : app)
  : outcome bool * app :=
  match update_ema v i a with
  | (Raise e, a) => (Raise e, a)
  | (Return ema_value, a) =>
      let threshold_high := (ema_value + 1)%float in
      let threshold_low := (threshold_high - hysteresis_threshold)%float in
      if (threshold_high <? v)%float then
        match stability_counter a !! i with
        | None => (Raise IndexError, a)
        | Some c =>
            let a := set_counter i (S c) a in
            match alert_flags a !! i with
            | None =>
                if (stability_duration <=? S c)%nat
                then (Raise IndexError, a) else (Return false, a)
            | Some flag =>
                if (stability_duration <=? S c)%nat && negb flag
                then (Return true,
                      add_log (LogThresholdExceeded start stop v)
                              (set_flag i true a))
                else (Return false, a)
            end
        end
      else if (v <=? threshold_low)%float then
        match alert_flags a !! i with
        | None => (Raise IndexError, a)
        | Some _ =>
            let a := set_flag i false a in
            match stability_counter a !! i with
            | None => (Raise IndexError, a)
            | Some _ => (Return false, set_counter i O a)
            end
        end
      else (Return false, a)
  end.

(** ** Range registry: [add_range], [edit_range], [delete_range] *)

(** [del l[index]]. *)
Definition py_del {A : Type} (index : nat) (l : list A) : outcome (list A) :=
  if (index <? length l)%nat then Return (delete index l)
  else Raise IndexError.

(** [int(freq * 1e6)]. *)
Definition hz_of_mhz (freq : float) : outcome Z :=
  int_of_float (freq * 1000000)%float.

(** The three arguments are the answers of the three [askfloat] dialogs
    ([None] when a dialog is cancelled). *)
Definition add_range (start_freq stop_freq threshold : option float) (a : app)
  : outcome unit * app :=
  match start_freq, stop_freq, threshold with
  | Some start_freq, Some stop_freq, Some threshold =>
      match hz_of_mhz start_freq with
      | Raise e => (Raise e, a)
      | Return start =>
          match hz_of_mhz stop_freq with
          | Raise e => (Raise e, a)
          | Return stop =>
              (Return tt,
               mk_app (scan_ranges a ++ [(start, stop, Some threshold)])
                      (alert_flags a ++ [false])
                      (ema_values a ++ [None])
                      (stability_counter a ++ [O])
                      (serial_conn a)
                      (log a ++ [LogRangeAdded]))
          end
      end
  | _, _, _ => (Return tt, a)
  end.

(** [selected] is [self.range_listbox.curselection()]. *)
Definition edit_range (selected : list nat)
    (start_freq stop_freq threshold : option float) (a : app)
  : outcome unit * app :=
  match selected with
  | [] => (Return tt, a)
  | index :: _ =>
      match scan_ranges a !! index with
      | None => (Raise IndexError, a)
      | Some _ =>
          match start_freq, stop_freq, threshold with
          | Some start_freq, Some stop_freq, Some threshold =>
              match hz_of_mhz start_freq with
              | Raise e => (Raise e, a)
              | Return start =>
                  match hz_of_mhz stop_freq with
                  | Raise e => (Raise e, a)
                  | Return stop =>
                      (Return tt,
                       mk_app (<[index := (start, stop, Some threshold)]>
                                 (scan_ranges a))
                              (alert_flags a) (ema_values a)
                              (stability_counter a) (serial_conn a)
                              (log a ++ [LogRangeEdited]))
                  end
              end
          | _, _, _ => (Return tt, a)
          end
      end
  end.

Definition delete_range (selected : list nat) (a : app) : outcome unit * app :=
  match selected with
  | [] => (Return tt, a)
  | index :: _ =>
      match scan_ranges a !! index with
      | None => (Raise IndexError, a)
      | Some _ =>
          match py_del index (scan_ranges a) with
          | Raise e => (Raise e, a)
          | Return ranges =>
              let a := mk_app ranges (alert_flags a) (ema_values a)
                         (stability_counter a) (serial_conn a) (log a) in
              match py_del index (alert_flags a) with
              | Raise e => (Raise e, a)
              | Return flags =>
                  let a := mk_app (scan_ranges a) flags (ema_values a)
                             (stability_counter a) (serial_conn a) (log a) in
                  match py_del index (ema_values a) with
                  | Raise e => (Raise e, a)
                  | Return emas =>
                      let a := mk_app (scan_ranges a) (alert_flags a) emas
                                 (stability_counter a) (serial_conn a)
                                 (log a) in
                      match py_del index (stability_counter a) with
                      | Raise e => (Raise e, a)
                      | Return counters =>
                          (Return tt,
                           mk_app (scan_ranges a) (alert_flags a)
                                  (ema_values a) counters (serial_conn a)
                                  (log a ++ [LogRangeDeleted]))
                      end
                  end
              end
          end
      end
  end.

(** The four parallel lists have one entry per range. *)
Definition lockstep (a : app) : Prop :=
  length (alert_flags a) = length (scan_ranges a) /\
  length (ema_values a) = length (scan_ranges a) /\
  length (stability_counter a) = length (scan_ranges a).

(** ** Calibration *)

Definition set_conn (c : option serial_port) (a : app) : app :=
  mk_app (scan_ranges a) (alert_flags a) (ema_values a)
         (stability_counter a) c (log a).

Definition set_range (i : nat) (r : scan_range) (a : app) : app :=
  mk_app (<[i := r]> (scan_ranges a)) (alert_flags a) (ema_values a)
         (stability_counter a) (serial_conn a) (log a).

(** The built-in [max] of a list: the first element that no later element
    exceeds. *)
Fixpoint py_max_from (m : float) (l : list float) : float :=
  match l with
  | [] => m
  | x :: rest => py_max_from (if (m <? x)%float then x else m) rest
  end.

Definition py_max (l : list float) : outcome float :=
  match l with
  | [] => Raise ValueError
  | x :: rest => Return (py_max_from x rest)
  end.

(** ** Filtering of a spectrum: [ignore_known_values], [process_spectrum] *)

(** [(mag, freq) in self.ignored_ranges]: the set is searched with [==]. *)
Definition is_ignored (ignored_ranges : list (float * float))
    (mag freq : float) : bool :=
  existsb (fun p => (mag =? fst p)%float && (freq =? snd p)%float)
          ignored_ranges.

Fixpoint ignore_known_values (ignored_ranges : list (float * float))
    (mags freqs : list float) : list float * list float :=
  match mags, freqs with
  | mag :: mags', freq :: freqs' =>
      let '(filtered_mags, filtered_freqs) :=
        ignore_known_values ignored_ranges mags' freqs' in
      if is_ignored ignored_ranges mag freq
      then (filtered_mags, filtered_freqs)
      else (mag :: filtered_mags, freq :: filtered_freqs)
  | _, _ => ([], [])
  end.

(** [a[mask]] for a boolean mask of the length of [a]. *)
Fixpoint select {A : Type} (mask : list bool) (a : list A) : list A :=
  match mask, a with
  | keep :: mask', x :: a' =>
      if keep then x :: select mask' a' else select mask' a'
  | _, _ => []
  end.

(** [process_spectrum]; [np.median] is a parameter.  Indexing [freqs]
    with a mask of another length raises [IndexError], except that an
    empty mask selects nothing from any array. *)
Definition process_spectrum (np_median : list float -> float)
    (mags freqs : list float) : outcome (list float * list float) :=
  let median_value := np_median mags in
  let mask := map (fun m => (median_value <? m)%float) mags in
  let filtered_mags := select mask mags in
  if (length mask =? 0)%nat || (length freqs =? length mags)%nat
  then Return (filtered_mags, select mask freqs)
  else Raise IndexError.

(** [for i, (start, stop, _) in enumerate(self.scan_ranges)]: the pass
    only assigns the entry it has just read, so it sees the ranges as
    they are when it starts. *)
Fixpoint for_ranges (body : nat -> Z -> Z -> app -> outcome unit * app)
    (i : nat) (ranges : list scan_range) (a : app) : outcome unit * app :=
  match ranges with
  | [] => (Return tt, a)
  | (start, stop, _) :: ranges' =>
      match body i start stop a with
      | (Raise e, a) => (Raise e, a)
      | (Return _, a) => for_ranges body (S i) ranges' a
      end
  end.

(** [self.display_range] of [__init__]. *)
Definition display_range : Z * Z := (200000000, 1300000000).

(** ** The periodic cycle: [update_spectrum], [background_processing] *)

Section Polling.

(** SciPy and NumPy are outside the repository:
    [median_filter(mags, size=3)], [np.median] and the [max()] of an array
    (which raises on an empty one) are parameters.  [ignored_ranges] is
    [self.ignored_ranges], which none of the functions below changes.
    [find_peaks] and the drawing calls change nothing of the state; they
    are left out, which takes them not to raise. *)
Variable median_filter : list float -> outcome (list float).
Variable np_median : list float -> float.
Variable np_max : list float -> outcome float.
Variable ignored_ranges : list (float * float).

(** [filtered_mags.max()] of a decoded answer: the median filter, then
    [ignore_known_values], then [process_spectrum] (lines 225-235 and
    285-296). *)
Definition working_amplitude (mags freqs : list float) : outcome float :=
  do mags <- median_filter mags;
  let '(mags, freqs) := ignore_known_values ignored_ranges mags freqs in
  do filtered <- process_spectrum np_median mags freqs;
  np_max (fst filtered).

(** [background_processing], body of the loop over the ranges. *)
Definition background_range (i : nat) (start stop : Z) (a : app)
  : outcome unit * app :=
  match get_spectrum_float (serial_conn a) start stop 2 3 0 with
  | (Raise e, conn) => (Raise e, set_conn conn a)
  | (Return None, conn) => (Return tt, set_conn conn a)
  | (Return (Some (mags, freqs)), conn) =>
      let a := set_conn conn a in
      match working_amplitude mags freqs with
      | Raise e => (Raise e, a)
      | Return v =>
          match detect_at i start stop v a with
          | (Raise e, a) => (Raise e, a)
          | (Return _, a) => (Return tt, a)
          end
      end
  end.

Definition background_processing (a : app) : outcome unit * app :=
  for_ranges background_range O (scan_ranges a) a.

(** The display part of [update_spectrum] (lines 218-235): the window
    [self.display_range] is queried and the EMA of index 0 is updated with
    its working amplitude. *)
Definition show_display (a : app) : outcome unit * app :=
  match scan_ranges a with
  | [] => (Return tt, a)
  | _ :: _ =>
      match get_spectrum_float (serial_conn a)
                               (fst display_range) (snd display_range) 2 3 0
      with
      | (Raise e, conn) => (Raise e, set_conn conn a)
      | (Return None, conn) => (Return tt, set_conn conn a)
      | (Return (Some (mags, freqs)), conn) =>
          let a := set_conn conn a in
          match working_amplitude mags freqs with
          | Raise e => (Raise e, a)
          | Return v =>
              match update_ema v O a with
              | (Raise e, a) => (Raise e, a)
              | (Return _, a) => (Return tt, a)
              end
          end
      end
  end.

(** [update_spectrum], up to [self.root.after(500, self.update_spectrum)],
    which an exception skips. *)
Definition update_spectrum (a : app) : outcome unit * app :=
  match serial_conn a with
  | None => (Return tt, a)
  | Some _ =>
      match show_display a with
      | (Raise e, a) => (Raise e, a)
      | (Return _, a) => background_processing a
      end
  end.

End Polling.

(** ** Calibration passes *)

Section Calibration.

(** NumPy is outside the repository: [mags.max()] (which raises on an
    empty array), [np.median] and the rounding of a float64 to one
    decimal place are parameters. *)
Variable np_max : list float -> outcome float.
Variable np_median : list float -> float.
Variable round1 : float -> float.
Variable median_filter : list float -> outcome (list float).
Variable ignored_ranges : list (float * float).

(** The inner loop [for _ in range(n)] of both calibrations: one query
    per turn, the maximum of each answer appended to [amplitudes]. *)
Fixpoint collect_amplitudes (n : nat) (start stop : Z)
    (amplitudes : list float) (a : app) : outcome (list float) * app :=
  match n with
  | O => (Return amplitudes, a)
  | S n' =>
      match get_spectrum_float (serial_conn a) start stop 2 3 0 with
      | (Raise e, conn) => (Raise e, set_conn conn a)
      | (Return None, conn) =>
          collect_amplitudes n' start stop amplitudes (set_conn conn a)
      | (Return (Some (mags, _)), conn) =>
          match np_max mags with
          | Raise e => (Raise e, set_conn conn a)
          | Return m =>
              collect_amplitudes n' start stop (amplitudes ++ [m])
                                 (set_conn conn a)
          end
      end
  end.

(** [auto_calibrate_thresholds], body of the loop over the ranges. *)
Definition auto_calibrate_range (i : nat) (start stop : Z) (a : app)
  : outcome unit * app :=
  match collect_amplitudes 500 start stop [] a with
  | (Raise e, a) => (Raise e, a)
  | (Return [], a) => (Return tt, a)
  | (Return amplitudes, a) =>
      let median_amplitude := np_median amplitudes in
      let threshold := (median_amplitude + 1)%float in
      let round_threshold := round1 threshold in
      (Return tt,
       add_log (LogAutoThreshold start stop round_threshold)
               (set_range i (start, stop, Some round_threshold) a))
  end.

(** [calibration_process], body of the loop over the ranges. *)
Definition recalibrate_range (i : nat) (start stop : Z) (a : app)
  : outcome unit * app :=
  match collect_amplitudes 10 start stop [] a with
  | (Raise e, a) => (Raise e, a)
  | (Return [], a) => (Return tt, a)
  | (Return amplitudes, a) =>
      match py_max amplitudes with
      | Raise e => (Raise e, a)
      | Return max_amplitude =>
          let threshold := (max_amplitude + 1)%float in
          let round_threshold := round1 threshold in
          (Return tt, set_range i (start, stop, Some round_threshold) a)
      end
  end.

Definition auto_calibrate_thresholds (a : app) : outcome unit * app :=
  match serial_conn a with
  | Some _ => for_ranges auto_calibrate_range O (scan_ranges a) a
  | None => (Return tt, add_log LogNoConnection a)
  end.

(** The loop of [calibration_process] (lines 404-418): [passes] is the
    number of turns of [while time.time() < end_time] that fit in the two
    minutes. *)
Fixpoint calibration_passes (passes : nat) (a : app) : outcome unit * app :=
  match passes with
  | O => (Return tt, a)
  | S passes' =>
      match for_ranges recalibrate_range O (scan_ranges a) a with
      | (Raise e, a) => (Raise e, a)
      | (Return _, a) => calibration_passes passes' a
      end
  end.

(** [calibration_process]: the loop, then [update_range_listbox()] and
    [update_spectrum()] (lines 420-421). *)
Definition calibration_process (passes : nat) (a : app)
  : outcome unit * app :=
  match calibration_passes passes a with
  | (Raise e, a) => (Raise e, a)
  | (Return _, a) =>
      update_spectrum median_filter np_median np_max ignored_ranges a
  end.

(** The threshold the initial calibration chooses for a range, from the
    state in which its 500 queries start: none if no query succeeded. *)
Definition initial_choice (start stop : Z) (a : app) (t : option float)
  : Prop :=
  exists (amplitudes : list float) (a1 : app),
    collect_amplitudes 500 start stop [] a
      = (Return amplitudes, a1) /\
    t = match amplitudes with
        | [] => None
        | _ => Some (round1 (np_median amplitudes + 1)%float)
        end.

(** The same for one pass of the continuous calibration and its 10
    queries. *)
Definition continuous_choice (start stop : Z) (a : app) (t : option float)
  : Prop :=
  exists (amplitudes : list float) (a1 : app),
    collect_amplitudes 10 start stop [] a
      = (Return amplitudes, a1) /\
    t = match py_max amplitudes with
        | Raise _ => None
        | Return max_amplitude => Some (round1 (max_amplitude + 1)%float)
        end.

End Calibration.

End Ex2.

(** * Properties *)

(** ** Bytes, checksum and [struct] *)

Lemma byte_val_range (b : byte) : 0 <= byte_val b < 256.
Proof.
  unfold byte_val. pose proof (Byte.to_N_bounded b). lia.
Qed.

Lemma byte_val_of_Z (z : Z) : byte_val (byte_of_Z z) = z mod 256.
Proof.
  unfold byte_val, byte_of_Z.
  pose proof (Z.mod_pos_bound z 256 ltac:(lia)) as Hz.
  destruct (Byte.of_N (Z.to_N (z mod 256))) as [b|] eqn:E.
  - apply Byte.to_of_N in E. rewrite E. lia.
  - apply Byte.of_N_None_iff in E. lia.
Qed.

Lemma byte_of_Z_val (b : byte) : byte_of_Z (byte_val b) = b.
Proof.
  unfold byte_of_Z. pose proof (byte_val_range b) as Hb.
  rewrite Z.mod_small by lia. unfold byte_val.
  rewrite N2Z.id, Byte.of_to_N. reflexivity.
Qed.

Lemma byte_eqb_eq (a b : byte) : byte_eqb a b = true <-> a = b.
Proof.
  unfold byte_eqb. split.
  - apply Byte.byte_dec_bl.
  - apply Byte.byte_dec_lb.
Qed.

Lemma byte_eqb_neq (a b : byte) : byte_eqb a b = false <-> a <> b.
Proof.
  rewrite <- byte_eqb_eq. destruct (byte_eqb a b); split; congruence.
Qed.

Lemma fletcher_loop_range (data : list byte) (a b : Z) :
  0 <= a < 256 -> 0 <= b < 256 ->
  0 <= fst (fletcher_loop data a b) < 256 /\
  0 <= snd (fletcher_loop data a b) < 256.
Proof.
  revert a b. induction data as [|x data IH]; intros a b Ha Hb; simpl.
  - auto.
  - apply IH; apply Z.mod_pos_bound; lia.
Qed.

Lemma fletcher_checksum_range (data : list byte) :
  0 <= fst (fletcher_checksum data) < 256 /\
  0 <= snd (fletcher_checksum data) < 256.
Proof. apply fletcher_loop_range; lia. Qed.

Lemma length_le_bytes (n : nat) (v : Z) : length (le_bytes n v) = n.
Proof.
  revert v. induction n as [|n IH]; intros v; simpl; [reflexivity|].
  now rewrite IH.
Qed.

Lemma le_value_le_bytes (n : nat) (v : Z) :
  le_value (le_bytes n v) = v mod 256 ^ Z.of_nat n.
Proof.
  revert v. induction n as [|n IH]; intros v.
  - simpl. now rewrite Z.mod_1_r.
  - cbn [le_bytes le_value]. rewrite byte_val_of_Z, IH.
    rewrite Nat2Z.inj_succ, Z.pow_succ_r by lia.
    rewrite Z.rem_mul_r by lia. reflexivity.
Qed.

Lemma le_value_range (b : list byte) :
  0 <= le_value b < 256 ^ Z.of_nat (length b).
Proof.
  induction b as [|x b IH].
  - simpl. lia.
  - cbn [le_value length]. rewrite Nat2Z.inj_succ, Z.pow_succ_r by lia.
    pose proof (byte_val_range x). lia.
Qed.

Lemma land_shifted_byte (a b : Z) :
  0 <= a < 256 -> Z.land (b * 2 ^ 8) a = 0.
Proof.
  intros Ha. apply Z.bits_inj'. intros n Hn.
  rewrite Z.land_spec, Z.bits_0.
  destruct (Z.lt_ge_cases n 8) as [Hlt|Hge].
  - rewrite Z.mul_pow2_bits_low by lia. reflexivity.
  - replace (Z.testbit a n) with false; [apply andb_false_r|].
    symmetry. apply Z.bits_above_log2; [lia|].
    destruct (Z.eq_dec a 0) as [->|Hne]; [simpl; lia|].
    apply Z.log2_lt_pow2; [lia|].
    apply Z.lt_le_trans with (2 ^ 8); [change (2 ^ 8) with 256; lia|].
    apply Z.pow_le_mono_r; lia.
Qed.

(** [(b << 8) | a] is [a + 256 * b] when [a] is a byte. *)
Lemma lor_shiftl_byte (a b : Z) :
  0 <= a < 256 -> 0 <= b -> Z.lor (Z.shiftl b 8) a = a + 256 * b.
Proof.
  intros Ha Hb.
  rewrite Z.shiftl_mul_pow2 by lia.
  rewrite <- Z.lxor_lor by (apply land_shifted_byte; lia).
  rewrite <- Z.add_nocarry_lxor by (apply land_shifted_byte; lia).
  change (2 ^ 8) with 256. lia.
Qed.

Lemma pack_unsigned_ok (n : nat) (v : Z) :
  0 <= v < 256 ^ Z.of_nat n -> pack_unsigned n v = Return (le_bytes n v).
Proof.
  intros [Hlo Hhi]. unfold pack_unsigned.
  apply Z.leb_le in Hlo. apply Z.ltb_lt in Hhi.
  now rewrite Hlo, Hhi.
Qed.

Lemma pack_unsigned_out_of_range (n : nat) (v : Z) :
  v < 0 \/ 256 ^ Z.of_nat n <= v -> pack_unsigned n v = Raise StructError.
Proof.
  intros H. unfold pack_unsigned.
  destruct (0 <=? v) eqn:Hlo; [|reflexivity].
  destruct (v <? 256 ^ Z.of_nat n) eqn:Hhi; [|reflexivity].
  apply Z.leb_le in Hlo. apply Z.ltb_lt in Hhi. lia.
Qed.

Lemma pack_query_ok (start_freq stop_freq : Z) :
  0 <= start_freq < 2 ^ 64 -> 0 <= stop_freq < 2 ^ 64 ->
  pack_query start_freq stop_freq 2 3 0 =
  Return ([xbb; xc2; x13; x00] ++ le_bytes 8 start_freq
            ++ le_bytes 8 stop_freq ++ [x02; x03; x00]).
Proof.
  intros Hs He. unfold pack_query, pack_B, pack_H, pack_Q.
  rewrite (pack_unsigned_ok 8 start_freq) by exact Hs.
  rewrite (pack_unsigned_ok 8 stop_freq) by exact He.
  reflexivity.
Qed.

Lemma encode_query_ok (start_freq stop_freq : Z) (command : list byte) :
  pack_query start_freq stop_freq 2 3 0 = Return command ->
  encode_query start_freq stop_freq 2 3 0 =
  Return (command ++ [byte_of_Z (fst (fletcher_checksum command));
                      byte_of_Z (snd (fletcher_checksum command))]).
Proof.
  intros Hc. unfold encode_query. rewrite Hc. cbn [bind].
  pose proof (fletcher_checksum_range command) as [Ha Hb].
  destruct (fletcher_checksum command) as [crc1 crc2]. cbn [fst snd] in *.
  unfold pack_B.
  rewrite (pack_unsigned_ok 1 crc1) by (change (256 ^ Z.of_nat 1) with 256; lia).
  rewrite (pack_unsigned_ok 1 crc2) by (change (256 ^ Z.of_nat 1) with 256; lia).
  reflexivity.
Qed.

(** Slices of a string that extends a known prefix. *)
Lemma slice_to_app_exact {A : Type} (l1 l2 : list A) (n : Z) :
  n = len l1 -> slice_to (l1 ++ l2) n = l1.
Proof.
  intros ->. unfold slice_to, len. rewrite Nat2Z.id.
  now rewrite take_app_length.
Qed.

Lemma slice_from_app_exact {A : Type} (l1 l2 : list A) (n : Z) :
  n = len l1 -> slice_from (l1 ++ l2) n = l2.
Proof.
  intros ->. unfold slice_from, len. rewrite Nat2Z.id.
  now rewrite drop_app_length.
Qed.

Lemma slice_app_tail {A : Type} (l1 l2 : list A) (lo hi : Z) :
  lo = len l1 -> hi = len l1 + len l2 -> slice (l1 ++ l2) lo hi = l2.
Proof.
  intros -> ->. unfold slice, len. rewrite Nat2Z.id, drop_app_length.
  replace (Z.to_nat (Z.of_nat (length l1) + Z.of_nat (length l2)
                     - Z.of_nat (length l1))) with (length l2) by lia.
  apply firstn_all.
Qed.

(** ** Slices *)

Lemma length_slice {A : Type} (b : list A) (lo hi : Z) :
  0 <= lo -> lo <= hi -> hi <= len b ->
  length (slice b lo hi) = Z.to_nat (hi - lo).
Proof.
  intros Hlo Hhi Hlen. unfold slice, len in *.
  rewrite length_take, length_drop. lia.
Qed.

Lemma len_slice {A : Type} (b : list A) (lo hi : Z) :
  0 <= lo -> lo <= hi -> hi <= len b -> len (slice b lo hi) = hi - lo.
Proof.
  intros Hlo Hhi Hlen. unfold len at 1.
  rewrite length_slice by assumption. lia.
Qed.

Lemma slice_slice_to {A : Type} (b : list A) (n lo hi : Z) :
  0 <= lo -> lo <= hi -> hi <= n ->
  slice (slice_to b n) lo hi = slice b lo hi.
Proof.
  intros Hlo Hhi Hn. unfold slice, slice_to.
  rewrite !take_drop_commute, take_take. do 2 f_equal. lia.
Qed.

Lemma slice_to_slice_to {A : Type} (b : list A) (n m : Z) :
  m <= n -> slice_to (slice_to b n) m = slice_to b m.
Proof.
  intros Hn. unfold slice_to. rewrite take_take. f_equal. lia.
Qed.

Lemma len_slice_to {A : Type} (b : list A) (n : Z) :
  0 <= n -> n <= len b -> len (slice_to b n) = n.
Proof.
  intros H0 Hn. unfold slice_to, len in *. rewrite length_take. lia.
Qed.

Lemma lookup_slice_to {A : Type} (b : list A) (n : Z) (i : nat) :
  Z.of_nat i < n -> slice_to b n !! i = b !! i.
Proof.
  intros Hi. unfold slice_to. apply lookup_take_lt. lia.
Qed.

Lemma unpack_H_two (b : list byte) :
  length b = 2%nat -> unpack_H b = Return (le_value b).
Proof.
  destruct b as [|x [|y [|z b]]]; cbn [length]; intros H; try lia.
  reflexivity.
Qed.

Lemma unpack_H_range (b : list byte) (v : Z) :
  unpack_H b = Return v -> 0 <= v < 65536.
Proof.
  destruct b as [|x [|y [|z b]]]; cbn [unpack_H]; intros H;
    try discriminate.
  injection H as <-. pose proof (le_value_range [x; y]) as Hr.
  cbn [length] in Hr. change (256 ^ Z.of_nat 2) with 65536 in Hr. exact Hr.
Qed.

(** ** The buffer based parser *)

(** The body of [parse_response] on a buffer of at least 6 bytes, as a
    cascade of its tests. *)
Lemma parse_body_cascade (buffer : list byte) (b0 b1 : byte) :
  6 <= len buffer ->
  buffer !! 0%nat = Some b0 -> buffer !! 1%nat = Some b1 ->
  Arduino.parse_body buffer =
  if negb (byte_eqb b0 MARKER) then Return (inl Arduino.InvalidStartByte)
  else if negb (byte_eqb b1 GET_SPECTRUM_FLOAT)
  then Return (inl Arduino.IncorrectCommand)
  else
    let payload_len := le_value (slice buffer 2 4) in
    if len buffer <? 6 + payload_len then Return (inl Arduino.IncompletePacket)
    else if negb (le_value (slice buffer (4 + payload_len) (6 + payload_len))
                  =? Arduino.calculated_crc buffer payload_len)
    then Return (inl Arduino.CRCMismatch)
    else Arduino.decode_payload (slice buffer 4 (4 + payload_len)).
Proof.
  intros H6 H0 H1. unfold Arduino.parse_body.
  rewrite (proj2 (Z.ltb_ge _ _) H6).
  unfold index. change (Z.to_nat 0) with 0%nat. change (Z.to_nat 1) with 1%nat.
  rewrite H0, H1. cbn [bind].
  destruct (negb (byte_eqb b0 MARKER)); [reflexivity|].
  destruct (negb (byte_eqb b1 GET_SPECTRUM_FLOAT)); [reflexivity|].
  rewrite (unpack_H_two (slice buffer 2 4)) by (rewrite length_slice; lia).
  cbn [bind]. cbn zeta.
  pose proof (le_value_range (slice buffer 2 4)) as Hr.
  destruct (len buffer <? 6 + le_value (slice buffer 2 4)) eqn:Hlen;
    [reflexivity|].
  apply Z.ltb_ge in Hlen.
  rewrite unpack_H_two by (rewrite length_slice; lia).
  reflexivity.
Qed.

Lemma first_two_bytes (buffer : list byte) :
  6 <= len buffer ->
  exists b0 b1, buffer !! 0%nat = Some b0 /\ buffer !! 1%nat = Some b1.
Proof.
  intros H6. destruct buffer as [|b0 [|b1 rest]]; unfold len in H6;
    cbn [length] in H6; try lia.
  exists b0, b1. split; reflexivity.
Qed.

(** C5.  For 64-bit [start_freq] and [stop_freq], the query built with
    [rfin=2, bw=3, speed=0] (by [get_spectrum] as by [get_spectrum_float])
    is the 25 bytes [0xBB 0xC2], 19 as a little-endian u16, the two
    frequencies as little-endian u64, [2 3 0], and the two checksum bytes
    of the 23 bytes before them; the checksum comparison of
    [parse_response] succeeds on it: the received value read at offset
    [4 + 19] equals the value calculated over the first [4 + 19] bytes, so
    that the parser passes its four tests on the query and hands the 19
    bytes after the header to the decoder (which then fails, 19 bytes not
    being four floats). *)
Theorem encode_query_roundtrip (start_freq stop_freq : Z) :
  0 <= start_freq < 2 ^ 64 -> 0 <= stop_freq < 2 ^ 64 ->
  exists crc1 crc2 : Z,
    let command := [xbb; xc2; x13; x00] ++ le_bytes 8 start_freq
                     ++ le_bytes 8 stop_freq ++ [x02; x03; x00] in
    let query := command ++ [byte_of_Z crc1; byte_of_Z crc2] in
    fletcher_checksum command = (crc1, crc2) /\
    encode_query start_freq stop_freq 2 3 0 = Return query /\
    Arduino.get_spectrum start_freq stop_freq = Return query /\
    len command = 23 /\ len query = 25 /\
    le_value (le_bytes 8 start_freq) = start_freq /\
    le_value (le_bytes 8 stop_freq) = stop_freq /\
    unpack_H (slice query 2 4) = Return 19 /\
    unpack_H (slice query (4 + 19) (6 + 19)) =
      Return (Arduino.calculated_crc query 19) /\
    Arduino.parse_body query
      = Arduino.decode_payload (slice query 4 (4 + 19)) /\
    Arduino.parse_response query
      = Return (inl (Arduino.ParseException StructError)).
Proof.
  intros Hs He.
  pose proof (pack_query_ok start_freq stop_freq Hs He) as Hq.
  pose proof (encode_query_ok _ _ _ Hq) as Henc.
  set (command := [xbb; xc2; x13; x00] ++ le_bytes 8 start_freq
                    ++ le_bytes 8 stop_freq ++ [x02; x03; x00]) in *.
  pose proof (fletcher_checksum_range command) as [Ha Hb].
  destruct (fletcher_checksum command) as [crc1 crc2] eqn:Hck.
  cbn [fst snd] in *.
  assert (Hlen : len command = 23).
  { unfold len, command. rewrite !length_app, !length_le_bytes. reflexivity. }
  exists crc1, crc2. cbn zeta.
  set (query := command ++ [byte_of_Z crc1; byte_of_Z crc2]).
  assert (Hlenq : len query = 25).
  { unfold len, query in *. rewrite length_app. cbn [length]. lia. }
  assert (Hcrc : unpack_H (slice query (4 + 19) (6 + 19)) =
                 Return (Arduino.calculated_crc query 19)).
  { unfold query.
    rewrite (slice_app_tail command) by (rewrite Hlen; reflexivity).
    unfold Arduino.calculated_crc.
    rewrite (slice_to_app_exact command) by (rewrite Hlen; reflexivity).
    rewrite Hck. rewrite lor_shiftl_byte by lia.
    cbn [unpack_H le_value]. rewrite !byte_val_of_Z.
    rewrite !Z.mod_small by lia. f_equal. lia. }
  assert (Hpl : le_value (slice query 2 4) = 19) by reflexivity.
  assert (Hbody : Arduino.parse_body query
                  = Arduino.decode_payload (slice query 4 (4 + 19))).
  { rewrite (parse_body_cascade query xbb xc2)
      by (first [rewrite Hlenq; lia | reflexivity]).
    change (byte_eqb xbb MARKER) with true.
    change (byte_eqb xc2 GET_SPECTRUM_FLOAT) with true.
    cbn [negb]. cbn zeta. rewrite Hpl, Hlenq.
    change (25 <? 6 + 19) with false. cbv iota.
    rewrite (unpack_H_two (slice query (4 + 19) (6 + 19))) in Hcrc
      by (rewrite length_slice; rewrite ?Hlenq; lia).
    assert (Hv : le_value (slice query (4 + 19) (6 + 19))
                 = Arduino.calculated_crc query 19) by congruence.
    rewrite Hv, Z.eqb_refl. reflexivity. }
  split; [exact Hck|].
  split; [exact Henc|]. split; [exact Henc|]. split; [exact Hlen|].
  split; [exact Hlenq|].
  split; [|split; [|split; [reflexivity|split; [exact Hcrc|]]]].
  - rewrite le_value_le_bytes. apply Z.mod_small.
    change (256 ^ Z.of_nat 8) with (2 ^ 64). lia.
  - rewrite le_value_le_bytes. apply Z.mod_small.
    change (256 ^ Z.of_nat 8) with (2 ^ 64). lia.
  - split; [exact Hbody|].
    unfold Arduino.parse_response. rewrite Hbody.
    unfold Arduino.decode_payload.
    rewrite len_slice by (rewrite ?Hlenq; lia).
    change ((4 + 19 - 4) / 4) with 4. change (4 mod 2 =? 0) with true.
    cbn [negb]. unfold unpack_floats.
    rewrite len_slice by (rewrite ?Hlenq; lia). reflexivity.
Qed.

Lemma encode_query_roundtrip_witness :
  exists crc1 crc2 : Z,
    let command := [xbb; xc2; x13; x00] ++ le_bytes 8 800000000
                     ++ le_bytes 8 4800000000 ++ [x02; x03; x00] in
    let query := command ++ [byte_of_Z crc1; byte_of_Z crc2] in
    fletcher_checksum command = (crc1, crc2) /\
    encode_query 800000000 4800000000 2 3 0 = Return query /\
    Arduino.get_spectrum 800000000 4800000000 = Return query /\
    len command = 23 /\ len query = 25 /\
    le_value (le_bytes 8 800000000) = 800000000 /\
    le_value (le_bytes 8 4800000000) = 4800000000 /\
    unpack_H (slice query 2 4) = Return 19 /\
    unpack_H (slice query (4 + 19) (6 + 19)) =
      Return (Arduino.calculated_crc query 19) /\
    Arduino.parse_body query
      = Arduino.decode_payload (slice query 4 (4 + 19)) /\
    Arduino.parse_response query
      = Return (inl (Arduino.ParseException StructError)).
Proof.
  apply (encode_query_roundtrip 800000000 4800000000); lia.
Defined.

(** The handler of [parse_response] catches whatever its body raises. *)
Lemma parse_response_returns (buffer : list byte) :
  exists r : Arduino.parse_result, Arduino.parse_response buffer = Return r.
Proof.
  unfold Arduino.parse_response, try_except.
  destruct (Arduino.parse_body buffer) as [r|e]; eauto.
Qed.

(** A buffer that decodes starts with the marker. *)
Lemma parse_response_ok_marker (buffer : list byte) (s : samples) :
  6 <= len buffer ->
  Arduino.parse_response buffer = Return (inr s) ->
  buffer !! 0%nat = Some MARKER.
Proof.
  intros H6 Hs.
  destruct (first_two_bytes buffer H6) as (b0 & b1 & H0 & H1).
  unfold Arduino.parse_response in Hs.
  rewrite (parse_body_cascade buffer b0 b1 H6 H0 H1) in Hs.
  destruct (byte_eqb b0 MARKER) eqn:Em; cbn [negb try_except] in Hs;
    [|discriminate].
  apply byte_eqb_eq in Em. now subst b0.
Qed.

(** C9.  On every buffer the buffer based [parse_response] returns
    normally: its result is either the failure value (with the warning
    that was logged) or a pair of arrays; no exception reaches the
    caller. *)
Theorem parse_response_total (buffer : list byte) :
  exists r : Arduino.parse_result,
    Arduino.parse_response buffer = Return r /\
    ((exists w, r = inl w) \/ (exists mags freqs, r = inr (mags, freqs))).
Proof.
  destruct (parse_response_returns buffer) as [[w|[mags freqs]] Hr].
  - exists (inl w). split; [exact Hr|]. left. now exists w.
  - exists (inr (mags, freqs)). split; [exact Hr|]. right.
    now exists mags, freqs.
Qed.

(** The handler is not idle: the body raises on a checksum-valid frame
    whose payload length is not a multiple of four. *)
Example parse_body_raises :
  Arduino.parse_body [xbb; xc2; x01; x00; x00; x7e; xb2] = Raise StructError /\
  Arduino.parse_response [xbb; xc2; x01; x00; x00; x7e; xb2] =
    Return (inl (Arduino.ParseException StructError)).
Proof. split; reflexivity. Qed.

(** ** The spectrum decoder *)

Lemma length_floats_of_bytes (n : nat) (data : list byte) :
  length data = (4 * n)%nat -> length (floats_of_bytes data) = n.
Proof.
  revert data. induction n as [|n IH]; intros data Hlen.
  - destruct data; [reflexivity|discriminate].
  - destruct data as [|b0 [|b1 [|b2 [|b3 rest]]]]; cbn [length] in Hlen;
      try lia.
    cbn [floats_of_bytes length]. f_equal. apply IH. lia.
Qed.

Lemma lookup_floats_of_bytes (n : nat) (data : list byte) (i : nat) :
  length data = (4 * n)%nat -> (i < n)%nat ->
  floats_of_bytes data !! i =
  Some (float_of_bits32 (le_value (take 4 (drop (4 * i) data)))).
Proof.
  revert data i. induction n as [|n IH]; intros data i Hlen Hi; [lia|].
  destruct data as [|b0 [|b1 [|b2 [|b3 rest]]]]; cbn [length] in Hlen;
    try lia.
  destruct i as [|i].
  - reflexivity.
  - cbn [floats_of_bytes]. rewrite lookup_cons_ne_0 by lia.
    replace (Nat.pred (S i)) with i by lia.
    rewrite (IH rest i) by lia.
    replace (4 * S i)%nat with (S (S (S (S (4 * i))))) by lia.
    reflexivity.
Qed.

Lemma slice_as_take_drop {A : Type} (b : list A) (i : nat) :
  slice b (4 * Z.of_nat i) (4 * Z.of_nat i + 4) = take 4 (drop (4 * i) b).
Proof.
  unfold slice. f_equal; [|f_equal]; lia.
Qed.

(** X1.  The decoder of the buffer based parser does what the specification
    says.  A payload of [4 * n] bytes is read as [n] little-endian 32-bit
    floats.  If [n = 2 * m], the decoder returns [m] amplitudes, the
    floats at positions [0 .. m-1], and [m] frequencies, the floats at
    positions [m .. 2m-1] each divided by 1e6, amplitude [i] facing
    frequency [i]; if [n] is odd it fails with the warning "Incorrect
    number of floats" and returns no samples. *)
Theorem decode_payload_pairs (payload : list byte) (n : Z) :
  len payload = 4 * n ->
  (forall m : Z, n = 2 * m ->
     exists mags freqs : list float,
       Arduino.decode_payload payload = Return (inr (mags, freqs)) /\
       len mags = m /\ len freqs = m /\
       forall i : Z, 0 <= i < m ->
         mags !! Z.to_nat i =
           Some (float_of_bits32
                   (le_value (slice payload (4 * i) (4 * i + 4)))) /\
         freqs !! Z.to_nat i =
           Some (float_of_bits32
                   (le_value (slice payload (4 * (m + i)) (4 * (m + i) + 4)))
                 / 1000000)%float) /\
  (n mod 2 = 1 ->
     Arduino.decode_payload payload = Return (inl Arduino.IncorrectFloatCount)).
Proof.
  intros Hlen.
  assert (Hn : 0 <= n) by (unfold len in Hlen; lia).
  assert (Hnum : len payload / 4 = n).
  { rewrite Hlen, Z.mul_comm. apply Z.div_mul. lia. }
  assert (Hfl : length (floats_of_bytes payload) = Z.to_nat n).
  { apply length_floats_of_bytes. unfold len in Hlen. lia. }
  split.
  - intros m ->. unfold Arduino.decode_payload. rewrite Hnum.
    replace ((2 * m) mod 2) with 0
      by (rewrite Z.mul_comm; symmetry; apply Z.mod_mul; lia).
    cbn [Z.eqb negb]. unfold unpack_floats.
    rewrite Hlen, Z.eqb_refl. cbn [bind].
    replace (2 * m / 2) with m by (rewrite Z.mul_comm, Z.div_mul; lia).
    eexists _, _. split; [reflexivity|].
    unfold slice_to, slice_from, len.
    split; [rewrite length_take; lia|].
    split; [rewrite length_map, length_drop; lia|].
    intros i Hi. split.
    + rewrite lookup_take_lt by lia.
      rewrite (lookup_floats_of_bytes (Z.to_nat (2 * m))) by
        (unfold len in Hlen; lia).
      rewrite <- slice_as_take_drop, Z2Nat.id by lia. reflexivity.
    + rewrite list_lookup_fmap, lookup_drop.
      rewrite (lookup_floats_of_bytes (Z.to_nat (2 * m))) by
        (unfold len in Hlen; lia).
      rewrite <- slice_as_take_drop.
      replace (Z.of_nat (Z.to_nat m + Z.to_nat i)) with (m + i) by lia.
      reflexivity.
  - intros Hodd. unfold Arduino.decode_payload. rewrite Hnum, Hodd.
    reflexivity.
Qed.

Lemma decode_payload_pairs_witness :
  len [x00; x00; x80; x3f; x00; x24; xf4; x49] = 4 * 2 /\
  exists mags freqs : list float,
    Arduino.decode_payload [x00; x00; x80; x3f; x00; x24; xf4; x49] =
      Return (inr (mags, freqs)) /\
    len mags = 1 /\ len freqs = 1.
Proof.
  split; [reflexivity|].
  destruct (decode_payload_pairs
              [x00; x00; x80; x3f; x00; x24; xf4; x49] 2 eq_refl)
    as [Heven _].
  destruct (Heven 1 eq_refl) as (mags & freqs & Hdec & Hm & Hf & _).
  exists mags, freqs. auto.
Defined.

(** ** Frame validation *)

(** X2.  The buffer based parser validates a frame as the specification of
    [decodeFrame] says.  On a buffer of at least 6 bytes, with
    [payload_len] the little-endian u16 at offset 2, [parse_response]
    - fails with "Invalid start byte" or "Incorrect command code" when
      [buffer[0]] is not 0xBB or [buffer[1]] is not 0xC2, whatever the
      length says (the spec's [Invalid]);
    - otherwise fails with "Incomplete packet" when the buffer holds fewer
      than [6 + payload_len] bytes (the spec's [NeedMoreData]);
    - otherwise fails with "CRC mismatch" when the u16 read after the
      payload differs from [(b << 8) | a] calculated over the first
      [4 + payload_len] bytes (again [Invalid]);
    - returns samples only when all these tests pass, and then it has
      read exactly the first [6 + payload_len] bytes: the result is that
      of the payload [buffer[4 : 4 + payload_len]], and the same as on the
      buffer cut after [6 + payload_len] bytes. *)
Theorem parse_response_checks (buffer : list byte) :
  6 <= len buffer ->
  let payload_len := le_value (slice buffer 2 4) in
  let marker_ok := buffer !! 0%nat = Some MARKER in
  let command_ok := buffer !! 1%nat = Some GET_SPECTRUM_FLOAT in
  let crc_ok :=
    le_value (slice buffer (4 + payload_len) (6 + payload_len)) =
    Arduino.calculated_crc buffer payload_len in
  (~ marker_ok ->
     Arduino.parse_response buffer = Return (inl Arduino.InvalidStartByte)) /\
  (marker_ok -> ~ command_ok ->
     Arduino.parse_response buffer = Return (inl Arduino.IncorrectCommand)) /\
  (marker_ok -> command_ok -> len buffer < 6 + payload_len ->
     Arduino.parse_response buffer = Return (inl Arduino.IncompletePacket)) /\
  (marker_ok -> command_ok -> 6 + payload_len <= len buffer -> ~ crc_ok ->
     Arduino.parse_response buffer = Return (inl Arduino.CRCMismatch)) /\
  (forall s : samples,
     Arduino.parse_response buffer = Return (inr s) ->
     marker_ok /\ command_ok /\ 6 + payload_len <= len buffer /\ crc_ok /\
     Arduino.decode_payload (slice buffer 4 (4 + payload_len))
       = Return (inr s) /\
     Arduino.parse_response (slice_to buffer (6 + payload_len))
       = Return (inr s)).
Proof.
  intros H6 payload_len marker_ok command_ok crc_ok.
  destruct (first_two_bytes buffer H6) as (b0 & b1 & H0 & H1).
  pose proof (parse_body_cascade buffer b0 b1 H6 H0 H1) as Hbody.
  fold payload_len in Hbody. cbn zeta in Hbody.
  unfold Arduino.parse_response. subst marker_ok command_ok.
  destruct (byte_eqb b0 MARKER) eqn:Em; cbn [negb] in Hbody.
  2:{ apply byte_eqb_neq in Em. rewrite Hbody. cbn [try_except].
      repeat split; try discriminate; try reflexivity;
        intros; exfalso; congruence. }
  apply byte_eqb_eq in Em. subst b0.
  destruct (byte_eqb b1 GET_SPECTRUM_FLOAT) eqn:Ec; cbn [negb] in Hbody.
  2:{ apply byte_eqb_neq in Ec. rewrite Hbody. cbn [try_except].
      repeat split; try discriminate; try reflexivity;
        intros; exfalso; congruence. }
  apply byte_eqb_eq in Ec. subst b1.
  destruct (len buffer <? 6 + payload_len) eqn:El.
  { apply Z.ltb_lt in El. rewrite Hbody. cbn [try_except].
    repeat split; try discriminate; try reflexivity;
      intros; exfalso; first [congruence | lia]. }
  apply Z.ltb_ge in El.
  destruct (le_value (slice buffer (4 + payload_len) (6 + payload_len))
            =? Arduino.calculated_crc buffer payload_len) eqn:Ecrc;
    cbn [negb] in Hbody.
  2:{ apply Z.eqb_neq in Ecrc. rewrite Hbody. cbn [try_except].
      repeat split; try discriminate; try reflexivity;
        intros; exfalso; first [congruence | lia]. }
  apply Z.eqb_eq in Ecrc.
  split; [intros Hm; exfalso; apply Hm; exact H0|].
  split; [intros _ Hc; exfalso; apply Hc; exact H1|].
  split; [intros _ _ Hlt; lia|].
  split; [intros _ _ _ Hcrc; exfalso; apply Hcrc; exact Ecrc|].
  intros s Hs. rewrite Hbody in Hs.
  assert (Hdec : Arduino.decode_payload (slice buffer 4 (4 + payload_len))
                 = Return (inr s)).
  { destruct (Arduino.decode_payload (slice buffer 4 (4 + payload_len)));
      cbn [try_except] in Hs; [exact Hs|discriminate]. }
  pose proof (le_value_range (slice buffer 2 4)) as Hr. fold payload_len in Hr.
  repeat (split; [assumption|]).
  (* the same tests on the buffer cut after the frame *)
  assert (H6' : 6 <= len (slice_to buffer (6 + payload_len)))
    by (rewrite len_slice_to; lia).
  assert (Hpl : le_value (slice (slice_to buffer (6 + payload_len)) 2 4)
                = payload_len)
    by (rewrite slice_slice_to by lia; reflexivity).
  rewrite (parse_body_cascade _ MARKER GET_SPECTRUM_FLOAT H6')
    by (rewrite lookup_slice_to by lia; assumption).
  cbn [byte_eqb negb]. cbn zeta. rewrite Hpl.
  rewrite len_slice_to by lia.
  rewrite (proj2 (Z.ltb_ge _ _) (Z.le_refl _)).
  rewrite !slice_slice_to by lia.
  unfold Arduino.calculated_crc in *.
  rewrite slice_to_slice_to by lia.
  unfold byte_eqb. change (Byte.eqb MARKER MARKER) with true.
  change (Byte.eqb GET_SPECTRUM_FLOAT GET_SPECTRUM_FLOAT) with true.
  cbn [negb]. rewrite (proj2 (Z.eqb_eq _ _) Ecrc). cbn [negb].
  rewrite Hdec. reflexivity.
Qed.

Lemma parse_response_checks_witness :
  6 <= len [xbb; xc2; x08; x00; x00; x00; x80; x3f; x00; x24; xf4; x49;
            xa5; x42] /\
  Arduino.parse_response
    (slice_to [xbb; xc2; x08; x00; x00; x00; x80; x3f; x00; x24; xf4; x49;
               xa5; x42] (6 + 8))
  = Return (inr ([1%float], [2%float])).
Proof.
  split; [vm_compute; discriminate|].
  apply (parse_response_checks
           [xbb; xc2; x08; x00; x00; x00; x80; x3f; x00; x24; xf4; x49;
            xa5; x42]); [vm_compute; discriminate|reflexivity].
Defined.

(** C3 fails on the transport based [parse_response] of [ex2_Test.py]: a
    frame whose first byte is not 0xBB, or whose second byte is not 0xC2,
    must be invalid, but this parser reads the header without looking at
    either.  Six zero bytes are a frame with an empty payload for it; the
    buffer based parser rejects them for their start byte. *)
Example ex2_parse_response_ignores_marker :
  fst (Ex2.parse_response
         (Ex2.mk_serial [x00; x00; x00; x00; x00; x00] [] false))
    = Return (Some ([], [])) /\
  Arduino.parse_response [x00; x00; x00; x00; x00; x00]
    = Return (inl Arduino.InvalidStartByte).
Proof. split; reflexivity. Qed.

(** C4 fails on the transport based [parse_response] of [ex2_Test.py]: a
    payload with an odd number of floats must fail to decode and yield no
    samples, but this parser does not test the parity.  A checksum-valid
    frame of three floats gives one amplitude and two frequencies; the
    buffer based parser fails on it with "Incorrect number of floats". *)
Example ex2_parse_response_odd_count :
  fst (Ex2.parse_response
         (Ex2.mk_serial [xbb; xc2; x0c; x00; x00; x00; x80; x3f;
                         x00; x24; xf4; x49; x00; x24; xf4; x49; x0a; xab]
                        [] false))
    = Return (Some ([1%float], [2%float; 2%float])) /\
  Arduino.parse_response [xbb; xc2; x0c; x00; x00; x00; x80; x3f;
                          x00; x24; xf4; x49; x00; x24; xf4; x49; x0a; xab]
    = Return (inl Arduino.IncorrectFloatCount).
Proof. split; reflexivity. Qed.

(** ** Stream reassembly *)

Lemma find_marker_head (rest : list byte) :
  Arduino.find_marker (MARKER :: rest) = Some O.
Proof. reflexivity. Qed.

Lemma find_marker_Some (buffer : list byte) (i : nat) :
  Arduino.find_marker buffer = Some i ->
  buffer !! i = Some MARKER /\ Arduino.find_marker (take i buffer) = None.
Proof.
  revert i. induction buffer as [|b rest IH]; intros i; cbn [Arduino.find_marker].
  - discriminate.
  - destruct (byte_eqb b MARKER) eqn:E.
    + intros [= <-]. apply byte_eqb_eq in E. subst b. split; reflexivity.
    + destruct (Arduino.find_marker rest) as [j|]; [|discriminate].
      intros [= <-]. destruct (IH j eq_refl) as [Hj Hpre].
      split; [exact Hj|]. cbn [take Arduino.find_marker]. now rewrite E, Hpre.
Qed.

Lemma find_marker_lt (buffer : list byte) (i : nat) :
  Arduino.find_marker buffer = Some i -> (i < length buffer)%nat.
Proof.
  intros H. apply find_marker_Some in H as [H _].
  now apply lookup_lt_Some in H.
Qed.

Lemma find_marker_app (noise rest : list byte) :
  Arduino.find_marker noise = None ->
  Arduino.find_marker (noise ++ MARKER :: rest) = Some (length noise).
Proof.
  induction noise as [|b noise IH]; cbn [Arduino.find_marker app length].
  - reflexivity.
  - destruct (byte_eqb b MARKER); [discriminate|].
    destruct (Arduino.find_marker noise); [discriminate|].
    intros _. now rewrite IH.
Qed.

Lemma find_marker_None_app (l1 l2 : list byte) :
  Arduino.find_marker l1 = None -> Arduino.find_marker l2 = None ->
  Arduino.find_marker (l1 ++ l2) = None.
Proof.
  induction l1 as [|b l1 IH]; cbn [Arduino.find_marker app]; [auto|].
  destruct (byte_eqb b MARKER); [discriminate|].
  destruct (Arduino.find_marker l1); [discriminate|].
  intros _ H2. now rewrite IH.
Qed.

(** What the buffer looks like when the loop stops to wait for data:
    either no marker at all, or a marker in front of an incomplete
    candidate (fewer than 4 bytes, or fewer than the [6 + payload_len]
    its length field announces). *)
Lemma scan_once_Break (buffer rest : list byte) :
  Arduino.scan_once buffer = Arduino.Break rest ->
  (Arduino.find_marker buffer = None /\ rest = buffer) \/
  (rest !! 0%nat = Some MARKER /\
   (len rest < 4 \/ len rest < 6 + le_value (slice rest 2 4))).
Proof.
  unfold Arduino.scan_once.
  destruct (Arduino.find_marker buffer) as [i|] eqn:Hf.
  - apply find_marker_Some in Hf as [Hi _].
    assert (Hhead : drop i buffer !! 0%nat = Some MARKER)
      by (rewrite lookup_drop, Nat.add_0_r; exact Hi).
    destruct (len (drop i buffer) <? 4) eqn:H4.
    + intros [= <-]. apply Z.ltb_lt in H4. right. auto.
    + apply Z.ltb_ge in H4.
      rewrite unpack_H_two by (rewrite length_slice; lia).
      destruct (len (drop i buffer) <? _) eqn:Hl; [|discriminate].
      intros [= <-]. apply Z.ltb_lt in Hl. right. auto.
  - intros [= <-]. left. auto.
Qed.

Lemma scan_once_not_Raised (buffer rest : list byte) (e : exn) :
  Arduino.scan_once buffer <> Arduino.Raised e rest.
Proof.
  unfold Arduino.scan_once.
  destruct (Arduino.find_marker buffer) as [i|]; [|discriminate].
  destruct (len (drop i buffer) <? 4) eqn:H4; [discriminate|].
  apply Z.ltb_ge in H4.
  rewrite unpack_H_two by (rewrite length_slice; lia).
  destruct (len (drop i buffer) <? _); discriminate.
Qed.

(** A pass that hands a packet to the parser takes the whole candidate,
    at least 6 bytes, off the buffer. *)
Lemma scan_once_Packet (buffer packet rest : list byte) :
  Arduino.scan_once buffer = Arduino.Packet packet rest ->
  exists i : nat,
    Arduino.find_marker buffer = Some i /\
    drop i buffer = packet ++ rest /\
    len packet = 6 + le_value (slice packet 2 4).
Proof.
  unfold Arduino.scan_once.
  destruct (Arduino.find_marker buffer) as [i|] eqn:Hf; [|discriminate].
  destruct (len (drop i buffer) <? 4) eqn:H4; [discriminate|].
  apply Z.ltb_ge in H4.
  rewrite unpack_H_two by (rewrite length_slice; lia).
  pose proof (le_value_range (slice (drop i buffer) 2 4)) as Hr.
  destruct (len (drop i buffer) <? _) eqn:Hl; [discriminate|].
  apply Z.ltb_ge in Hl. intros [= <- <-].
  exists i. split; [reflexivity|]. split.
  - unfold slice_to, slice_from. now rewrite take_drop.
  - rewrite slice_slice_to by lia. apply len_slice_to; lia.
Qed.

Lemma scan_once_shrinks (buffer packet rest : list byte) :
  Arduino.scan_once buffer = Arduino.Packet packet rest ->
  (length rest + 6 <= length buffer)%nat.
Proof.
  intros H. apply scan_once_Packet in H as (i & Hf & Hd & Hl).
  pose proof (le_value_range (slice packet 2 4)) as Hr.
  assert (length (drop i buffer) = length (packet ++ rest)) as Hlen
    by now rewrite Hd.
  rewrite length_drop, length_app in Hlen. unfold len in Hl. lia.
Qed.

(** The loop stops: every pass that goes on shortens the buffer. *)
Lemma scan_loop_terminates (fuel : nat) (buffer : list byte)
    (acc : list samples) :
  (length buffer < fuel)%nat ->
  exists r, Arduino.scan_loop fuel buffer acc = Some r.
Proof.
  revert buffer acc. induction fuel as [|fuel IH]; intros buffer acc Hlt;
    [lia|].
  cbn [Arduino.scan_loop].
  destruct (Arduino.scan_once buffer) as [rest|packet rest|e rest] eqn:Hs;
    [eauto| |eauto].
  apply scan_once_shrinks in Hs.
  destruct (Arduino.parse_response packet) as [[w|s]|e]; [| |eauto];
    apply IH; lia.
Qed.

Lemma scan_loop_more_fuel (fuel fuel' : nat) (buffer : list byte)
    (acc : list samples) (r : Arduino.scan_result) :
  Arduino.scan_loop fuel buffer acc = Some r -> (fuel <= fuel')%nat ->
  Arduino.scan_loop fuel' buffer acc = Some r.
Proof.
  revert fuel' buffer acc. induction fuel as [|fuel IH];
    intros fuel' buffer acc Hr Hle; [discriminate|].
  destruct fuel' as [|fuel']; [lia|].
  cbn [Arduino.scan_loop] in *.
  destruct (Arduino.scan_once buffer) as [rest|packet rest|e rest];
    [exact Hr| |exact Hr].
  destruct (Arduino.parse_response packet) as [[w|s]|e]; [| |exact Hr];
    apply IH; [exact Hr|lia|exact Hr|lia].
Qed.

(** [ingest] is the loop run to its end. *)
Lemma ingest_fuel (buffer data : list byte) :
  Arduino.scan_loop (S (length (buffer ++ data))) (buffer ++ data) [] =
  Some (Arduino.ingest buffer data).
Proof.
  unfold Arduino.ingest.
  destruct (scan_loop_terminates (S (length (buffer ++ data)))
              (buffer ++ data) [] ltac:(lia)) as [r Hr].
  cbn zeta. now rewrite Hr.
Qed.

Lemma ingest_eq (buffer data : list byte) (fuel : nat)
    (r : Arduino.scan_result) :
  Arduino.scan_loop fuel (buffer ++ data) [] = Some r ->
  Arduino.ingest buffer data = r.
Proof.
  intros Hr. pose proof (ingest_fuel buffer data) as Hi.
  destruct (Nat.le_ge_cases fuel (S (length (buffer ++ data)))) as [Hle|Hge].
  - rewrite (scan_loop_more_fuel _ _ _ _ _ Hr Hle) in Hi. congruence.
  - rewrite (scan_loop_more_fuel _ _ _ _ _ Hi Hge) in Hr. congruence.
Qed.

Lemma scan_loop_result (fuel : nat) (buffer : list byte) (acc : list samples)
    (r : Arduino.scan_result) :
  Arduino.scan_loop fuel buffer acc = Some r ->
  Arduino.raised r = None /\
  (Arduino.find_marker (Arduino.remaining r) = None \/
   (Arduino.remaining r !! 0%nat = Some MARKER /\
    (len (Arduino.remaining r) < 4 \/
     len (Arduino.remaining r)
       < 6 + le_value (slice (Arduino.remaining r) 2 4)))).
Proof.
  revert buffer acc. induction fuel as [|fuel IH]; intros buffer acc;
    [discriminate|].
  cbn [Arduino.scan_loop].
  destruct (Arduino.scan_once buffer) as [rest|packet rest|e rest] eqn:Hs.
  - intros [= <-]. cbn [Arduino.raised Arduino.remaining].
    split; [reflexivity|].
    apply scan_once_Break in Hs as [[Hf ->]|H]; auto.
  - destruct (parse_response_returns packet) as (pr & Hp). rewrite Hp.
    destruct pr; apply IH.
  - exfalso. exact (scan_once_not_Raised _ _ _ Hs).
Qed.

Lemma scan_loop_no_marker (fuel : nat) (buffer : list byte)
    (acc : list samples) :
  Arduino.find_marker buffer = None ->
  Arduino.scan_loop (S fuel) buffer acc =
  Some (Arduino.mk_scan_result acc buffer None).
Proof.
  intros Hf. cbn [Arduino.scan_loop]. unfold Arduino.scan_once.
  now rewrite Hf.
Qed.

(** C6, amended.  When the accumulated buffer holds no marker,
    [ingest] keeps all of it and emits nothing.  Between calls the buffer
    is either free of markers (noise, of any length), or starts with a
    marker and is an incomplete candidate: fewer than 4 bytes, or fewer
    than the [6 + payload_len] its length field announces, hence fewer
    than 65541 bytes. *)
Theorem ingest_leaves_noise_or_partial (buffer data : list byte) :
  (Arduino.find_marker (buffer ++ data) = None ->
   Arduino.remaining (Arduino.ingest buffer data) = buffer ++ data /\
   Arduino.emitted (Arduino.ingest buffer data) = []) /\
  (Arduino.find_marker (Arduino.remaining (Arduino.ingest buffer data)) = None
   \/
   (Arduino.remaining (Arduino.ingest buffer data) !! 0%nat = Some MARKER /\
    (len (Arduino.remaining (Arduino.ingest buffer data)) < 4 \/
     len (Arduino.remaining (Arduino.ingest buffer data))
       < 6 + le_value
               (slice (Arduino.remaining (Arduino.ingest buffer data)) 2 4)) /\
    len (Arduino.remaining (Arduino.ingest buffer data)) < 65541)).
Proof.
  split.
  - intros Hf.
    rewrite (ingest_eq buffer data 1 _ (scan_loop_no_marker O _ [] Hf)).
    split; reflexivity.
  - destruct (scan_loop_result _ _ _ _ (ingest_fuel buffer data))
      as [_ [Hn|[Hm Hl]]]; [left; exact Hn|right].
    split; [exact Hm|]. split; [exact Hl|].
    pose proof (le_value_range
                  (slice (Arduino.remaining (Arduino.ingest buffer data)) 2 4))
      as Hr.
    assert (length (slice (Arduino.remaining (Arduino.ingest buffer data)) 2 4)
            <= 2)%nat as Hlen2
      by (unfold slice; rewrite length_take; lia).
    assert (256 ^ Z.of_nat
              (length (slice (Arduino.remaining
                                (Arduino.ingest buffer data)) 2 4))
            <= 256 ^ 2) as Hpow by (apply Z.pow_le_mono_r; lia).
    change (256 ^ 2) with 65536 in Hpow. lia.
Qed.

Lemma ingest_leaves_noise_or_partial_witness :
  Arduino.find_marker ([x01; x02] ++ [x03]) = None /\
  Arduino.remaining (Arduino.ingest [x01; x02] [x03]) = [x01; x02] ++ [x03] /\
  Arduino.emitted (Arduino.ingest [x01; x02] [x03]) = [].
Proof.
  split; [reflexivity|].
  apply (ingest_leaves_noise_or_partial [x01; x02] [x03]). reflexivity.
Defined.

(** C6 as stated fails on one byte of noise: no marker is found, and the
    byte is still in the buffer after the call. *)
Example ingest_keeps_noise :
  Arduino.find_marker ([] ++ [x00]) = None /\
  Arduino.remaining (Arduino.ingest [] [x00]) = [x00] /\
  Arduino.remaining (Arduino.ingest [] [x00]) <> [].
Proof. repeat split; discriminate. Qed.

Lemma slice_app_head {A : Type} (l rest : list A) (lo hi : Z) :
  0 <= lo -> lo <= hi -> hi <= len l ->
  slice (l ++ rest) lo hi = slice l lo hi.
Proof.
  intros Hlo Hhi Hlen. unfold slice, len in *.
  rewrite drop_app_le by lia. rewrite take_app_le; [reflexivity|].
  rewrite length_drop. lia.
Qed.

(** A candidate whose length field announces its own length is taken off
    the buffer in one piece, whatever precedes the marker and whatever
    follows the candidate. *)
Lemma scan_once_frame (noise frame rest : list byte) :
  Arduino.find_marker noise = None ->
  frame !! 0%nat = Some MARKER ->
  len frame = 6 + le_value (slice frame 2 4) ->
  Arduino.scan_once (noise ++ frame ++ rest) = Arduino.Packet frame rest.
Proof.
  intros Hnoise Hhead Hlen.
  pose proof (le_value_range (slice frame 2 4)) as Hr.
  destruct frame as [|b frame']; [discriminate|].
  injection Hhead as ->.
  unfold Arduino.scan_once.
  rewrite <- app_comm_cons, (find_marker_app noise _ Hnoise).
  rewrite drop_app_length, app_comm_cons.
  set (frame := MARKER :: frame') in *.
  assert (Hl4 : (len (frame ++ rest) <? 4) = false).
  { apply Z.ltb_ge. unfold len in *. rewrite length_app. lia. }
  rewrite Hl4, slice_app_head by lia.
  rewrite unpack_H_two by (rewrite length_slice; lia).
  assert (Hl6 : (len (frame ++ rest) <? 6 + le_value (slice frame 2 4)) = false).
  { apply Z.ltb_ge. unfold len in *. rewrite length_app. lia. }
  rewrite Hl6, <- Hlen.
  now rewrite slice_to_app_exact, slice_from_app_exact.
Qed.

(** C1, amended.  A candidate that fails to decode (on its
    checksum as on any other test) is taken off the buffer whole: the
    [6 + payload_len] bytes its own length field announces, not the marker
    byte alone, and the search resumes after it.  So when the buffer is
    made of noise without a marker, a failing candidate of exactly the
    length it announces, and a valid frame right after it, [ingest] emits
    the samples of the valid frame only and leaves the buffer empty,
    however the bytes were split between the old buffer and the new
    data. *)
Theorem ingest_drops_failed_candidate
    (buffer data noise candidate frame : list byte)
    (w : Arduino.parse_failure) (s : samples) :
  buffer ++ data = noise ++ candidate ++ frame ->
  Arduino.find_marker noise = None ->
  candidate !! 0%nat = Some MARKER ->
  len candidate = 6 + le_value (slice candidate 2 4) ->
  Arduino.parse_response candidate = Return (inl w) ->
  len frame = 6 + le_value (slice frame 2 4) ->
  Arduino.parse_response frame = Return (inr s) ->
  Arduino.scan_once (buffer ++ data) = Arduino.Packet candidate frame /\
  Arduino.ingest buffer data = Arduino.mk_scan_result [s] [] None.
Proof.
  intros Hsplit Hnoise Hc0 Hclen Hcfail Hflen Hfok.
  pose proof (le_value_range (slice frame 2 4)) as Hr.
  assert (Hf0 : frame !! 0%nat = Some MARKER).
  { apply (parse_response_ok_marker frame s); [lia|exact Hfok]. }
  pose proof (scan_once_frame noise candidate frame Hnoise Hc0 Hclen) as H1.
  pose proof (scan_once_frame [] frame [] eq_refl Hf0 Hflen) as H2.
  rewrite app_nil_r in H2. cbn [app] in H2.
  split; [rewrite Hsplit; exact H1|].
  apply (ingest_eq buffer data 3). rewrite Hsplit.
  cbn [Arduino.scan_loop]. rewrite H1, Hcfail, H2, Hfok.
  reflexivity.
Qed.

Lemma ingest_drops_failed_candidate_witness :
  Arduino.scan_once
    ([xaa] ++ [x55; xbb; xc2; x00; x00; x00; x00;
               xbb; xc2; x00; x00; x7d; x32])
  = Arduino.Packet [xbb; xc2; x00; x00; x00; x00]
                   [xbb; xc2; x00; x00; x7d; x32] /\
  Arduino.ingest [xaa] [x55; xbb; xc2; x00; x00; x00; x00;
                        xbb; xc2; x00; x00; x7d; x32]
  = Arduino.mk_scan_result [([], [])] [] None.
Proof.
  apply (ingest_drops_failed_candidate
           [xaa] [x55; xbb; xc2; x00; x00; x00; x00;
                  xbb; xc2; x00; x00; x7d; x32]
           [xaa; x55] [xbb; xc2; x00; x00; x00; x00]
           [xbb; xc2; x00; x00; x7d; x32]
           Arduino.CRCMismatch ([], [])); reflexivity.
Defined.

(** C1 as stated (a search resumed one byte after the marker) fails on
    a frame whose length byte was hit (0 became 2), followed by a valid
    frame: the candidate of 8 bytes fails its checksum and is dropped
    whole, which takes the first two bytes of the valid frame with it;
    nothing is emitted.  A search resumed one byte after the marker finds
    the valid frame. *)
Example whole_candidate_is_dropped :
  Arduino.parse_response [xbb; xc2; x00; x00; x7d; x32]
    = Return (inr ([], [])) /\
  Arduino.scan_once ([xbb; xc2; x02; x00; x7d; x32]
                       ++ [xbb; xc2; x00; x00; x7d; x32])
    = Arduino.Packet [xbb; xc2; x02; x00; x7d; x32; xbb; xc2]
                     [x00; x00; x7d; x32] /\
  Arduino.parse_response [xbb; xc2; x02; x00; x7d; x32; xbb; xc2]
    = Return (inl Arduino.CRCMismatch) /\
  Arduino.ingest [] ([xbb; xc2; x02; x00; x7d; x32]
                       ++ [xbb; xc2; x00; x00; x7d; x32])
    = Arduino.mk_scan_result [] [x00; x00; x7d; x32] None /\
  Arduino.ingest [] (drop 1 ([xbb; xc2; x02; x00; x7d; x32]
                               ++ [xbb; xc2; x00; x00; x7d; x32]))
    = Arduino.mk_scan_result [([], [])] [] None.
Proof. repeat split. Qed.

(** ** Hysteresis and stability gating *)

Lemma detect_High (v : float) (s : Ex2.range_state) :
  Ex2.kind_of v s = Ex2.High ->
  Ex2.detect v s =
  (Ex2.mk_range_state
     (Some (Ex2.ema_next v (Ex2.ema_value s)))
     (S (Ex2.stability_count s))
     (Ex2.alert_active s || (3 <=? S (Ex2.stability_count s))%nat),
   (3 <=? S (Ex2.stability_count s))%nat && negb (Ex2.alert_active s)).
Proof.
  unfold Ex2.kind_of, Ex2.at_or_below_low, Ex2.exceeds_high,
    Ex2.threshold_low, Ex2.threshold_high, Ex2.detect.
  destruct (_ <? v)%float; [|destruct (_ && _); discriminate].
  intros _. unfold Ex2.stability_duration.
  destruct (3 <=? S (Ex2.stability_count s))%nat, (Ex2.alert_active s);
    reflexivity.
Qed.

Lemma detect_Low (v : float) (s : Ex2.range_state) :
  Ex2.kind_of v s = Ex2.Low ->
  Ex2.detect v s =
  (Ex2.mk_range_state (Some (Ex2.ema_next v (Ex2.ema_value s))) O false,
   false).
Proof.
  unfold Ex2.kind_of, Ex2.at_or_below_low, Ex2.exceeds_high,
    Ex2.threshold_low, Ex2.threshold_high, Ex2.detect.
  destruct (_ <? v)%float; [discriminate|]. cbn [negb andb].
  destruct (v <=? _)%float; [reflexivity|discriminate].
Qed.

Lemma detect_Between (v : float) (s : Ex2.range_state) :
  Ex2.kind_of v s = Ex2.Between ->
  Ex2.detect v s =
  (Ex2.mk_range_state (Some (Ex2.ema_next v (Ex2.ema_value s)))
     (Ex2.stability_count s) (Ex2.alert_active s),
   false).
Proof.
  unfold Ex2.kind_of, Ex2.at_or_below_low, Ex2.exceeds_high,
    Ex2.threshold_low, Ex2.threshold_high, Ex2.detect.
  destruct (_ <? v)%float; [discriminate|]. cbn [negb andb].
  destruct (v <=? _)%float; [discriminate|reflexivity].
Qed.

Lemma detect_run_cons (c : Ex2.cycle) (cs : list Ex2.cycle)
    (s : Ex2.range_state) :
  Ex2.detect_run (c :: cs) s =
  (fst (Ex2.detect_run cs (fst (Ex2.cycle_step c s))),
   snd (Ex2.cycle_step c s)
     :: snd (Ex2.detect_run cs (fst (Ex2.cycle_step c s)))).
Proof.
  cbn [Ex2.detect_run]. destruct (Ex2.cycle_step c s) as [s1 fired].
  cbn [fst snd]. destruct (Ex2.detect_run cs s1). reflexivity.
Qed.

Lemma detect_run_app (cs1 cs2 : list Ex2.cycle) (s : Ex2.range_state) :
  Ex2.detect_run (cs1 ++ cs2) s =
  (fst (Ex2.detect_run cs2 (fst (Ex2.detect_run cs1 s))),
   snd (Ex2.detect_run cs1 s)
     ++ snd (Ex2.detect_run cs2 (fst (Ex2.detect_run cs1 s)))).
Proof.
  revert s. induction cs1 as [|c cs1 IH]; intros s.
  - cbn [app Ex2.detect_run fst snd]. now destruct (Ex2.detect_run cs2 s).
  - rewrite <- app_comm_cons, !detect_run_cons, IH. reflexivity.
Qed.

Lemma count_if_app {A : Type} (p : A -> bool) (l1 l2 : list A) :
  Ex2.count_if p (l1 ++ l2) = (Ex2.count_if p l1 + Ex2.count_if p l2)%nat.
Proof.
  induction l1 as [|x l1 IH]; cbn [app Ex2.count_if]; [reflexivity|].
  destruct (p x); lia.
Qed.

Lemma count_all_high (ks : list Ex2.cycle_kind) :
  Forall (fun k => k = Ex2.High) ks ->
  Ex2.count_if Ex2.is_high ks = length ks /\
  Ex2.count_if Ex2.is_low ks = O.
Proof.
  induction 1 as [|k ks -> _ [IHh IHl]]; [split; reflexivity|].
  cbn [Ex2.count_if Ex2.is_high Ex2.is_low length]. now rewrite IHh, IHl.
Qed.

Ltac bool_cases :=
  repeat match goal with
         | |- context [(?a <=? ?b)%nat] => destruct (Nat.leb_spec a b)
         | |- context [(?a <? ?b)%nat] => destruct (Nat.ltb_spec a b)
         end.

(** Fewer than three qualifying cycles since the counter was last zero:
    no alert. *)
Lemma no_alert_below_duration (cs : list Ex2.cycle) (s : Ex2.range_state) :
  (Ex2.stability_count s + Ex2.count_if Ex2.is_high (Ex2.kinds cs s) < 3)%nat ->
  Ex2.count_if id (snd (Ex2.detect_run cs s)) = O.
Proof.
  revert s. induction cs as [|[v|v] cs IH]; intros s Hlt; [reflexivity| |].
  - rewrite detect_run_cons.
    cbn [snd fst Ex2.cycle_step Ex2.count_if Ex2.kinds id] in *.
    apply IH. exact Hlt.
  - rewrite detect_run_cons.
    cbn [snd fst Ex2.cycle_step Ex2.count_if Ex2.kinds] in *.
    destruct (Ex2.kind_of v s) eqn:Hk; cbn [Ex2.is_high] in Hlt.
    + rewrite (detect_High v s Hk) in *. cbn [fst snd id] in *.
      assert (E : (3 <=? S (Ex2.stability_count s))%nat = false)
        by (apply Nat.leb_gt; lia).
      rewrite E in *. cbn [andb]. apply IH. cbn [Ex2.stability_count]. lia.
    + rewrite (detect_Low v s Hk) in *. cbn [fst snd id] in *.
      apply IH. cbn [Ex2.stability_count]. lia.
    + rewrite (detect_Between v s Hk) in *. cbn [fst snd id] in *.
      apply IH. cbn [Ex2.stability_count]. lia.
Qed.

(** A run without a cycle at or below the low threshold: neither the
    display updates nor the cycles between the two thresholds change the
    counter or the flag. *)
Lemma run_without_reset (cs : list Ex2.cycle) (s : Ex2.range_state) :
  Ex2.count_if Ex2.is_low (Ex2.kinds cs s) = O ->
  Ex2.stability_count (fst (Ex2.detect_run cs s))
    = (Ex2.stability_count s
       + Ex2.count_if Ex2.is_high (Ex2.kinds cs s))%nat /\
  Ex2.alert_active (fst (Ex2.detect_run cs s))
    = (Ex2.alert_active s
       || ((0 <? Ex2.count_if Ex2.is_high (Ex2.kinds cs s))
           && (3 <=? Ex2.stability_count s
                     + Ex2.count_if Ex2.is_high (Ex2.kinds cs s)))%nat) /\
  Ex2.count_if id (snd (Ex2.detect_run cs s))
    = (if Ex2.alert_active s then O
       else if ((0 <? Ex2.count_if Ex2.is_high (Ex2.kinds cs s))
                && (3 <=? Ex2.stability_count s
                          + Ex2.count_if Ex2.is_high (Ex2.kinds cs s)))%nat
            then 1%nat else O).
Proof.
  revert s. induction cs as [|[v|v] cs IH]; intros s Hlow.
  - cbn [Ex2.detect_run Ex2.kinds fst snd Ex2.count_if Nat.ltb Nat.leb andb].
    rewrite Nat.add_0_r, orb_false_r. destruct (Ex2.alert_active s); auto.
  - rewrite detect_run_cons.
    cbn [fst snd Ex2.cycle_step Ex2.count_if Ex2.kinds id] in *.
    exact (IH _ Hlow).
  - rewrite detect_run_cons.
    cbn [fst snd Ex2.cycle_step Ex2.count_if Ex2.kinds] in *.
    destruct (Ex2.kind_of v s) eqn:Hk; cbn [Ex2.is_low Ex2.is_high] in *;
      [| discriminate |].
    + specialize (IH _ Hlow). rewrite (detect_High v s Hk) in *.
      cbn [fst snd Ex2.stability_count Ex2.alert_active id] in *.
      destruct IH as (Hc & Ha & Hn). rewrite Hc, Ha, Hn.
      set (n := Ex2.count_if Ex2.is_high _). clearbody n.
      set (c := Ex2.stability_count s). clearbody c.
      split; [lia|].
      destruct (Ex2.alert_active s); bool_cases;
        cbn [orb andb negb]; try lia; auto.
    + specialize (IH _ Hlow). rewrite (detect_Between v s Hk) in *.
      cbn [fst snd Ex2.stability_count Ex2.alert_active id] in *.
      exact IH.
Qed.

(** While the range is in alert and no cycle is at or below the low
    threshold, no alert is shown and the range stays in alert. *)
Lemma no_alert_while_active (cs : list Ex2.cycle) (s : Ex2.range_state) :
  Ex2.alert_active s = true ->
  Ex2.count_if Ex2.is_low (Ex2.kinds cs s) = O ->
  Ex2.alert_active (fst (Ex2.detect_run cs s)) = true /\
  Ex2.count_if id (snd (Ex2.detect_run cs s)) = O.
Proof.
  intros Ha Hlow.
  destruct (run_without_reset cs s Hlow) as (_ & Hact & Hcount).
  rewrite Ha in Hact, Hcount. auto.
Qed.

(** C2, amended.  For every range state and every run of [update_spectrum]
    as the range sees it (polling cycles, and for the first range the EMA
    updates of the display part between them):
    - if the cycles in which the working amplitude exceeds [thresholdHigh],
      together with those already counted since the last reset, are fewer
      than three, no alert is shown; they need not be consecutive, a cycle
      between the two thresholds does not restart the count;
    - if the range is not in alert and the amplitude exceeds
      [thresholdHigh] in three or more cycles in a row, exactly one alert
      is shown and the range is in alert; whatever follows, no further alert
      is shown as long as no cycle is at or below [thresholdLow];
    - a cycle at or below [thresholdLow] shows no alert, takes the range
      out of alert and sets the counter to zero. *)
Theorem hysteresis_gating :
  (forall (cs : list Ex2.cycle) (s : Ex2.range_state),
     (Ex2.stability_count s
      + Ex2.count_if Ex2.is_high (Ex2.kinds cs s) < 3)%nat ->
     Ex2.count_if id (snd (Ex2.detect_run cs s)) = O) /\
  (forall (cs1 cs2 : list Ex2.cycle) (s : Ex2.range_state),
     Ex2.alert_active s = false ->
     (3 <= length (Ex2.kinds cs1 s))%nat ->
     Forall (fun k => k = Ex2.High) (Ex2.kinds cs1 s) ->
     Ex2.count_if Ex2.is_low (Ex2.kinds cs2 (fst (Ex2.detect_run cs1 s))) = O ->
     Ex2.count_if id (snd (Ex2.detect_run cs1 s)) = 1%nat /\
     Ex2.alert_active (fst (Ex2.detect_run cs1 s)) = true /\
     Ex2.count_if id (snd (Ex2.detect_run (cs1 ++ cs2) s)) = 1%nat /\
     Ex2.alert_active (fst (Ex2.detect_run (cs1 ++ cs2) s)) = true) /\
  (forall (v : float) (s : Ex2.range_state),
     Ex2.kind_of v s = Ex2.Low ->
     snd (Ex2.detect v s) = false /\
     Ex2.alert_active (fst (Ex2.detect v s)) = false /\
     Ex2.stability_count (fst (Ex2.detect v s)) = O).
Proof.
  split; [exact no_alert_below_duration|]. split.
  - intros cs1 cs2 s Ha Hlen Hall Hlow.
    destruct (count_all_high _ Hall) as [Hhigh Hnolow].
    destruct (run_without_reset cs1 s Hnolow) as (_ & Hact & Hcount).
    rewrite Ha, Hhigh in Hact, Hcount. cbn [orb] in Hact.
    assert (E : ((0 <? length (Ex2.kinds cs1 s))
                 && (3 <=? Ex2.stability_count s
                           + length (Ex2.kinds cs1 s)))%nat = true).
    { apply andb_true_intro. split; [apply Nat.ltb_lt|apply Nat.leb_le]; lia. }
    rewrite E in Hact, Hcount.
    destruct (no_alert_while_active cs2 _ Hact Hlow) as [Hact2 Hcount2].
    rewrite detect_run_app. cbn [fst snd].
    rewrite count_if_app, Hcount, Hcount2. auto.
  - intros v s Hk. rewrite (detect_Low v s Hk). auto.
Qed.

Lemma hysteresis_gating_witness :
  Ex2.alert_active (Ex2.mk_range_state (Some (-100)%float) O false) = false /\
  (3 <= length
          (Ex2.kinds
             [Ex2.Shown (-100)%float; Ex2.Polled (-90)%float;
              Ex2.Shown (-100)%float; Ex2.Polled (-90)%float;
              Ex2.Shown (-100)%float; Ex2.Polled (-90)%float]
             (Ex2.mk_range_state (Some (-100)%float) O false)))%nat /\
  Forall (fun k => k = Ex2.High)
    (Ex2.kinds
       [Ex2.Shown (-100)%float; Ex2.Polled (-90)%float;
        Ex2.Shown (-100)%float; Ex2.Polled (-90)%float;
        Ex2.Shown (-100)%float; Ex2.Polled (-90)%float]
       (Ex2.mk_range_state (Some (-100)%float) O false)) /\
  Ex2.count_if id
    (snd (Ex2.detect_run
            ([Ex2.Shown (-100)%float; Ex2.Polled (-90)%float;
              Ex2.Shown (-100)%float; Ex2.Polled (-90)%float;
              Ex2.Shown (-100)%float; Ex2.Polled (-90)%float]
             ++ [Ex2.Shown (-100)%float; Ex2.Polled (-95)%float])
            (Ex2.mk_range_state (Some (-100)%float) O false))) = 1%nat.
Proof.
  assert (Hall : Forall (fun k => k = Ex2.High)
            (Ex2.kinds
               [Ex2.Shown (-100)%float; Ex2.Polled (-90)%float;
                Ex2.Shown (-100)%float; Ex2.Polled (-90)%float;
                Ex2.Shown (-100)%float; Ex2.Polled (-90)%float]
               (Ex2.mk_range_state (Some (-100)%float) O false)))
    by (repeat constructor).
  split; [reflexivity|]. split; [vm_compute; lia|]. split; [exact Hall|].
  destruct hysteresis_gating as (_ & Hrun & _).
  apply (Hrun [Ex2.Shown (-100)%float; Ex2.Polled (-90)%float;
               Ex2.Shown (-100)%float; Ex2.Polled (-90)%float;
               Ex2.Shown (-100)%float; Ex2.Polled (-90)%float]
              [Ex2.Shown (-100)%float; Ex2.Polled (-95)%float]
              (Ex2.mk_range_state (Some (-100)%float) O false));
    [reflexivity|vm_compute; lia|exact Hall|reflexivity].
Defined.

(** C2 as stated fails: the counter is not reset by a cycle that falls
    between the two thresholds.  Two qualifying cycles, one cycle between
    the thresholds and a third qualifying cycle show the alert, although
    the amplitude never exceeded [thresholdHigh] in three cycles in a row:
    every crossing lasted fewer than three cycles.  The first run is that
    of a range the display part does not touch; the second is that of the
    first range, with the same working amplitudes and a display amplitude
    of -100 before each cycle.  (The first cycle of a range only sets the
    EMA.) *)
Example alert_after_interrupted_crossing :
  Ex2.kinds [Ex2.Polled (-100)%float; Ex2.Polled (-90)%float;
             Ex2.Polled (-90)%float; Ex2.Polled (-97.5)%float;
             Ex2.Polled (-90)%float]
            (Ex2.mk_range_state None O false)
    = [Ex2.Low; Ex2.High; Ex2.High; Ex2.Between; Ex2.High] /\
  snd (Ex2.detect_run [Ex2.Polled (-100)%float; Ex2.Polled (-90)%float;
                       Ex2.Polled (-90)%float; Ex2.Polled (-97.5)%float;
                       Ex2.Polled (-90)%float]
                      (Ex2.mk_range_state None O false))
    = [false; false; false; false; true] /\
  Ex2.kinds [Ex2.Shown (-100)%float; Ex2.Polled (-100)%float;
             Ex2.Shown (-100)%float; Ex2.Polled (-90)%float;
             Ex2.Shown (-100)%float; Ex2.Polled (-90)%float;
             Ex2.Shown (-100)%float; Ex2.Polled (-97.5)%float;
             Ex2.Shown (-100)%float; Ex2.Polled (-90)%float]
            (Ex2.mk_range_state None O false)
    = [Ex2.Low; Ex2.High; Ex2.High; Ex2.Between; Ex2.High] /\
  snd (Ex2.detect_run
         [Ex2.Shown (-100)%float; Ex2.Polled (-100)%float;
          Ex2.Shown (-100)%float; Ex2.Polled (-90)%float;
          Ex2.Shown (-100)%float; Ex2.Polled (-90)%float;
          Ex2.Shown (-100)%float; Ex2.Polled (-97.5)%float;
          Ex2.Shown (-100)%float; Ex2.Polled (-90)%float]
         (Ex2.mk_range_state None O false))
    = [false; false; false; false; false; false; false; false; false; true].
Proof. repeat split. Qed.

(** Reads the entries of range [i] off an updated application state. *)
Ltac entries :=
  unfold Ex2.add_log, Ex2.set_flag, Ex2.set_counter, Ex2.set_range,
    Ex2.set_conn;
  cbn [Ex2.scan_ranges Ex2.ema_values Ex2.stability_counter Ex2.alert_flags
       Ex2.serial_conn Ex2.log fst snd
       Ex2.ema_value Ex2.stability_count Ex2.alert_active];
  rewrite ?list_lookup_insert_eq by assumption;
  repeat split; auto.

(** On the parallel lists, a cycle for range [i] is [detect] on the three
    entries of that range. *)
Lemma detect_at_entries (i : nat) (start stop : Z) (v : float) (a : Ex2.app)
    (ema : option float) (c : nat) (flag : bool) :
  Ex2.ema_values a !! i = Some ema ->
  Ex2.stability_counter a !! i = Some c ->
  Ex2.alert_flags a !! i = Some flag ->
  exists a' : Ex2.app,
    Ex2.detect_at i start stop v a
      = (Return (snd (Ex2.detect v (Ex2.mk_range_state ema c flag))), a') /\
    Ex2.scan_ranges a' = Ex2.scan_ranges a /\
    Ex2.ema_values a' !! i
      = Some (Ex2.ema_value
                (fst (Ex2.detect v (Ex2.mk_range_state ema c flag)))) /\
    Ex2.stability_counter a' !! i
      = Some (Ex2.stability_count
                (fst (Ex2.detect v (Ex2.mk_range_state ema c flag)))) /\
    Ex2.alert_flags a' !! i
      = Some (Ex2.alert_active
                (fst (Ex2.detect v (Ex2.mk_range_state ema c flag)))).
Proof.
  intros He Hc Hf.
  pose proof (lookup_lt_Some _ _ _ He) as Hle.
  pose proof (lookup_lt_Some _ _ _ Hc) as Hlc.
  pose proof (lookup_lt_Some _ _ _ Hf) as Hlf.
  unfold Ex2.detect_at, Ex2.update_ema, Ex2.detect. rewrite He.
  cbn [Ex2.ema_value Ex2.stability_count Ex2.alert_active
       Ex2.stability_counter Ex2.alert_flags].
  destruct (_ <? v)%float; [|destruct (v <=? _)%float].
  - rewrite Hc. unfold Ex2.set_counter at 1. cbn [Ex2.alert_flags].
    rewrite Hf.
    destruct ((Ex2.stability_duration <=? S c)%nat && negb flag);
      eexists; (split; [reflexivity|]); entries.
  - rewrite Hf. unfold Ex2.set_flag at 1. cbn [Ex2.stability_counter].
    rewrite Hc. eexists; (split; [reflexivity|]); entries.
  - eexists; (split; [reflexivity|]); entries.
Qed.

(** ** Range registry *)

Lemma init_lockstep (conn : option Ex2.serial_port) :
  Ex2.lockstep (Ex2.init conn).
Proof. repeat split. Qed.

Lemma py_del_length {A : Type} (index : nat) (l l' : list A) :
  Ex2.py_del index l = Return l' -> S (length l') = length l.
Proof.
  unfold Ex2.py_del. destruct (index <? length l)%nat eqn:E; [|discriminate].
  apply Nat.ltb_lt in E. intros [= <-].
  rewrite length_delete by (apply lookup_lt_is_Some; exact E). lia.
Qed.

Lemma py_del_in_range {A : Type} (index : nat) (l : list A) :
  (index < length l)%nat -> Ex2.py_del index l = Return (delete index l).
Proof.
  intros H. unfold Ex2.py_del. apply Nat.ltb_lt in H. now rewrite H.
Qed.

(** C10.  If the four parallel lists have the same length, they still do
    after [add_range], [edit_range] and [delete_range], whatever the
    answers of the dialogs and the selection, and also when the operation
    ends with an exception. *)
Theorem registry_keeps_lockstep (a : Ex2.app) :
  Ex2.lockstep a ->
  (forall start_freq stop_freq threshold : option float,
     Ex2.lockstep (snd (Ex2.add_range start_freq stop_freq threshold a))) /\
  (forall (selected : list nat) (start_freq stop_freq threshold : option float),
     Ex2.lockstep
       (snd (Ex2.edit_range selected start_freq stop_freq threshold a))) /\
  (forall selected : list nat,
     Ex2.lockstep (snd (Ex2.delete_range selected a))).
Proof.
  intros (Hf & He & Hc). split; [|split].
  - intros [sf|] [ef|] [th|]; cbn [Ex2.add_range snd]; try (repeat split; assumption).
    destruct (Ex2.hz_of_mhz sf); [|repeat split; assumption].
    destruct (Ex2.hz_of_mhz ef); [|repeat split; assumption].
    unfold Ex2.lockstep. cbn [snd Ex2.scan_ranges Ex2.alert_flags
                              Ex2.ema_values Ex2.stability_counter].
    rewrite !length_app. cbn [length]. lia.
  - intros [|index sel] sf ef th; cbn [Ex2.edit_range snd];
      [repeat split; assumption|].
    destruct (Ex2.scan_ranges a !! index); [|repeat split; assumption].
    destruct sf as [sf|], ef as [ef|], th as [th|];
      try (repeat split; assumption).
    destruct (Ex2.hz_of_mhz sf); [|repeat split; assumption].
    destruct (Ex2.hz_of_mhz ef); [|repeat split; assumption].
    unfold Ex2.lockstep. cbn [snd Ex2.scan_ranges Ex2.alert_flags
                              Ex2.ema_values Ex2.stability_counter].
    rewrite length_insert. lia.
  - intros [|index sel]; cbn [Ex2.delete_range snd];
      [repeat split; assumption|].
    destruct (Ex2.scan_ranges a !! index) eqn:Hi; [|repeat split; assumption].
    apply lookup_lt_Some in Hi.
    rewrite (py_del_in_range index (Ex2.scan_ranges a)) by exact Hi.
    cbn [Ex2.alert_flags Ex2.ema_values Ex2.stability_counter
         Ex2.scan_ranges].
    rewrite (py_del_in_range index (Ex2.alert_flags a)) by lia.
    cbn [Ex2.alert_flags Ex2.ema_values Ex2.stability_counter
         Ex2.scan_ranges].
    rewrite (py_del_in_range index (Ex2.ema_values a)) by lia.
    cbn [Ex2.alert_flags Ex2.ema_values Ex2.stability_counter
         Ex2.scan_ranges].
    rewrite (py_del_in_range index (Ex2.stability_counter a)) by lia.
    unfold Ex2.lockstep. cbn [snd Ex2.scan_ranges Ex2.alert_flags
                              Ex2.ema_values Ex2.stability_counter].
    rewrite !length_delete by (apply lookup_lt_is_Some; lia). lia.
Qed.

Lemma registry_keeps_lockstep_witness :
  Ex2.lockstep (Ex2.init None) /\
  Ex2.lockstep
    (snd (Ex2.add_range (Some 433%float) (Some 434.5%float)
                        (Some (-90)%float) (Ex2.init None))) /\
  Ex2.lockstep
    (snd (Ex2.edit_range [O] (Some 433%float) (Some 434.5%float)
                         (Some (-90)%float) (Ex2.init None))) /\
  Ex2.lockstep (snd (Ex2.delete_range [O] (Ex2.init None))).
Proof.
  split; [apply init_lockstep|].
  destruct (registry_keeps_lockstep (Ex2.init None) (init_lockstep None))
    as (Hadd & Hedit & Hdel).
  split; [apply Hadd|]. split; [apply Hedit|apply Hdel].
Defined.

(** The three operations on the start-up registry. *)
Example registry_operations :
  Ex2.scan_ranges
    (snd (Ex2.add_range (Some 433%float) (Some 434.5%float)
                        (Some (-90)%float) (Ex2.init None)))
    = [(400000000, 500000000, None);
       (433000000, 434500000, Some (-90)%float)] /\
  Ex2.stability_counter
    (snd (Ex2.add_range (Some 433%float) (Some 434.5%float)
                        (Some (-90)%float) (Ex2.init None)))
    = [O; O] /\
  Ex2.delete_range [O] (Ex2.init None)
    = (Return tt, Ex2.mk_app [] [] [] [] None [Ex2.LogRangeDeleted]) /\
  fst (Ex2.delete_range [1%nat] (Ex2.init None)) = Raise IndexError.
Proof. repeat split. Qed.

(** ** The worker session *)

Lemma ingest_never_raises (buffer data : list byte) :
  Arduino.raised (Arduino.ingest buffer data) = None.
Proof.
  now destruct (scan_loop_result _ _ _ _ (ingest_fuel buffer data)).
Qed.








(** ** The periodic cycle keeps the shape of the state *)

Lemma update_ema_shape (v : float) (i : nat) (a a' : Ex2.app)
    (r : outcome float) :
  Ex2.update_ema v i a = (r, a') ->
  Ex2.scan_ranges a' = Ex2.scan_ranges a /\
  length (Ex2.alert_flags a') = length (Ex2.alert_flags a) /\
  length (Ex2.ema_values a') = length (Ex2.ema_values a) /\
  length (Ex2.stability_counter a') = length (Ex2.stability_counter a).
Proof.
  unfold Ex2.update_ema. destruct (Ex2.ema_values a !! i);
    intros [= _ <-];
    cbn [Ex2.scan_ranges Ex2.alert_flags Ex2.ema_values
         Ex2.stability_counter];
    rewrite ?length_insert; auto.
Qed.

Lemma detect_at_shape (i : nat) (start stop : Z) (v : float)
    (a a' : Ex2.app) (r : outcome bool) :
  Ex2.detect_at i start stop v a = (r, a') ->
  Ex2.scan_ranges a' = Ex2.scan_ranges a /\
  length (Ex2.alert_flags a') = length (Ex2.alert_flags a) /\
  length (Ex2.ema_values a') = length (Ex2.ema_values a) /\
  length (Ex2.stability_counter a') = length (Ex2.stability_counter a).
Proof.
  unfold Ex2.detect_at.
  destruct (Ex2.update_ema v i a) as [[ema_value|e] a1] eqn:Hu;
    destruct (update_ema_shape _ _ _ _ _ Hu) as (Hr & Hf & He & Hc);
    [|intros [= _ <-]; auto].
  rewrite <- Hr, <- Hf, <- He, <- Hc.
  repeat match goal with
         | |- context [if ?c then _ else _] => destruct c
         | |- context [match ?l !! ?k with _ => _ end] => destruct (l !! k)
         end;
    intros [= _ <-];
    unfold Ex2.add_log, Ex2.set_flag, Ex2.set_counter;
    cbn [Ex2.scan_ranges Ex2.alert_flags Ex2.ema_values
         Ex2.stability_counter];
    rewrite ?length_insert; auto.
Qed.

Section PollingShape.

Variable median_filter : list float -> outcome (list float).
Variable np_median : list float -> float.
Variable np_max : list float -> outcome float.
Variable ignored_ranges : list (float * float).

Lemma background_range_shape (i : nat) (start stop : Z)
    (a a' : Ex2.app) (r : outcome unit) :
  Ex2.background_range median_filter np_median np_max ignored_ranges
    i start stop a = (r, a') ->
  Ex2.scan_ranges a' = Ex2.scan_ranges a /\
  length (Ex2.alert_flags a') = length (Ex2.alert_flags a) /\
  length (Ex2.ema_values a') = length (Ex2.ema_values a) /\
  length (Ex2.stability_counter a') = length (Ex2.stability_counter a).
Proof.
  unfold Ex2.background_range.
  destruct (Ex2.get_spectrum_float _ _ _ _ _ _)
    as [[[[mags freqs]|]|e] conn]; try (intros [= _ <-]; now auto).
  destruct (Ex2.working_amplitude _ _ _ _ _ _) as [v|e];
    [|intros [= _ <-]; now auto].
  destruct (Ex2.detect_at _ _ _ _ _) as [[fired|e] a1] eqn:Hd;
    destruct (detect_at_shape _ _ _ _ _ _ _ Hd) as (Hr & Hf & He & Hc);
    intros [= _ <-]; auto.
Qed.

Lemma show_display_shape (a a' : Ex2.app) (r : outcome unit) :
  Ex2.show_display median_filter np_median np_max ignored_ranges a
    = (r, a') ->
  Ex2.scan_ranges a' = Ex2.scan_ranges a /\
  length (Ex2.alert_flags a') = length (Ex2.alert_flags a) /\
  length (Ex2.ema_values a') = length (Ex2.ema_values a) /\
  length (Ex2.stability_counter a') = length (Ex2.stability_counter a).
Proof.
  unfold Ex2.show_display.
  destruct (Ex2.scan_ranges a) eqn:Hranges; [intros [= _ <-]; now auto|].
  rewrite <- Hranges.
  destruct (Ex2.get_spectrum_float _ _ _ _ _ _)
    as [[[[mags freqs]|]|e] conn]; try (intros [= _ <-]; now auto).
  destruct (Ex2.working_amplitude _ _ _ _ _ _) as [v|e];
    [|intros [= _ <-]; now auto].
  destruct (Ex2.update_ema _ _ _) as [[ema|e] a1] eqn:Hu;
    destruct (update_ema_shape _ _ _ _ _ Hu) as (Hr & Hf & He & Hc);
    intros [= _ <-]; auto.
Qed.

Lemma for_ranges_background_shape (ranges : list Ex2.scan_range) :
  forall (i : nat) (a a' : Ex2.app) (r : outcome unit),
    Ex2.for_ranges
      (Ex2.background_range median_filter np_median np_max ignored_ranges)
      i ranges a = (r, a') ->
    Ex2.scan_ranges a' = Ex2.scan_ranges a /\
    length (Ex2.alert_flags a') = length (Ex2.alert_flags a) /\
    length (Ex2.ema_values a') = length (Ex2.ema_values a) /\
    length (Ex2.stability_counter a') = length (Ex2.stability_counter a).
Proof.
  induction ranges as [|[[start stop] thr] ranges IH]; intros i a a' r.
  - cbn [Ex2.for_ranges]. intros [= _ <-]. auto.
  - cbn [Ex2.for_ranges].
    destruct (Ex2.background_range _ _ _ _ _ _ _ _) as [[[]|e] a1] eqn:Hb;
      destruct (background_range_shape _ _ _ _ _ _ Hb)
        as (Hr & Hf & He & Hc).
    + intros Hrun. destruct (IH _ _ _ _ Hrun) as (Hr' & Hf' & He' & Hc').
      rewrite Hr', Hf', He', Hc'. auto.
    + intros [= _ <-]. auto.
Qed.

Lemma update_spectrum_shape (a a' : Ex2.app) (r : outcome unit) :
  Ex2.update_spectrum median_filter np_median np_max ignored_ranges a
    = (r, a') ->
  Ex2.scan_ranges a' = Ex2.scan_ranges a /\
  length (Ex2.alert_flags a') = length (Ex2.alert_flags a) /\
  length (Ex2.ema_values a') = length (Ex2.ema_values a) /\
  length (Ex2.stability_counter a') = length (Ex2.stability_counter a).
Proof.
  unfold Ex2.update_spectrum, Ex2.background_processing.
  destruct (Ex2.serial_conn a); [|intros [= _ <-]; now auto].
  destruct (Ex2.show_display _ _ _ _ _) as [[[]|e] a1] eqn:Hs;
    destruct (show_display_shape _ _ _ Hs) as (Hr & Hf & He & Hc).
  - intros Hrun.
    destruct (for_ranges_background_shape _ _ _ _ _ Hrun)
      as (Hr' & Hf' & He' & Hc').
    rewrite Hr', Hf', He', Hc'. auto.
  - intros [= _ <-]. auto.
Qed.

End PollingShape.

(** ** Calibration *)

Section ForRanges.

Variable body : nat -> Z -> Z -> Ex2.app -> outcome unit * Ex2.app.

(** What one turn of the loop may do to the registry: nothing, or set the
    threshold of the range it was called for. *)
Variable chosen : Z -> Z -> Ex2.app -> option float -> Prop.

Hypothesis body_sets_own_threshold :
  forall (i : nat) (start stop : Z) (a a1 : Ex2.app),
    body i start stop a = (Return tt, a1) ->
    exists t : option float,
      chosen start stop a t /\
      Ex2.scan_ranges a1 =
      match t with
      | None => Ex2.scan_ranges a
      | Some t => <[i := (start, stop, Some t)]> (Ex2.scan_ranges a)
      end.

Lemma for_ranges_app (i : nat) (pre post : list Ex2.scan_range) (a : Ex2.app) :
  Ex2.for_ranges body i (pre ++ post) a =
  match Ex2.for_ranges body i pre a with
  | (Return _, a1) => Ex2.for_ranges body (i + length pre) post a1
  | (Raise e, a1) => (Raise e, a1)
  end.
Proof.
  revert i a. induction pre as [|[[start stop] thr] pre IH]; intros i a.
  - cbn [app Ex2.for_ranges length]. now rewrite Nat.add_0_r.
  - cbn [app Ex2.for_ranges length].
    destruct (body i start stop a) as [[[]|e] a1]; [|reflexivity].
    rewrite IH. now rewrite Nat.add_succ_r.
Qed.

Lemma for_ranges_frame (i : nat) (ranges : list Ex2.scan_range)
    (a a' : Ex2.app) (m : nat) :
  Ex2.for_ranges body i ranges a = (Return tt, a') ->
  (m < i)%nat ->
  Ex2.scan_ranges a' !! m = Ex2.scan_ranges a !! m.
Proof.
  revert i a. induction ranges as [|[[start stop] thr] ranges IH];
    intros i a Hrun Hm.
  - cbn [Ex2.for_ranges] in Hrun. now injection Hrun as <-.
  - cbn [Ex2.for_ranges] in Hrun.
    destruct (body i start stop a) as [[[]|e] a1] eqn:Hb; [|discriminate].
    rewrite (IH (S i) a1 Hrun) by lia.
    destruct (body_sets_own_threshold _ _ _ _ _ Hb) as ([t|] & _ & ->);
      [|reflexivity].
    apply list_lookup_insert_ne. lia.
Qed.

Lemma for_ranges_frame_after (i : nat) (ranges : list Ex2.scan_range)
    (a a' : Ex2.app) (m : nat) :
  Ex2.for_ranges body i ranges a = (Return tt, a') ->
  (i + length ranges <= m)%nat ->
  Ex2.scan_ranges a' !! m = Ex2.scan_ranges a !! m.
Proof.
  revert i a. induction ranges as [|[[start stop] thr] ranges IH];
    intros i a Hrun Hm.
  - cbn [Ex2.for_ranges] in Hrun. now injection Hrun as <-.
  - cbn [Ex2.for_ranges length] in *.
    destruct (body i start stop a) as [[[]|e] a1] eqn:Hb; [|discriminate].
    rewrite (IH (S i) a1 Hrun) by lia.
    destruct (body_sets_own_threshold _ _ _ _ _ Hb) as ([t|] & _ & ->);
      [|reflexivity].
    apply list_lookup_insert_ne. lia.
Qed.

Lemma for_ranges_entry (i : nat) (pre post : list Ex2.scan_range)
    (start stop : Z) (thr : option float) (a a' : Ex2.app) :
  Ex2.for_ranges body i (pre ++ (start, stop, thr) :: post) a
    = (Return tt, a') ->
  Ex2.scan_ranges a !! (i + length pre)%nat = Some (start, stop, thr) ->
  exists (a_k : Ex2.app) (t : option float),
    Ex2.for_ranges body i pre a = (Return tt, a_k) /\
    chosen start stop a_k t /\
    Ex2.scan_ranges a' !! (i + length pre)%nat =
    Some (start, stop, match t with None => thr | Some t => Some t end).
Proof.
  intros Hrun Hentry. rewrite for_ranges_app in Hrun.
  destruct (Ex2.for_ranges body i pre a) as [[[]|e] a_k] eqn:Hpre;
    [|discriminate].
  cbn [Ex2.for_ranges] in Hrun.
  destruct (body (i + length pre) start stop a_k) as [[[]|e] a1] eqn:Hb;
    [|discriminate].
  destruct (body_sets_own_threshold _ _ _ _ _ Hb) as (t & Hchosen & Hranges).
  exists a_k, t. split; [reflexivity|]. split; [exact Hchosen|].
  transitivity (Ex2.scan_ranges a1 !! (i + length pre)%nat);
    [apply (for_ranges_frame _ _ _ _ _ Hrun); lia|].
  rewrite Hranges.
  assert (Hk : Ex2.scan_ranges a_k !! (i + length pre)%nat
               = Some (start, stop, thr)).
  { rewrite <- Hentry. apply (for_ranges_frame_after _ _ _ _ _ Hpre). lia. }
  destruct t as [t|]; [|exact Hk].
  apply list_lookup_insert_eq. apply lookup_lt_Some in Hk. exact Hk.
Qed.

End ForRanges.

Section CalibrationFacts.

Variable np_max : list float -> outcome float.
Variable np_median : list float -> float.
Variable round1 : float -> float.
Variable median_filter : list float -> outcome (list float).
Variable ignored_ranges : list (float * float).

Lemma collect_amplitudes_ranges (n : nat) (start stop : Z)
    (amplitudes : list float) (a a' : Ex2.app) (r : outcome (list float)) :
  Ex2.collect_amplitudes np_max n start stop amplitudes a = (r, a') ->
  Ex2.scan_ranges a' = Ex2.scan_ranges a /\ Ex2.log a' = Ex2.log a.
Proof.
  revert amplitudes a. induction n as [|n IH]; intros amplitudes a.
  - cbn [Ex2.collect_amplitudes]. intros [= _ <-]. auto.
  - cbn [Ex2.collect_amplitudes].
    destruct (Ex2.get_spectrum_float _ _ _ _ _ _) as [[[[mags freqs]|]|e] conn].
    + destruct (np_max mags) as [m|e].
      * intros H. apply IH in H. exact H.
      * intros [= _ <-]. auto.
    + intros H. apply IH in H. exact H.
    + intros [= _ <-]. auto.
Qed.

Lemma auto_calibrate_range_choice (i : nat) (start stop : Z)
    (a a1 : Ex2.app) :
  Ex2.auto_calibrate_range np_max np_median round1 i start stop a
    = (Return tt, a1) ->
  exists t : option float,
    Ex2.initial_choice np_max np_median round1 start stop a t /\
    Ex2.scan_ranges a1 =
    match t with
    | None => Ex2.scan_ranges a
    | Some t => <[i := (start, stop, Some t)]> (Ex2.scan_ranges a)
    end.
Proof.
  unfold Ex2.auto_calibrate_range, Ex2.initial_choice.
  generalize 500%nat. intros n.
  destruct (Ex2.collect_amplitudes np_max n start stop [] a)
    as [[amplitudes|e] a2] eqn:Hc; [|discriminate].
  destruct (collect_amplitudes_ranges _ _ _ _ _ _ _ Hc) as [Hr _].
  destruct amplitudes as [|x amplitudes].
  - intros [= <-]. exists None. split; [|exact Hr]. now exists [], a2.
  - intros [= <-]. eexists (Some _). split; [now exists (x :: amplitudes), a2|].
    cbn [Ex2.add_log Ex2.set_range Ex2.scan_ranges]. now rewrite Hr.
Qed.

Lemma recalibrate_range_choice (i : nat) (start stop : Z) (a a1 : Ex2.app) :
  Ex2.recalibrate_range np_max round1 i start stop a = (Return tt, a1) ->
  exists t : option float,
    Ex2.continuous_choice np_max round1 start stop a t /\
    Ex2.scan_ranges a1 =
    match t with
    | None => Ex2.scan_ranges a
    | Some t => <[i := (start, stop, Some t)]> (Ex2.scan_ranges a)
    end.
Proof.
  unfold Ex2.recalibrate_range, Ex2.continuous_choice.
  generalize 10%nat. intros n.
  destruct (Ex2.collect_amplitudes np_max n start stop [] a)
    as [[amplitudes|e] a2] eqn:Hc; [|discriminate].
  destruct (collect_amplitudes_ranges _ _ _ _ _ _ _ Hc) as [Hr _].
  destruct amplitudes as [|x amplitudes].
  - intros [= <-]. exists None. split; [|exact Hr]. now exists [], a2.
  - cbn [Ex2.py_max]. intros [= <-]. eexists (Some _).
    split; [now exists (x :: amplitudes), a2|].
    cbn [Ex2.set_range Ex2.scan_ranges]. now rewrite Hr.
Qed.

(** X3.  What both calibrations compute.  Take a range [(start, stop, thr)]
    of the registry, [pre] being the ranges before it.
    - Initial calibration with a transport: when it returns, the threshold
      of the range is [round(median(amplitudes) + 1, 1)], where
      [amplitudes] are the maxima of the successful ones among the 500
      queries issued for this range (after the calibration of [pre]); it
      is left as it was if no query succeeded.
    - The continuous calibration with one pass of its loop: the same
      with 10 queries and [max(amplitudes)] in place of the median (the
      [update_spectrum] that ends it writes no threshold).
    - Initial calibration without a transport: the error is logged and
      the registry is left as it was. *)
Lemma calibration_thresholds :
  (forall (a a' : Ex2.app) (conn : Ex2.serial_port)
          (pre post : list Ex2.scan_range) (start stop : Z)
          (thr : option float),
     Ex2.serial_conn a = Some conn ->
     Ex2.scan_ranges a = pre ++ (start, stop, thr) :: post ->
     Ex2.auto_calibrate_thresholds np_max np_median round1 a
       = (Return tt, a') ->
     exists (a_k a_k' : Ex2.app) (amplitudes : list float),
       Ex2.for_ranges (Ex2.auto_calibrate_range np_max np_median round1)
                      O pre a = (Return tt, a_k) /\
       Ex2.collect_amplitudes np_max 500 start stop [] a_k
         = (Return amplitudes, a_k') /\
       Ex2.scan_ranges a' !! length pre =
       Some (start, stop,
             match amplitudes with
             | [] => thr
             | _ => Some (round1 (np_median amplitudes + 1)%float)
             end)) /\
  (forall (a a' : Ex2.app) (pre post : list Ex2.scan_range) (start stop : Z)
          (thr : option float),
     Ex2.scan_ranges a = pre ++ (start, stop, thr) :: post ->
     Ex2.calibration_process np_max np_median round1 median_filter
       ignored_ranges 1 a = (Return tt, a') ->
     exists (a_k a_k' : Ex2.app) (amplitudes : list float),
       Ex2.for_ranges (Ex2.recalibrate_range np_max round1) O pre a
         = (Return tt, a_k) /\
       Ex2.collect_amplitudes np_max 10 start stop [] a_k
         = (Return amplitudes, a_k') /\
       Ex2.scan_ranges a' !! length pre =
       Some (start, stop,
             match Ex2.py_max amplitudes with
             | Raise _ => thr
             | Return max_amplitude =>
                 Some (round1 (max_amplitude + 1)%float)
             end)) /\
  (forall a : Ex2.app,
     Ex2.serial_conn a = None ->
     Ex2.auto_calibrate_thresholds np_max np_median round1 a
       = (Return tt, Ex2.add_log Ex2.LogNoConnection a) /\
     Ex2.scan_ranges (Ex2.add_log Ex2.LogNoConnection a) = Ex2.scan_ranges a /\
     Ex2.log (Ex2.add_log Ex2.LogNoConnection a)
       = Ex2.log a ++ [Ex2.LogNoConnection]).
Proof.
  split; [|split].
  - intros a a' conn pre post start stop thr Hconn Hranges Hrun.
    unfold Ex2.auto_calibrate_thresholds in Hrun. rewrite Hconn, Hranges in Hrun.
    destruct (for_ranges_entry _ (Ex2.initial_choice np_max np_median round1)
                auto_calibrate_range_choice
                O pre post start stop thr a a' Hrun)
      as (a_k & t & Hpre & (amplitudes & a_k' & Hcol & ->) & Hentry).
    { rewrite Hranges. cbn [Nat.add]. apply list_lookup_middle. reflexivity. }
    exists a_k, a_k', amplitudes. split; [exact Hpre|]. split; [exact Hcol|].
    cbn [Nat.add] in Hentry. rewrite Hentry. now destruct amplitudes.
  - intros a a' pre post start stop thr Hranges Hrun.
    unfold Ex2.calibration_process in Hrun.
    cbn [Ex2.calibration_passes] in Hrun. rewrite Hranges in Hrun.
    destruct (Ex2.for_ranges _ _ _ _) as [[[]|e] a1] eqn:Hpass;
      [|discriminate].
    destruct (update_spectrum_shape _ _ _ _ _ _ _ Hrun) as (-> & _).
    destruct (for_ranges_entry _ (Ex2.continuous_choice np_max round1)
                recalibrate_range_choice
                O pre post start stop thr a a1 Hpass)
      as (a_k & t & Hpre & (amplitudes & a_k' & Hcol & ->) & Hentry).
    { rewrite Hranges. cbn [Nat.add]. apply list_lookup_middle. reflexivity. }
    exists a_k, a_k', amplitudes. split; [exact Hpre|]. split; [exact Hcol|].
    cbn [Nat.add] in Hentry. rewrite Hentry.
    now destruct (Ex2.py_max amplitudes).
  - intros a Hconn. unfold Ex2.auto_calibrate_thresholds. rewrite Hconn. auto.
Qed.

End CalibrationFacts.

(** A query on a missing transport: the command is built, then
    [serial_conn.write] fails on [None]; [except serial.SerialException]
    does not catch it. *)
Lemma get_spectrum_float_no_transport (start_freq stop_freq : Z) :
  0 <= start_freq < 2 ^ 64 -> 0 <= stop_freq < 2 ^ 64 ->
  Ex2.get_spectrum_float None start_freq stop_freq 2 3 0
    = (Raise AttributeError, None).
Proof.
  intros Hs He. unfold Ex2.get_spectrum_float.
  now rewrite (encode_query_ok _ _ _ (pack_query_ok _ _ Hs He)).
Qed.

(** C8 fails on the continuous calibration: without a transport a
    calibration must log the failure and leave the thresholds unset.  The
    initial calibration does (the error is logged, the registry is
    untouched), but [calibration_process] lacks the test of
    [self.serial_conn]: its first query raises [AttributeError], which
    ends the calibration thread, and nothing is logged. *)
Theorem calibration_process_without_transport
    (np_max : list float -> outcome float) (np_median : list float -> float)
    (round1 : float -> float)
    (median_filter : list float -> outcome (list float))
    (ignored_ranges : list (float * float)) (passes : nat) :
  Ex2.auto_calibrate_thresholds np_max np_median round1 (Ex2.init None)
    = (Return tt,
       Ex2.mk_app [(400000000, 500000000, None)] [false] [None] [O] None
                  [Ex2.LogNoConnection]) /\
  Ex2.calibration_process np_max np_median round1 median_filter
    ignored_ranges (S passes) (Ex2.init None)
    = (Raise AttributeError, Ex2.init None).
Proof. split; reflexivity. Qed.

(** The initial calibration on a device that answers the first query with
    one frame (amplitude 1.0 at 2 MHz) and then stays silent: the range
    gets the threshold 2.0, and the setting is logged.  The array maximum,
    the median and the rounding are stand-ins that agree with NumPy on
    this input. *)
Example initial_calibration_example :
  let a' :=
    Ex2.auto_calibrate_thresholds
      Ex2.py_max (fun l => nth 0 l 0%float) (fun x => x)
      (Ex2.init
         (Some (Ex2.mk_serial
                  [xbb; xc2; x08; x00; x00; x00; x80; x3f;
                   x00; x24; xf4; x49; xa5; x42] [] false))) in
  fst a' = Return tt /\
  Ex2.scan_ranges (snd a') = [(400000000, 500000000, Some 2%float)] /\
  Ex2.log (snd a') = [Ex2.LogAutoThreshold 400000000 500000000 2%float].
Proof. vm_compute. repeat split. Qed.

(** * Further properties of the code *)

(** ** The reassembly loop on a growing buffer *)

Lemma scan_once_skip_noise (noise rest : list byte) :
  Arduino.find_marker noise = None ->
  Arduino.scan_once (noise ++ MARKER :: rest)
  = Arduino.scan_once (MARKER :: rest).
Proof.
  intros Hn. unfold Arduino.scan_once.
  rewrite (find_marker_app noise rest Hn), find_marker_head.
  now rewrite drop_app_length, drop_0.
Qed.

Lemma drop_at_marker (buffer : list byte) (i : nat) :
  buffer !! i = Some MARKER ->
  drop i buffer = MARKER :: drop (S i) buffer.
Proof. intros H. now rewrite (drop_S _ _ _ H). Qed.

(** A pass that takes a packet takes the same packet when more bytes
    follow. *)
Lemma scan_once_Packet_app (buffer packet rest data : list byte) :
  Arduino.scan_once buffer = Arduino.Packet packet rest ->
  Arduino.scan_once (buffer ++ data) = Arduino.Packet packet (rest ++ data).
Proof.
  intros Hs. destruct (scan_once_Packet _ _ _ Hs) as (i & Hf & Hd & Hl).
  destruct (find_marker_Some _ _ Hf) as [Hi Hpre].
  assert (Hp0 : packet !! 0%nat = Some MARKER).
  { pose proof (le_value_range (slice packet 2 4)) as Hr.
    rewrite (drop_at_marker _ _ Hi) in Hd.
    destruct packet as [|b packet']; [unfold len in Hl; cbn in Hl; lia|].
    cbn [app] in Hd. now injection Hd as <- _. }
  rewrite <- (take_drop i buffer), Hd, <- !app_assoc.
  now apply scan_once_frame.
Qed.

(** A pass that stops behaves, once more bytes have arrived, as a pass on
    what it left followed by these bytes. *)
Lemma scan_once_Break_app (buffer rest data : list byte) :
  Arduino.scan_once buffer = Arduino.Break rest ->
  Arduino.scan_once (buffer ++ data) = Arduino.scan_once (rest ++ data).
Proof.
  unfold Arduino.scan_once at 1.
  destruct (Arduino.find_marker buffer) as [i|] eqn:Hf.
  - destruct (find_marker_Some _ _ Hf) as [Hi Hpre].
    assert (Hrest : forall r, Arduino.Break (drop i buffer) = Arduino.Break r ->
              Arduino.scan_once (buffer ++ data)
              = Arduino.scan_once (r ++ data)).
    { intros r [= <-]. rewrite <- (take_drop i buffer) at 1.
      rewrite (drop_at_marker _ _ Hi), <- app_assoc, <- app_comm_cons.
      now apply scan_once_skip_noise. }
    destruct (len (drop i buffer) <? 4); [apply Hrest|].
    destruct (unpack_H _) as [payload_len|e]; [|discriminate].
    destruct (len (drop i buffer) <? 6 + payload_len);
      [apply Hrest|discriminate].
  - now intros [= <-].
Qed.

Lemma scan_loop_same_pass (fuel : nat) (b1 b2 : list byte)
    (acc : list samples) :
  Arduino.scan_once b1 = Arduino.scan_once b2 ->
  Arduino.scan_loop fuel b1 acc = Arduino.scan_loop fuel b2 acc.
Proof.
  intros H. destruct fuel as [|fuel]; [reflexivity|].
  cbn [Arduino.scan_loop]. now rewrite H.
Qed.

(** Running the loop to its end, then again after more bytes, is running
    it once on all the bytes. *)
Lemma scan_loop_app (fuel fuel2 : nat) (buffer data : list byte)
    (acc : list samples) (r r2 : Arduino.scan_result) :
  Arduino.scan_loop fuel buffer acc = Some r ->
  Arduino.scan_loop fuel2 (Arduino.remaining r ++ data) (Arduino.emitted r)
    = Some r2 ->
  Arduino.scan_loop (fuel + fuel2) (buffer ++ data) acc = Some r2.
Proof.
  revert buffer acc. induction fuel as [|fuel IH]; intros buffer acc Hr Hr2;
    [discriminate|].
  cbn [Arduino.scan_loop] in Hr.
  destruct (Arduino.scan_once buffer) as [rest|packet rest|e rest] eqn:Hs.
  - injection Hr as <-. cbn [Arduino.remaining Arduino.emitted] in Hr2.
    rewrite (scan_loop_same_pass _ _ _ _ (scan_once_Break_app _ _ data Hs)).
    apply (scan_loop_more_fuel _ _ _ _ _ Hr2). lia.
  - cbn [Nat.add Arduino.scan_loop].
    rewrite (scan_once_Packet_app _ _ _ data Hs).
    destruct (parse_response_returns packet) as (pr & Hp).
    rewrite Hp in *. destruct pr; now apply IH.
  - exfalso. exact (scan_once_not_Raised _ _ _ Hs).
Qed.

Lemma scan_loop_acc (fuel : nat) (buffer : list byte)
    (acc0 acc : list samples) (r : Arduino.scan_result) :
  Arduino.scan_loop fuel buffer acc = Some r ->
  Arduino.scan_loop fuel buffer (acc0 ++ acc)
  = Some (Arduino.mk_scan_result (acc0 ++ Arduino.emitted r)
            (Arduino.remaining r) (Arduino.raised r)).
Proof.
  revert buffer acc. induction fuel as [|fuel IH]; intros buffer acc;
    [discriminate|].
  cbn [Arduino.scan_loop].
  destruct (Arduino.scan_once buffer) as [rest|packet rest|e rest].
  - now intros [= <-].
  - destruct (Arduino.parse_response packet) as [[w|s]|e].
    + apply IH.
    + rewrite <- app_assoc. apply IH.
    + now intros [= <-].
  - now intros [= <-].
Qed.

Lemma ingest_app (buffer d1 d2 : list byte) :
  Arduino.ingest buffer (d1 ++ d2)
  = Arduino.mk_scan_result
      (Arduino.emitted (Arduino.ingest buffer d1)
         ++ Arduino.emitted
              (Arduino.ingest (Arduino.remaining (Arduino.ingest buffer d1)) d2))
      (Arduino.remaining
         (Arduino.ingest (Arduino.remaining (Arduino.ingest buffer d1)) d2))
      None.
Proof.
  pose proof (ingest_fuel buffer d1) as H1.
  pose proof (ingest_fuel (Arduino.remaining (Arduino.ingest buffer d1)) d2)
    as H2.
  pose proof (ingest_never_raises
                (Arduino.remaining (Arduino.ingest buffer d1)) d2) as Hn.
  apply (scan_loop_acc _ _ (Arduino.emitted (Arduino.ingest buffer d1)) [])
    in H2.
  rewrite app_nil_r, Hn in H2.
  pose proof (scan_loop_app _ _ _ _ _ _ _ H1 H2) as H.
  rewrite <- app_assoc in H. exact (ingest_eq _ _ _ _ H).
Qed.

(** X4.  Chunking does not matter: feeding [d1] and then [d2] emits the same
    frames, in the same order, and leaves the same buffer as feeding
    [d1 ++ d2] at once; and a call without new bytes emits nothing and
    leaves the buffer as it is. *)
Theorem ingest_chunking (buffer d1 d2 : list byte) :
  Arduino.emitted (Arduino.ingest buffer (d1 ++ d2))
  = Arduino.emitted (Arduino.ingest buffer d1)
      ++ Arduino.emitted
           (Arduino.ingest (Arduino.remaining (Arduino.ingest buffer d1)) d2)
  /\
  Arduino.remaining (Arduino.ingest buffer (d1 ++ d2))
  = Arduino.remaining
      (Arduino.ingest (Arduino.remaining (Arduino.ingest buffer d1)) d2)
  /\
  Arduino.ingest (Arduino.remaining (Arduino.ingest buffer d1)) []
  = Arduino.mk_scan_result [] (Arduino.remaining (Arduino.ingest buffer d1))
      None.
Proof.
  split; [now rewrite ingest_app|]. split; [now rewrite ingest_app|].
  pose proof (ingest_app buffer d1 []) as H. rewrite app_nil_r in H.
  set (r1 := Arduino.ingest buffer d1) in *.
  set (r2 := Arduino.ingest (Arduino.remaining r1) []) in *.
  pose proof (ingest_never_raises (Arduino.remaining r1) []) as Hn.
  fold r2 in Hn.
  assert (He : Arduino.emitted r2 = []).
  { apply (f_equal Arduino.emitted) in H. cbn [Arduino.emitted] in H.
    rewrite <- (app_nil_r (Arduino.emitted r1)) in H at 1.
    now apply app_inv_head in H. }
  assert (Hrem : Arduino.remaining r2 = Arduino.remaining r1).
  { apply (f_equal Arduino.remaining) in H. now cbn [Arduino.remaining] in H. }
  destruct r2 as [e2 b2 x2]. cbn in He, Hrem, Hn. now subst.
Qed.

Lemma scan_loop_stream (items : list (list byte * list byte))
    (tail : list byte) (acc : list samples) :
  Forall (fun item =>
            Arduino.find_marker (fst item) = None /\
            snd item !! 0%nat = Some MARKER /\
            len (snd item) = 6 + le_value (slice (snd item) 2 4)) items ->
  Arduino.find_marker tail = None ->
  Arduino.scan_loop (S (length items))
    (flat_map (fun item => fst item ++ snd item) items ++ tail) acc
  = Some (Arduino.mk_scan_result
            (acc ++ flat_map
                      (fun item =>
                         match Arduino.parse_response (snd item) with
                         | Return (inr s) => [s]
                         | _ => []
                         end) items)
            tail None).
Proof.
  intros Hitems Htail. revert acc.
  induction Hitems as [|[noise frame] items (Hn & H0 & Hl) _ IH]; intros acc.
  - cbn [flat_map app length]. rewrite app_nil_r.
    now apply scan_loop_no_marker.
  - cbn [fst snd] in *. cbn [flat_map length fst snd].
    remember (S (length items)) as fuel. cbn [Arduino.scan_loop].
    rewrite <- !app_assoc.
    rewrite (scan_once_frame noise frame _ Hn H0 Hl).
    destruct (parse_response_returns frame) as (pr & Hp). rewrite Hp.
    subst fuel. destruct pr as [w|s].
    + now rewrite IH.
    + rewrite IH. now rewrite <- app_assoc.
Qed.

(** X5.  In-order delivery.  A stream made of candidates, each as long as its
    length field announces and each preceded by marker-free noise, and
    ended by marker-free noise: [ingest] emits the samples of the
    candidates that decode, in the order of the stream, drops the noise
    and the candidates that fail, and keeps the trailing noise. *)
Theorem ingest_stream (items : list (list byte * list byte))
    (tail : list byte) :
  Forall (fun item =>
            Arduino.find_marker (fst item) = None /\
            snd item !! 0%nat = Some MARKER /\
            len (snd item) = 6 + le_value (slice (snd item) 2 4)) items ->
  Arduino.find_marker tail = None ->
  Arduino.ingest []
    (flat_map (fun item => fst item ++ snd item) items ++ tail)
  = Arduino.mk_scan_result
      (flat_map
         (fun item =>
            match Arduino.parse_response (snd item) with
            | Return (inr s) => [s]
            | _ => []
            end) items)
      tail None.
Proof.
  intros Hitems Htail.
  apply (ingest_eq [] _ (S (length items))). cbn [app].
  exact (scan_loop_stream items tail [] Hitems Htail).
Qed.

Lemma ingest_stream_witness :
  Arduino.ingest []
    (flat_map (fun item => fst item ++ snd item)
       [([xaa], [xbb; xc2; x08; x00; x00; x00; x80; x3f;
                 x00; x24; xf4; x49; xa5; x42]);
        ([], [xbb; xc2; x00; x00; x00; x00]);
        ([x01; x02], [xbb; xc2; x00; x00; x7d; x32])]
     ++ [x03])
  = Arduino.mk_scan_result [([1%float], [2%float]); ([], [])] [x03] None.
Proof.
  apply (ingest_stream
           [([xaa], [xbb; xc2; x08; x00; x00; x00; x80; x3f;
                     x00; x24; xf4; x49; xa5; x42]);
            ([], [xbb; xc2; x00; x00; x00; x00]);
            ([x01; x02], [xbb; xc2; x00; x00; x7d; x32])] [x03]);
    [repeat constructor|reflexivity].
Defined.

(** ** The worker over a whole run *)

Lemma loop_body_reads (w : Arduino.worker) (env : Arduino.io)
    (data : list byte) :
  Arduino.read_result env = Return data ->
  Arduino.write_result env = Return tt ->
  Arduino.loop_body env w =
    (Arduino.Running
       (Arduino.mk_worker (Arduino.self_running w) true
          (match data with
           | [] => Arduino.self_buffer w
           | _ => Arduino.remaining (Arduino.ingest (Arduino.self_buffer w) data)
           end)),
     match data with
     | [] => []
     | _ => Arduino.emitted (Arduino.ingest (Arduino.self_buffer w) data)
     end).
Proof.
  intros Hread Hwrite. unfold Arduino.loop_body. rewrite Hwrite, Hread.
  destruct (negb (Arduino.self_ser_open w));
    cbn [Arduino.self_running Arduino.self_buffer];
    (destruct data as [|b data]; [reflexivity|]);
    now rewrite ingest_never_raises.
Qed.

Lemma run_from_reads (evs : list Arduino.event) (sofar : list byte)
    (is_open : bool) :
  Forall (fun ev =>
            match ev with
            | Arduino.Pass env =>
                (exists data, Arduino.read_result env = Return data) /\
                Arduino.write_result env = Return tt
            | Arduino.PortClosed => True
            | Arduino.StopRequested => False
            end) evs ->
  exists (is_open' : bool) (out : list samples),
    Arduino.run_from evs
      (Arduino.Running
         (Arduino.mk_worker true is_open
            (Arduino.remaining (Arduino.ingest [] sofar))))
    = (Arduino.Running
         (Arduino.mk_worker true is_open'
            (Arduino.remaining
               (Arduino.ingest [] (sofar ++ Arduino.received evs)))),
       out) /\
    Arduino.emitted (Arduino.ingest [] (sofar ++ Arduino.received evs))
    = Arduino.emitted (Arduino.ingest [] sofar) ++ out.
Proof.
  intros Hevs. revert sofar is_open.
  induction Hevs as [|ev evs Hev _ IH]; intros sofar is_open.
  - exists is_open, []. cbn [Arduino.run_from Arduino.received].
    now rewrite !app_nil_r.
  - destruct ev as [env| |]; [|clear Hev|contradiction].
    + destruct Hev as [[data Hread] Hwrite].
      cbn [Arduino.run_from Arduino.step Arduino.received].
      rewrite (loop_body_reads _ env data Hread Hwrite), Hread.
      cbn [Arduino.self_running Arduino.self_buffer].
      destruct data as [|b data].
      * destruct (IH sofar true) as (o & out & Hrun & Hem).
        exists o, out. rewrite Hrun. cbn [app]. auto.
      * pose proof (ingest_app [] sofar (b :: data)) as Happ.
        cbn [app] in Happ.
        assert (Hrem : Arduino.remaining
                         (Arduino.ingest
                            (Arduino.remaining (Arduino.ingest [] sofar))
                            (b :: data))
                       = Arduino.remaining
                           (Arduino.ingest [] (sofar ++ b :: data)))
          by now rewrite Happ.
        assert (Hemit : Arduino.emitted
                          (Arduino.ingest [] (sofar ++ b :: data))
                        = Arduino.emitted (Arduino.ingest [] sofar)
                            ++ Arduino.emitted
                                 (Arduino.ingest
                                    (Arduino.remaining
                                       (Arduino.ingest [] sofar))
                                    (b :: data)))
          by now rewrite Happ.
        rewrite Hrem.
        destruct (IH (sofar ++ b :: data) true) as (o & out & Hrun & Hem).
        exists o. eexists. rewrite Hrun.
        rewrite <- app_assoc in Hem |- *. split; [reflexivity|].
        rewrite Hem, Hemit. now rewrite <- app_assoc.
    + cbn [Arduino.run_from Arduino.step Arduino.received
           Arduino.self_running Arduino.self_buffer].
      destruct (IH sofar false) as (o & out & Hrun & Hem).
      exists o, out. rewrite Hrun. auto.
Qed.

(** X6.  As long as no transport operation raises and no stop is requested,
    the worker keeps running, and what it has emitted and what its buffer
    holds after any number of passes are what a single call of the
    reassembly on all the bytes read so far gives: neither the way the
    bytes are cut into reads, nor timeouts, nor reconnections change the
    frames delivered. *)
Theorem run_is_one_ingest (evs : list Arduino.event) :
  Forall (fun ev =>
            match ev with
            | Arduino.Pass env =>
                (exists data, Arduino.read_result env = Return data) /\
                Arduino.write_result env = Return tt
            | Arduino.PortClosed => True
            | Arduino.StopRequested => False
            end) evs ->
  exists is_open : bool,
    Arduino.run evs
    = (Arduino.Running
         (Arduino.mk_worker true is_open
            (Arduino.remaining (Arduino.ingest [] (Arduino.received evs)))),
       Arduino.emitted (Arduino.ingest [] (Arduino.received evs))).
Proof.
  intros Hevs. destruct (run_from_reads evs [] true Hevs)
    as (o & out & Hrun & Hem).
  exists o. unfold Arduino.run. cbn [app] in *.
  change (Arduino.remaining (Arduino.ingest [] [])) with (@nil byte) in Hrun.
  change (Arduino.emitted (Arduino.ingest [] [])) with (@nil samples) in Hem.
  cbn [app] in Hem. now rewrite Hrun, Hem.
Qed.

Lemma run_is_one_ingest_witness :
  exists is_open : bool,
    Arduino.run
      [Arduino.Pass (Arduino.mk_io (Return tt) (Return [xaa; xbb; xc2]));
       Arduino.Pass (Arduino.mk_io (Return tt) (Return []));
       Arduino.PortClosed;
       Arduino.Pass (Arduino.mk_io (Return tt) (Return [x00; x00; x7d]));
       Arduino.Pass (Arduino.mk_io (Return tt) (Return [x32; x01]))]
    = (Arduino.Running
         (Arduino.mk_worker true is_open
            (Arduino.remaining
               (Arduino.ingest []
                  [xaa; xbb; xc2; x00; x00; x7d; x32; x01]))),
       Arduino.emitted
         (Arduino.ingest [] [xaa; xbb; xc2; x00; x00; x7d; x32; x01])).
Proof.
  apply (run_is_one_ingest
           [Arduino.Pass (Arduino.mk_io (Return tt) (Return [xaa; xbb; xc2]));
            Arduino.Pass (Arduino.mk_io (Return tt) (Return []));
            Arduino.PortClosed;
            Arduino.Pass (Arduino.mk_io (Return tt) (Return [x00; x00; x7d]));
            Arduino.Pass (Arduino.mk_io (Return tt) (Return [x32; x01]))]).
  repeat constructor; eauto.
Defined.

(** ** What the checksum detects *)

Lemma fletcher_loop_app (l1 l2 : list byte) (a b : Z) :
  fletcher_loop (l1 ++ l2) a b
  = fletcher_loop l2 (fst (fletcher_loop l1 a b)) (snd (fletcher_loop l1 a b)).
Proof.
  revert a b. induction l1 as [|x l1 IH]; intros a b; cbn [app fletcher_loop].
  - reflexivity.
  - apply IH.
Qed.

(** The first accumulator is the sum of the bytes: it does not depend on
    the second one, and a start value is simply added. *)
Lemma fletcher_loop_fst (data : list byte) (a b : Z) :
  0 <= a < 256 ->
  fst (fletcher_loop data a b)
  = (a + fst (fletcher_loop data 0 0)) mod 256.
Proof.
  revert a b. induction data as [|x data IH]; intros a b Ha;
    cbn [fletcher_loop fst].
  - rewrite Z.add_0_r. symmetry. now apply Z.mod_small.
  - rewrite IH by (apply Z.mod_pos_bound; lia).
    rewrite (IH ((0 + byte_val x) mod 256)) by (apply Z.mod_pos_bound; lia).
    set (f := fst (fletcher_loop data 0 0)).
    rewrite Z.add_mod_idemp_l, Z.add_mod_idemp_r by lia.
    replace (a + ((0 + byte_val x) mod 256 + f))
      with ((0 + byte_val x) mod 256 + (a + f)) by lia.
    rewrite Z.add_mod_idemp_l by lia. f_equal. lia.
Qed.

Lemma byte_val_inj (x y : byte) : byte_val x = byte_val y -> x = y.
Proof.
  intros H. rewrite <- (byte_of_Z_val x), <- (byte_of_Z_val y). now rewrite H.
Qed.

Lemma fletcher_fst_substitution (l1 l2 : list byte) (x y : byte) :
  x <> y ->
  fst (fletcher_checksum (l1 ++ x :: l2))
  <> fst (fletcher_checksum (l1 ++ y :: l2)).
Proof.
  intros Hxy Heq. unfold fletcher_checksum in Heq.
  rewrite !fletcher_loop_app in Heq. cbn [fletcher_loop] in Heq.
  pose proof (fletcher_loop_range l1 0 0 ltac:(lia) ltac:(lia)) as [Ha _].
  set (a1 := fst (fletcher_loop l1 0 0)) in *.
  rewrite (fletcher_loop_fst l2 ((a1 + byte_val x) mod 256)) in Heq
    by (apply Z.mod_pos_bound; lia).
  rewrite (fletcher_loop_fst l2 ((a1 + byte_val y) mod 256)) in Heq
    by (apply Z.mod_pos_bound; lia).
  rewrite !Z.add_mod_idemp_l in Heq by lia.
  set (f := fst (fletcher_loop l2 0 0)) in *.
  pose proof (byte_val_range x) as Hx. pose proof (byte_val_range y) as Hy.
  rewrite (Z.mod_eq (a1 + byte_val x + f) 256) in Heq by lia.
  rewrite (Z.mod_eq (a1 + byte_val y + f) 256) in Heq by lia.
  apply Hxy, byte_val_inj. lia.
Qed.

(** X7.  Replacing any one byte of a byte string by another value changes its
    checksum. *)
Theorem fletcher_detects_substitution (l1 l2 : list byte) (x y : byte) :
  x <> y ->
  fletcher_checksum (l1 ++ x :: l2) <> fletcher_checksum (l1 ++ y :: l2).
Proof.
  intros Hxy Heq. apply (fletcher_fst_substitution l1 l2 x y Hxy).
  now rewrite Heq.
Qed.

Lemma fletcher_detects_substitution_witness :
  fletcher_checksum ([xbb; xc2] ++ x13 :: [x00])
  <> fletcher_checksum ([xbb; xc2] ++ x93 :: [x00]).
Proof.
  apply (fletcher_detects_substitution [xbb; xc2] [x00] x13 x93).
  discriminate.
Defined.

(** What a successful parse tells about the buffer. *)
Lemma parse_response_ok_inv (buffer : list byte) (s : samples) :
  Arduino.parse_response buffer = Return (inr s) ->
  6 <= len buffer /\
  buffer !! 0%nat = Some MARKER /\
  buffer !! 1%nat = Some GET_SPECTRUM_FLOAT /\
  6 + le_value (slice buffer 2 4) <= len buffer /\
  le_value (slice buffer (4 + le_value (slice buffer 2 4))
                  (6 + le_value (slice buffer 2 4)))
    = Arduino.calculated_crc buffer (le_value (slice buffer 2 4)) /\
  Arduino.decode_payload (slice buffer 4 (4 + le_value (slice buffer 2 4)))
    = Return (inr s).
Proof.
  intros Hs.
  assert (H6 : 6 <= len buffer).
  { destruct (Z.lt_ge_cases (len buffer) 6) as [Hlt|Hge]; [|exact Hge].
    unfold Arduino.parse_response, Arduino.parse_body in Hs.
    rewrite (proj2 (Z.ltb_lt _ _) Hlt) in Hs. discriminate. }
  destruct (first_two_bytes buffer H6) as (b0 & b1 & H0 & H1).
  unfold Arduino.parse_response in Hs.
  rewrite (parse_body_cascade buffer b0 b1 H6 H0 H1) in Hs. cbn zeta in Hs.
  destruct (byte_eqb b0 MARKER) eqn:Em; cbn [negb try_except] in Hs;
    [|discriminate].
  destruct (byte_eqb b1 GET_SPECTRUM_FLOAT) eqn:Ec;
    cbn [negb try_except] in Hs; [|discriminate].
  apply byte_eqb_eq in Em, Ec. subst b0 b1.
  destruct (len buffer <? _) eqn:El; cbn [try_except] in Hs; [discriminate|].
  apply Z.ltb_ge in El.
  destruct (_ =? _) eqn:Ecrc; cbn [negb try_except] in Hs; [|discriminate].
  apply Z.eqb_eq in Ecrc.
  destruct (Arduino.decode_payload _) as [r|e] eqn:Hd;
    cbn [try_except] in Hs; [|discriminate].
  injection Hs as ->. auto 10.
Qed.

Lemma slice_insert_ge {A : Type} (b : list A) (lo hi : Z) (i : nat) (x : A) :
  0 <= lo -> lo <= hi -> hi <= Z.of_nat i ->
  slice (<[i := x]> b) lo hi = slice b lo hi.
Proof.
  intros Hlo Hhi Hi. unfold slice.
  rewrite drop_insert_ge by lia. apply take_insert_ge. lia.
Qed.

Lemma slice_insert_lt {A : Type} (b : list A) (lo hi : Z) (i : nat) (x : A) :
  Z.of_nat i < lo ->
  slice (<[i := x]> b) lo hi = slice b lo hi.
Proof.
  intros Hi. unfold slice. now rewrite drop_insert_lt by lia.
Qed.

Lemma le_value_two_inj (r : list byte) (j : nat) (old x : byte) :
  length r = 2%nat -> r !! j = Some old -> x <> old ->
  le_value (<[j := x]> r) <> le_value r.
Proof.
  intros Hlen Hj Hx.
  destruct r as [|r0 [|r1 [|r2 r]]]; cbn [length] in Hlen; try lia.
  pose proof (byte_val_range x). pose proof (byte_val_range r0).
  pose proof (byte_val_range r1).
  destruct j as [|[|j]]; cbn in Hj; [| |discriminate];
    injection Hj as <-; cbn [insert list_insert le_value];
    intros Heq; apply Hx, byte_val_inj; lia.
Qed.

(** X8.  A decoded frame in which one byte is replaced by another value no
    longer decodes, wherever the byte is except in the length field: the
    marker and the command are compared with their constants, and a change
    in the payload or in the checksum bytes makes the checksum
    comparison fail. *)
Theorem parse_response_detects_substitution
    (frame : list byte) (s : samples) (i : nat) (old x : byte) :
  Arduino.parse_response frame = Return (inr s) ->
  frame !! i = Some old ->
  x <> old ->
  (i < 2 \/ 4 <= i)%nat ->
  Z.of_nat i < 6 + le_value (slice frame 2 4) ->
  Arduino.parse_response (<[i := x]> frame)
  = Return (inl (match i with
                 | O => Arduino.InvalidStartByte
                 | S O => Arduino.IncorrectCommand
                 | _ => Arduino.CRCMismatch
                 end)).
Proof.
  intros Hs Hi Hx Hpos Hin.
  destruct (parse_response_ok_inv _ _ Hs) as (H6 & H0 & H1 & El & Ecrc & _).
  set (payload_len := le_value (slice frame 2 4)) in *.
  pose proof (le_value_range (slice frame 2 4)) as Hr. fold payload_len in Hr.
  assert (Hlen : len (<[i := x]> frame) = len frame)
    by (unfold len; now rewrite length_insert).
  assert (H6' : 6 <= len (<[i := x]> frame)) by lia.
  assert (Hlt : (i < length frame)%nat) by (now apply lookup_lt_Some in Hi).
  unfold Arduino.parse_response.
  destruct i as [|[|i]].
  - (* the marker *)
    assert (old = MARKER) by congruence. subst old.
    rewrite (parse_body_cascade _ x GET_SPECTRUM_FLOAT H6')
      by (first [now apply list_lookup_insert_eq
                |now rewrite list_lookup_insert_ne by lia]).
    apply byte_eqb_neq in Hx. now rewrite Hx.
  - (* the command *)
    assert (old = GET_SPECTRUM_FLOAT) by congruence. subst old.
    rewrite (parse_body_cascade _ MARKER x H6')
      by (first [now apply list_lookup_insert_eq
                |now rewrite list_lookup_insert_ne by lia]).
    apply byte_eqb_neq in Hx. now rewrite Hx.
  - (* the payload or the checksum bytes *)
    assert (Hi4 : (4 <= S (S i))%nat) by lia. clear Hpos.
    set (k := S (S i)) in *.
    rewrite (parse_body_cascade _ MARKER GET_SPECTRUM_FLOAT H6')
      by (now rewrite list_lookup_insert_ne by lia).
    change (byte_eqb MARKER MARKER) with true.
    change (byte_eqb GET_SPECTRUM_FLOAT GET_SPECTRUM_FLOAT) with true.
    cbn [negb]. cbn zeta.
    rewrite (slice_insert_ge frame 2 4) by lia. fold payload_len.
    rewrite Hlen, (proj2 (Z.ltb_ge _ _) El).
    assert (Hne : le_value (slice (<[k := x]> frame) (4 + payload_len)
                                  (6 + payload_len))
                  <> Arduino.calculated_crc (<[k := x]> frame) payload_len).
    { destruct (Z.lt_ge_cases (Z.of_nat k) (4 + payload_len)) as [Hpay|Hcrc].
      - (* payload: the received value stays, the calculated one moves *)
        rewrite slice_insert_lt by lia. rewrite Ecrc.
        unfold Arduino.calculated_crc, slice_to.
        rewrite take_insert_lt by lia.
        set (T := take (Z.to_nat (4 + payload_len)) frame).
        assert (HT : T !! k = Some old)
          by (unfold T; rewrite lookup_take_lt by lia; exact Hi).
        rewrite insert_take_drop by (now apply lookup_lt_Some in HT).
        rewrite <- (take_drop_middle T k old HT) at 1.
        pose proof (fletcher_fst_substitution (take k T) (drop (S k) T)
                      old x ltac:(congruence)) as Hfst.
        pose proof (fletcher_checksum_range (take k T ++ old :: drop (S k) T))
          as [Ha Hb].
        pose proof (fletcher_checksum_range (take k T ++ x :: drop (S k) T))
          as [Ha' Hb'].
        destruct (fletcher_checksum (take k T ++ old :: drop (S k) T))
          as [a b].
        destruct (fletcher_checksum (take k T ++ x :: drop (S k) T))
          as [a' b'].
        cbn [fst snd] in *. rewrite !lor_shiftl_byte by lia. lia.
      - (* checksum bytes: the calculated value stays, the received moves *)
        unfold Arduino.calculated_crc in *. unfold slice_to in *.
        rewrite take_insert_ge by lia. rewrite <- Ecrc.
        unfold slice at 1. rewrite drop_insert_ge, take_insert_lt by lia.
        fold (slice frame (4 + payload_len) (6 + payload_len)).
        apply (le_value_two_inj _ _ old).
        + rewrite length_slice; lia.
        + unfold slice. rewrite lookup_take_lt by lia.
          rewrite lookup_drop. rewrite <- Hi. f_equal. lia.
        + exact Hx. }
    apply Z.eqb_neq in Hne. now rewrite Hne.
Qed.

Lemma parse_response_detects_substitution_witness :
  Arduino.parse_response
    (<[7%nat := x3e]> [xbb; xc2; x08; x00; x00; x00; x80; x3f;
                       x00; x24; xf4; x49; xa5; x42])
  = Return (inl Arduino.CRCMismatch).
Proof.
  apply (parse_response_detects_substitution
           [xbb; xc2; x08; x00; x00; x00; x80; x3f;
            x00; x24; xf4; x49; xa5; x42]
           ([1%float], [2%float]) 7 x3f x3e);
    [reflexivity|reflexivity|discriminate|right; lia|vm_compute; reflexivity].
Defined.

(** ** The two parsers on a well-formed frame *)

Lemma ser_read_exact (n : Z) (pre rest : list byte) (w : list (list byte)) :
  len pre = n ->
  Ex2.ser_read n (Ex2.mk_serial (pre ++ rest) w false)
  = (Return pre, Ex2.mk_serial rest w false).
Proof.
  intros Hn. unfold Ex2.ser_read. cbn [Ex2.broken Ex2.rx Ex2.written].
  now rewrite slice_to_app_exact, slice_from_app_exact.
Qed.

Lemma frame_split (frame : list byte) (payload_len : Z) :
  0 <= payload_len -> len frame = 6 + payload_len ->
  frame = slice_to frame 4 ++ slice frame 4 (4 + payload_len)
            ++ slice frame (4 + payload_len) (6 + payload_len).
Proof.
  intros H0 Hlen. unfold slice_to, slice, len in *.
  replace (Z.to_nat (6 + payload_len - (4 + payload_len)))
    with (length (drop (Z.to_nat (4 + payload_len)) frame))
    by (rewrite length_drop; lia).
  rewrite firstn_all, app_assoc, take_take_drop.
  replace (Z.to_nat 4 + Z.to_nat (4 + payload_len - 4))%nat
    with (Z.to_nat (4 + payload_len)) by lia.
  now rewrite take_drop.
Qed.

Lemma bytes_eqb_refl (b : list byte) : Ex2.bytes_eqb b b = true.
Proof.
  induction b as [|x b IH]; [reflexivity|]. cbn [Ex2.bytes_eqb].
  now rewrite (proj2 (byte_eqb_eq x x) eq_refl), IH.
Qed.

Lemma two_bytes_of_value (r : list byte) (c1 c2 : Z) :
  length r = 2%nat -> 0 <= c1 < 256 -> 0 <= c2 < 256 ->
  le_value r = c1 + 256 * c2 ->
  r = [byte_of_Z c1; byte_of_Z c2].
Proof.
  intros Hlen H1 H2 Hv.
  destruct r as [|r0 [|r1 [|r2 r]]]; cbn [length] in Hlen; try lia.
  cbn [le_value] in Hv.
  pose proof (byte_val_range r0). pose proof (byte_val_range r1).
  assert (byte_val r0 = c1) by lia. assert (byte_val r1 = c2) by lia.
  subst c1 c2. now rewrite !byte_of_Z_val.
Qed.

Lemma parsers_agree_on_frames_lemma (frame rest : list byte)
    (written : list (list byte)) (s : samples) :
  Arduino.parse_response frame = Return (inr s) ->
  len frame = 6 + le_value (slice frame 2 4) ->
  Ex2.parse_response (Ex2.mk_serial (frame ++ rest) written false)
  = (Return (Some s), Ex2.mk_serial rest written false).
Proof.
  intros Hs Hlen.
  destruct (parse_response_ok_inv _ _ Hs) as (H6 & _ & _ & _ & Ecrc & Hdec).
  set (payload_len := le_value (slice frame 2 4)) in *.
  pose proof (le_value_range (slice frame 2 4)) as Hr. fold payload_len in Hr.
  assert (Hpl : slice (slice_to frame 4) 2 4 = slice frame 2 4)
    by (apply slice_slice_to; lia).
  assert (Hck : fletcher_checksum
                  (slice_to frame 4 ++ slice frame 4 (4 + payload_len))
                = fletcher_checksum (slice_to frame (4 + payload_len))).
  { f_equal. unfold slice_to, slice. rewrite take_take_drop.
    f_equal. lia. }
  unfold Ex2.parse_response, Ex2.parse_try.
  rewrite (frame_split frame payload_len) at 1 by lia.
  rewrite <- !app_assoc.
  rewrite ser_read_exact by (apply len_slice_to; lia).
  rewrite (proj2 (Z.ltb_ge (len (slice_to frame 4)) 4))
    by (rewrite len_slice_to; lia).
  rewrite Hpl, unpack_H_two by (rewrite length_slice; lia).
  fold payload_len.
  rewrite ser_read_exact by (rewrite len_slice; lia).
  rewrite (proj2 (Z.ltb_ge _ _)) by (rewrite len_slice; lia).
  rewrite ser_read_exact by (rewrite len_slice; lia).
  rewrite Hck.
  unfold Arduino.calculated_crc in Ecrc.
  pose proof (fletcher_checksum_range (slice_to frame (4 + payload_len)))
    as [Ha Hb].
  destruct (fletcher_checksum (slice_to frame (4 + payload_len)))
    as [calc_crc1 calc_crc2].
  cbn [fst snd] in Ha, Hb. rewrite lor_shiftl_byte in Ecrc by lia.
  rewrite (two_bytes_of_value _ calc_crc1 calc_crc2) at 1
    by (first [rewrite length_slice; lia | lia | exact Ecrc]).
  rewrite bytes_eqb_refl. cbn [negb].
  (* the payload *)
  unfold Arduino.decode_payload in Hdec.
  rewrite len_slice in Hdec by lia.
  replace (4 + payload_len - 4) with payload_len in Hdec by lia.
  destruct (negb (payload_len / 4 mod 2 =? 0)); [discriminate|].
  unfold unpack_floats in *.
  destruct (len (slice frame 4 (4 + payload_len)) =? 4 * (payload_len / 4))
    eqn:E4; cbn [bind] in Hdec; [|discriminate].
  apply Z.eqb_eq in E4. injection Hdec as <-.
  assert (Hfl : len (floats_of_bytes (slice frame 4 (4 + payload_len)))
                = payload_len / 4).
  { unfold len at 1.
    rewrite (length_floats_of_bytes (Z.to_nat (payload_len / 4)));
      unfold len in *; lia. }
  now rewrite Hfl.
Qed.

(** X9.  A frame of exactly the length it announces that the buffer based
    parser decodes is decoded to the same samples by the transport based
    parser, which reads exactly the bytes of the frame and leaves what
    follows on the line. *)
Theorem parsers_agree_on_frames (frame rest : list byte)
    (written : list (list byte)) (s : samples) :
  Arduino.parse_response frame = Return (inr s) ->
  len frame = 6 + le_value (slice frame 2 4) ->
  Ex2.parse_response (Ex2.mk_serial (frame ++ rest) written false)
  = (Return (Some s), Ex2.mk_serial rest written false).
Proof. exact (parsers_agree_on_frames_lemma frame rest written s). Qed.

Lemma parsers_agree_on_frames_witness :
  Ex2.parse_response
    (Ex2.mk_serial ([xbb; xc2; x08; x00; x00; x00; x80; x3f;
                     x00; x24; xf4; x49; xa5; x42] ++ [xbb; xc2]) [] false)
  = (Return (Some ([1%float], [2%float])), Ex2.mk_serial [xbb; xc2] [] false).
Proof.
  apply (parsers_agree_on_frames
           [xbb; xc2; x08; x00; x00; x00; x80; x3f;
            x00; x24; xf4; x49; xa5; x42] [xbb; xc2] []
           ([1%float], [2%float])); reflexivity.
Defined.

(** ** Queries on the transport *)

Lemma unpack_floats_raises (n : Z) (data : list byte) (e : exn) :
  unpack_floats n data = Raise e -> e = StructError.
Proof.
  unfold unpack_floats.
  repeat match goal with
         | |- context [if ?c then _ else _] => destruct c
         end; congruence.
Qed.

Lemma parse_try_raises (conn conn' : Ex2.serial_port) (e : exn) :
  Ex2.parse_try conn = (Raise e, conn') ->
  e = StructError \/ e = SerialException.
Proof.
  unfold Ex2.parse_try, Ex2.ser_read.
  destruct (Ex2.broken conn); [intros [= <- _]; now right|].
  destruct (len _ <? 4); [discriminate|].
  destruct (unpack_H _) as [payload_len|e0] eqn:Hun.
  2:{ intros [= <- _]. left. unfold unpack_H in Hun.
      repeat match type of Hun with
             | context [match ?l with [] => _ | _ :: _ => _ end] =>
                 destruct l
             end; congruence. }
  cbn [Ex2.broken].
  destruct (len _ <? _); [discriminate|].
  destruct (fletcher_checksum _) as [calc_crc1 calc_crc2].
  destruct (negb _); [discriminate|].
  destruct (unpack_floats _ _) as [float_data|e0] eqn:Hu; [discriminate|].
  apply unpack_floats_raises in Hu. intros [= <- _]. now left.
Qed.

Lemma ex2_parse_response_raises (conn conn' : Ex2.serial_port) (e : exn) :
  Ex2.parse_response conn = (Raise e, conn') -> e = StructError.
Proof.
  unfold Ex2.parse_response.
  destruct (Ex2.parse_try conn) as [[r|e0] c] eqn:Hp; [discriminate|].
  apply parse_try_raises in Hp as [-> | ->]; [|discriminate].
  now intros [= <- _].
Qed.

(** X10.  [get_spectrum_float] never lets a [SerialException] out: it raises
    only [struct.error] (a frequency or parameter out of range for its
    field, or a checksum-valid answer whose payload is not a whole number
    of floats) and [AttributeError] (no transport).  On a port that fails
    it returns the failure value without changing the port.  On a working
    port that delivers a well-formed frame it writes the query, returns
    the samples of the frame and leaves what follows the frame on the
    line. *)
Theorem get_spectrum_float_outcomes
    (serial_conn : option Ex2.serial_port)
    (start_freq stop_freq rfin bw speed : Z) :
  (forall e : exn,
     fst (Ex2.get_spectrum_float serial_conn start_freq stop_freq
                                 rfin bw speed) = Raise e ->
     e = StructError \/ (e = AttributeError /\ serial_conn = None)) /\
  (forall (conn : Ex2.serial_port) (command : list byte),
     serial_conn = Some conn -> Ex2.broken conn = true ->
     encode_query start_freq stop_freq rfin bw speed = Return command ->
     Ex2.get_spectrum_float serial_conn start_freq stop_freq rfin bw speed
     = (Return None, Some conn)) /\
  (forall (command frame rest : list byte) (sent : list (list byte))
          (s : samples),
     serial_conn = Some (Ex2.mk_serial (frame ++ rest) sent false) ->
     encode_query start_freq stop_freq rfin bw speed = Return command ->
     Arduino.parse_response frame = Return (inr s) ->
     len frame = 6 + le_value (slice frame 2 4) ->
     Ex2.get_spectrum_float serial_conn start_freq stop_freq rfin bw speed
     = (Return (Some s),
        Some (Ex2.mk_serial rest (sent ++ [command]) false))).
Proof.
  split; [|split].
  - intros e. unfold Ex2.get_spectrum_float.
    destruct (encode_query _ _ _ _ _) as [command|e0] eqn:Henc.
    + destruct serial_conn as [conn|]; cbn [fst].
      * unfold Ex2.ser_write. destruct (Ex2.broken conn); [discriminate|].
        destruct (Ex2.parse_response _) as [[r|e1] conn'] eqn:Hp;
          [discriminate|].
        apply ex2_parse_response_raises in Hp. subst e1. cbn [fst].
        intros [= <-]. now left.
      * intros [= <-]. now right.
    + cbn [fst]. intros [= <-]. left.
      unfold encode_query, pack_query, pack_B, pack_H, pack_Q, pack_unsigned,
        bind in Henc.
      repeat match type of Henc with
             | context [if ?c then _ else _] => destruct c
             | context [let '(_, _) := ?p in _] => destruct p
             end; congruence.
  - intros conn command -> Hb Henc. unfold Ex2.get_spectrum_float.
    rewrite Henc. unfold Ex2.ser_write. now rewrite Hb.
  - intros command frame rest sent s -> Henc Hs Hlen.
    unfold Ex2.get_spectrum_float. rewrite Henc.
    unfold Ex2.ser_write. cbn [Ex2.broken Ex2.rx Ex2.written].
    now rewrite (parsers_agree_on_frames_lemma frame rest _ s Hs Hlen).
Qed.

Lemma get_spectrum_float_outcomes_witness :
  exists command : list byte,
    encode_query 400000000 500000000 2 3 0 = Return command /\
    Ex2.get_spectrum_float
      (Some (Ex2.mk_serial ([xbb; xc2; x08; x00; x00; x00; x80; x3f;
                             x00; x24; xf4; x49; xa5; x42] ++ [x00])
                           [] false))
      400000000 500000000 2 3 0
    = (Return (Some ([1%float], [2%float])),
       Some (Ex2.mk_serial [x00] ([] ++ [command]) false)).
Proof.
  eexists. split; [reflexivity|].
  apply (proj2 (proj2 (get_spectrum_float_outcomes
                         (Some (Ex2.mk_serial
                                  ([xbb; xc2; x08; x00; x00; x00; x80; x3f;
                                    x00; x24; xf4; x49; xa5; x42] ++ [x00])
                                  [] false))
                         400000000 500000000 2 3 0)) _
           [xbb; xc2; x08; x00; x00; x00; x80; x3f;
            x00; x24; xf4; x49; xa5; x42] [x00] []
           ([1%float], [2%float])); reflexivity.
Defined.

(** ** Alerts between two resets *)

(** X12.  As long as no cycle is at or below the low threshold, neither
    the cycles between the two thresholds nor the EMA updates of the
    display part change the counter or the flag: the counter ends at its
    start value plus the number of qualifying cycles, consecutive or not;
    the range is in alert at the end iff it was at the start or at least
    one qualifying cycle brought the counter to three; and at most one
    alert is shown, exactly one iff the range was not in alert and a
    qualifying cycle brought the counter to three. *)
Theorem alerts_without_reset (cs : list Ex2.cycle) (s : Ex2.range_state) :
  Ex2.count_if Ex2.is_low (Ex2.kinds cs s) = O ->
  Ex2.stability_count (fst (Ex2.detect_run cs s))
    = (Ex2.stability_count s
       + Ex2.count_if Ex2.is_high (Ex2.kinds cs s))%nat /\
  Ex2.alert_active (fst (Ex2.detect_run cs s))
    = (Ex2.alert_active s
       || ((0 <? Ex2.count_if Ex2.is_high (Ex2.kinds cs s))
           && (3 <=? Ex2.stability_count s
                     + Ex2.count_if Ex2.is_high (Ex2.kinds cs s)))%nat) /\
  Ex2.count_if id (snd (Ex2.detect_run cs s))
    = (if Ex2.alert_active s then O
       else if ((0 <? Ex2.count_if Ex2.is_high (Ex2.kinds cs s))
                && (3 <=? Ex2.stability_count s
                          + Ex2.count_if Ex2.is_high (Ex2.kinds cs s)))%nat
            then 1%nat else O).
Proof. exact (run_without_reset cs s). Qed.

Lemma alerts_without_reset_witness :
  Ex2.kinds
    [Ex2.Polled (-90)%float; Ex2.Shown (-100)%float;
     Ex2.Polled (-98.5)%float; Ex2.Polled (-90)%float;
     Ex2.Shown (-100)%float; Ex2.Polled (-90)%float]
    (Ex2.mk_range_state (Some (-100)%float) O false)
  = [Ex2.High; Ex2.Between; Ex2.High; Ex2.High] /\
  Ex2.count_if id
    (snd (Ex2.detect_run
            [Ex2.Polled (-90)%float; Ex2.Shown (-100)%float;
             Ex2.Polled (-98.5)%float; Ex2.Polled (-90)%float;
             Ex2.Shown (-100)%float; Ex2.Polled (-90)%float]
            (Ex2.mk_range_state (Some (-100)%float) O false)))
  = 1%nat.
Proof.
  split; [vm_compute; reflexivity|].
  pose proof (alerts_without_reset
            [Ex2.Polled (-90)%float; Ex2.Shown (-100)%float;
             Ex2.Polled (-98.5)%float; Ex2.Polled (-90)%float;
             Ex2.Shown (-100)%float; Ex2.Polled (-90)%float]
            (Ex2.mk_range_state (Some (-100)%float) O false)) as H.
  destruct H as (_ & _ & H); [vm_compute; reflexivity|].
  rewrite H. vm_compute. reflexivity.
Defined.

(** ** Effects of the registry operations *)

Lemma delete_range_in_range (index : nat) (selected : list nat)
    (a : Ex2.app) :
  Ex2.lockstep a ->
  (index < length (Ex2.scan_ranges a))%nat ->
  Ex2.delete_range (index :: selected) a
  = (Return tt,
     Ex2.mk_app (delete index (Ex2.scan_ranges a))
                (delete index (Ex2.alert_flags a))
                (delete index (Ex2.ema_values a))
                (delete index (Ex2.stability_counter a))
                (Ex2.serial_conn a)
                (Ex2.log a ++ [Ex2.LogRangeDeleted])).
Proof.
  intros (Hf & He & Hc) Hi. cbn [Ex2.delete_range].
  destruct (lookup_lt_is_Some_2 (Ex2.scan_ranges a) index Hi) as [r ->].
  rewrite (py_del_in_range index (Ex2.scan_ranges a)) by exact Hi.
  cbn [Ex2.alert_flags Ex2.ema_values Ex2.stability_counter
       Ex2.scan_ranges].
  rewrite (py_del_in_range index (Ex2.alert_flags a)) by lia.
  cbn [Ex2.alert_flags Ex2.ema_values Ex2.stability_counter
       Ex2.scan_ranges].
  rewrite (py_del_in_range index (Ex2.ema_values a)) by lia.
  cbn [Ex2.alert_flags Ex2.ema_values Ex2.stability_counter
       Ex2.scan_ranges].
  rewrite (py_del_in_range index (Ex2.stability_counter a)) by lia.
  reflexivity.
Qed.

Lemma delete_last {A : Type} (l : list A) (x : A) :
  delete (length l) (l ++ [x]) = l.
Proof.
  induction l as [|y l IH]; [reflexivity|].
  cbn [length app]. change (delete (S (length l)) (y :: l ++ [x]))
    with (y :: delete (length l) (l ++ [x])). now rewrite IH.
Qed.

(** X13.  On a state in lockstep:
    - deleting the selected range [index] removes entry [index] from each
      of the four lists, so that every remaining range keeps its own
      threshold, flag, EMA and counter; with a selection past the end
      nothing changes and [IndexError] is raised;
    - a range added with three valid answers is appended with a clean
      detection state (no alert, no EMA, counter 0), and deleting it again
      gives back the four lists as they were. *)
Theorem registry_add_then_delete (a : Ex2.app) :
  Ex2.lockstep a ->
  (forall (index : nat) (selected : list nat),
     (index < length (Ex2.scan_ranges a))%nat ->
     exists a' : Ex2.app,
       Ex2.delete_range (index :: selected) a = (Return tt, a') /\
       forall j : nat,
         let j' := if (j <? index)%nat then j else S j in
         Ex2.scan_ranges a' !! j = Ex2.scan_ranges a !! j' /\
         Ex2.alert_flags a' !! j = Ex2.alert_flags a !! j' /\
         Ex2.ema_values a' !! j = Ex2.ema_values a !! j' /\
         Ex2.stability_counter a' !! j = Ex2.stability_counter a !! j') /\
  (forall (index : nat) (selected : list nat),
     (length (Ex2.scan_ranges a) <= index)%nat ->
     Ex2.delete_range (index :: selected) a = (Raise IndexError, a)) /\
  (forall (start_freq stop_freq threshold : float) (start stop : Z),
     Ex2.hz_of_mhz start_freq = Return start ->
     Ex2.hz_of_mhz stop_freq = Return stop ->
     exists a1 a2 : Ex2.app,
       Ex2.add_range (Some start_freq) (Some stop_freq) (Some threshold) a
         = (Return tt, a1) /\
       Ex2.scan_ranges a1 = Ex2.scan_ranges a ++ [(start, stop, Some threshold)]
       /\
       Ex2.alert_flags a1 !! length (Ex2.scan_ranges a) = Some false /\
       Ex2.ema_values a1 !! length (Ex2.scan_ranges a) = Some None /\
       Ex2.stability_counter a1 !! length (Ex2.scan_ranges a) = Some O /\
       Ex2.delete_range [length (Ex2.scan_ranges a)] a1 = (Return tt, a2) /\
       Ex2.scan_ranges a2 = Ex2.scan_ranges a /\
       Ex2.alert_flags a2 = Ex2.alert_flags a /\
       Ex2.ema_values a2 = Ex2.ema_values a /\
       Ex2.stability_counter a2 = Ex2.stability_counter a /\
       Ex2.serial_conn a2 = Ex2.serial_conn a).
Proof.
  intros Hl. pose proof Hl as (Hf & He & Hc). split; [|split].
  - intros index selected Hi. eexists.
    split; [apply (delete_range_in_range index selected a Hl Hi)|].
    intros j. cbn zeta.
    cbn [Ex2.scan_ranges Ex2.alert_flags Ex2.ema_values
         Ex2.stability_counter].
    destruct (Nat.ltb_spec j index) as [Hlt|Hge].
    + rewrite !list_lookup_delete_lt by exact Hlt. auto.
    + rewrite !list_lookup_delete_ge by exact Hge. auto.
  - intros index selected Hi. cbn [Ex2.delete_range].
    now rewrite (lookup_ge_None_2 (Ex2.scan_ranges a) index Hi).
  - intros start_freq stop_freq threshold start stop Hs Ht.
    cbn [Ex2.add_range]. rewrite Hs, Ht.
    eexists. eexists. split; [reflexivity|].
    cbn [Ex2.scan_ranges Ex2.alert_flags Ex2.ema_values
         Ex2.stability_counter].
    split; [reflexivity|].
    split; [rewrite <- Hf; apply list_lookup_middle; reflexivity|].
    split; [rewrite <- He; apply list_lookup_middle; reflexivity|].
    split; [rewrite <- Hc; apply list_lookup_middle; reflexivity|].
    split.
    + apply delete_range_in_range.
      * unfold Ex2.lockstep.
        cbn [Ex2.scan_ranges Ex2.alert_flags Ex2.ema_values
             Ex2.stability_counter].
        rewrite !length_app. cbn [length]. lia.
      * cbn [Ex2.scan_ranges]. rewrite length_app. cbn [length]. lia.
    + cbn [Ex2.scan_ranges Ex2.alert_flags Ex2.ema_values
           Ex2.stability_counter Ex2.serial_conn].
      rewrite <- Hf at 2. rewrite <- He at 2. rewrite <- Hc at 2.
      rewrite !delete_last. auto.
Qed.

Lemma registry_add_then_delete_witness :
  exists a1 a2 : Ex2.app,
    Ex2.add_range (Some 433%float) (Some 434.5%float) (Some (-90)%float)
                  (Ex2.init None) = (Return tt, a1) /\
    Ex2.scan_ranges a1
      = Ex2.scan_ranges (Ex2.init None)
          ++ [(433000000, 434500000, Some (-90)%float)] /\
    Ex2.alert_flags a1 !! length (Ex2.scan_ranges (Ex2.init None))
      = Some false /\
    Ex2.ema_values a1 !! length (Ex2.scan_ranges (Ex2.init None))
      = Some None /\
    Ex2.stability_counter a1 !! length (Ex2.scan_ranges (Ex2.init None))
      = Some O /\
    Ex2.delete_range [length (Ex2.scan_ranges (Ex2.init None))] a1
      = (Return tt, a2) /\
    Ex2.scan_ranges a2 = Ex2.scan_ranges (Ex2.init None) /\
    Ex2.alert_flags a2 = Ex2.alert_flags (Ex2.init None) /\
    Ex2.ema_values a2 = Ex2.ema_values (Ex2.init None) /\
    Ex2.stability_counter a2 = Ex2.stability_counter (Ex2.init None) /\
    Ex2.serial_conn a2 = Ex2.serial_conn (Ex2.init None).
Proof.
  apply (proj2 (proj2 (registry_add_then_delete (Ex2.init None)
                         (init_lockstep None)))
           433%float 434.5%float (-90)%float 433000000 434500000);
    vm_compute; reflexivity.
Defined.

(** ** What a calibration leaves alone *)

Lemma map_fst_set_threshold (l : list Ex2.scan_range) (i : nat)
    (start stop : Z) (t : option float) :
  map fst l !! i = Some (start, stop) ->
  map fst (<[i := (start, stop, t)]> l) = map fst l.
Proof.
  revert i. induction l as [|[bounds thr] l IH]; intros [|i] H;
    try discriminate.
  - cbn in H. injection H as ->. reflexivity.
  - cbn in H. change (<[S i := (start, stop, t)]> ((bounds, thr) :: l))
      with ((bounds, thr) :: <[i := (start, stop, t)]> l).
    cbn [map]. now rewrite (IH i H).
Qed.

Section CalibrationShape.

Variable np_max : list float -> outcome float.
Variable np_median : list float -> float.
Variable round1 : float -> float.
Variable median_filter : list float -> outcome (list float).
Variable ignored_ranges : list (float * float).

Lemma collect_amplitudes_detection (n : nat) (start stop : Z)
    (amplitudes : list float) (a a' : Ex2.app) (r : outcome (list float)) :
  Ex2.collect_amplitudes np_max n start stop amplitudes a = (r, a') ->
  Ex2.scan_ranges a' = Ex2.scan_ranges a /\
  Ex2.alert_flags a' = Ex2.alert_flags a /\
  Ex2.ema_values a' = Ex2.ema_values a /\
  Ex2.stability_counter a' = Ex2.stability_counter a.
Proof.
  revert amplitudes a. induction n as [|n IH]; intros amplitudes a.
  - cbn [Ex2.collect_amplitudes]. intros [= _ <-]. auto.
  - cbn [Ex2.collect_amplitudes].
    destruct (Ex2.get_spectrum_float _ _ _ _ _ _)
      as [[[[mags freqs]|]|e] conn].
    + destruct (np_max mags) as [m|e].
      * intros H. apply IH in H. exact H.
      * intros [= _ <-]. auto.
    + intros H. apply IH in H. exact H.
    + intros [= _ <-]. auto.
Qed.

Lemma auto_calibrate_range_shape (i : nat) (start stop : Z)
    (a a1 : Ex2.app) (r : outcome unit) :
  Ex2.auto_calibrate_range np_max np_median round1 i start stop a = (r, a1) ->
  map fst (Ex2.scan_ranges a) !! i = Some (start, stop) ->
  map fst (Ex2.scan_ranges a1) = map fst (Ex2.scan_ranges a) /\
  Ex2.alert_flags a1 = Ex2.alert_flags a /\
  Ex2.ema_values a1 = Ex2.ema_values a /\
  Ex2.stability_counter a1 = Ex2.stability_counter a.
Proof.
  unfold Ex2.auto_calibrate_range. generalize 500%nat. intros n.
  destruct (Ex2.collect_amplitudes np_max n start stop [] a)
    as [[amplitudes|e] a2] eqn:Hc.
  - destruct (collect_amplitudes_detection _ _ _ _ _ _ _ Hc)
      as (Hr & Hf & He & Hs).
    destruct amplitudes as [|x amplitudes]; intros [= _ <-] Hi.
    + now rewrite Hr.
    + cbn [Ex2.add_log Ex2.set_range Ex2.scan_ranges Ex2.alert_flags
           Ex2.ema_values Ex2.stability_counter].
      rewrite Hr. split; [|auto]. now apply map_fst_set_threshold.
  - destruct (collect_amplitudes_detection _ _ _ _ _ _ _ Hc)
      as (Hr & Hf & He & Hs).
    intros [= _ <-] _. now rewrite Hr.
Qed.

Lemma recalibrate_range_shape (i : nat) (start stop : Z)
    (a a1 : Ex2.app) (r : outcome unit) :
  Ex2.recalibrate_range np_max round1 i start stop a = (r, a1) ->
  map fst (Ex2.scan_ranges a) !! i = Some (start, stop) ->
  map fst (Ex2.scan_ranges a1) = map fst (Ex2.scan_ranges a) /\
  Ex2.alert_flags a1 = Ex2.alert_flags a /\
  Ex2.ema_values a1 = Ex2.ema_values a /\
  Ex2.stability_counter a1 = Ex2.stability_counter a.
Proof.
  unfold Ex2.recalibrate_range. generalize 10%nat. intros n.
  destruct (Ex2.collect_amplitudes np_max n start stop [] a)
    as [[amplitudes|e] a2] eqn:Hc.
  - destruct (collect_amplitudes_detection _ _ _ _ _ _ _ Hc)
      as (Hr & Hf & He & Hs).
    destruct amplitudes as [|x amplitudes]; cbn [Ex2.py_max];
      intros [= _ <-] Hi.
    + now rewrite Hr.
    + cbn [Ex2.set_range Ex2.scan_ranges Ex2.alert_flags
           Ex2.ema_values Ex2.stability_counter].
      rewrite Hr. split; [|auto]. now apply map_fst_set_threshold.
  - destruct (collect_amplitudes_detection _ _ _ _ _ _ _ Hc)
      as (Hr & Hf & He & Hs).
    intros [= _ <-] _. now rewrite Hr.
Qed.

Section Pass.

Variable body : nat -> Z -> Z -> Ex2.app -> outcome unit * Ex2.app.

Hypothesis body_shape :
  forall (i : nat) (start stop : Z) (a a1 : Ex2.app) (r : outcome unit),
    body i start stop a = (r, a1) ->
    map fst (Ex2.scan_ranges a) !! i = Some (start, stop) ->
    map fst (Ex2.scan_ranges a1) = map fst (Ex2.scan_ranges a) /\
    Ex2.alert_flags a1 = Ex2.alert_flags a /\
    Ex2.ema_values a1 = Ex2.ema_values a /\
    Ex2.stability_counter a1 = Ex2.stability_counter a.

Lemma for_ranges_shape (ranges : list Ex2.scan_range) :
  forall (pre : list (Z * Z)) (a a' : Ex2.app) (r : outcome unit),
    Ex2.for_ranges body (length pre) ranges a = (r, a') ->
    map fst (Ex2.scan_ranges a) = pre ++ map fst ranges ->
    map fst (Ex2.scan_ranges a') = map fst (Ex2.scan_ranges a) /\
    Ex2.alert_flags a' = Ex2.alert_flags a /\
    Ex2.ema_values a' = Ex2.ema_values a /\
    Ex2.stability_counter a' = Ex2.stability_counter a.
Proof.
  induction ranges as [|[[start stop] thr] ranges IH];
    intros pre a a' r Hrun Hpre.
  - cbn [Ex2.for_ranges] in Hrun. injection Hrun as _ <-. auto.
  - cbn [Ex2.for_ranges] in Hrun.
    destruct (body (length pre) start stop a) as [r1 a1] eqn:Hb.
    destruct (body_shape _ _ _ _ _ _ Hb) as (Hr & Hf & He & Hs).
    { rewrite Hpre. apply list_lookup_middle. reflexivity. }
    destruct r1 as [[]|e].
    + specialize (IH (pre ++ [(start, stop)]) a1 a' r).
      rewrite length_app, Nat.add_1_r in IH.
      destruct (IH Hrun) as (Hr' & Hf' & He' & Hs').
      { rewrite Hr, Hpre, <- app_assoc. reflexivity. }
      rewrite Hr', Hf', He', Hs'. auto.
    + injection Hrun as _ <-. auto.
Qed.

End Pass.

Lemma calibration_passes_shape (passes : nat) :
  forall a : Ex2.app,
    map fst (Ex2.scan_ranges
               (snd (Ex2.calibration_passes np_max round1 passes a)))
      = map fst (Ex2.scan_ranges a) /\
    Ex2.alert_flags (snd (Ex2.calibration_passes np_max round1 passes a))
      = Ex2.alert_flags a /\
    Ex2.ema_values (snd (Ex2.calibration_passes np_max round1 passes a))
      = Ex2.ema_values a /\
    Ex2.stability_counter
      (snd (Ex2.calibration_passes np_max round1 passes a))
      = Ex2.stability_counter a.
Proof.
  induction passes as [|passes IH]; intros a; [cbn; auto|].
  cbn [Ex2.calibration_passes].
  destruct (Ex2.for_ranges _ _ _ _) as [r a1] eqn:Hpass.
  destruct (for_ranges_shape _ recalibrate_range_shape _ [] a a1 r Hpass
              eq_refl) as (Hr & Hf & He & Hs).
  destruct r as [[]|e].
  - destruct (IH a1) as (Hr' & Hf' & He' & Hs').
    rewrite Hr', Hf', He', Hs'. auto.
  - cbn [snd]. auto.
Qed.

Lemma calibration_process_shape (passes : nat) (a : Ex2.app) :
  map fst (Ex2.scan_ranges
             (snd (Ex2.calibration_process np_max np_median round1
                     median_filter ignored_ranges passes a)))
    = map fst (Ex2.scan_ranges a) /\
  length (Ex2.alert_flags
            (snd (Ex2.calibration_process np_max np_median round1
                    median_filter ignored_ranges passes a)))
    = length (Ex2.alert_flags a) /\
  length (Ex2.ema_values
            (snd (Ex2.calibration_process np_max np_median round1
                    median_filter ignored_ranges passes a)))
    = length (Ex2.ema_values a) /\
  length (Ex2.stability_counter
            (snd (Ex2.calibration_process np_max np_median round1
                    median_filter ignored_ranges passes a)))
    = length (Ex2.stability_counter a).
Proof.
  destruct (calibration_passes_shape passes a) as (Hr & Hf & He & Hs).
  unfold Ex2.calibration_process.
  destruct (Ex2.calibration_passes np_max round1 passes a) as [[[]|e] a1];
    cbn [snd] in *.
  - destruct (Ex2.update_spectrum _ _ _ _ a1) as [r a2] eqn:Hu.
    destruct (update_spectrum_shape _ _ _ _ _ _ _ Hu)
      as (Hr' & Hf' & He' & Hs').
    cbn [snd]. rewrite Hr', Hf', He', Hs', Hr, Hf, He, Hs. auto.
  - rewrite Hr, Hf, He, Hs. auto.
Qed.

End CalibrationShape.

(** X14.  Both calibrations, however they end (also when a query raises
    in the middle of a pass), keep the shape of the registry: the bounds
    of every range and the lengths of the four lists after the calibration
    are those before it, so the lists stay in lockstep.  The initial
    calibration and the loop of the continuous one change nothing but
    thresholds, the transport and the log: alert flags, EMA values and
    stability counters are untouched.  (The [update_spectrum] that ends
    [calibration_process] does advance the detection state.) *)
Theorem calibration_keeps_registry_shape
    (np_max : list float -> outcome float) (np_median : list float -> float)
    (round1 : float -> float)
    (median_filter : list float -> outcome (list float))
    (ignored_ranges : list (float * float)) (passes : nat) (a : Ex2.app) :
  (map fst (Ex2.scan_ranges
              (snd (Ex2.auto_calibrate_thresholds np_max np_median round1 a)))
     = map fst (Ex2.scan_ranges a) /\
   Ex2.alert_flags
     (snd (Ex2.auto_calibrate_thresholds np_max np_median round1 a))
     = Ex2.alert_flags a /\
   Ex2.ema_values
     (snd (Ex2.auto_calibrate_thresholds np_max np_median round1 a))
     = Ex2.ema_values a /\
   Ex2.stability_counter
     (snd (Ex2.auto_calibrate_thresholds np_max np_median round1 a))
     = Ex2.stability_counter a) /\
  (map fst (Ex2.scan_ranges
              (snd (Ex2.calibration_passes np_max round1 passes a)))
     = map fst (Ex2.scan_ranges a) /\
   Ex2.alert_flags (snd (Ex2.calibration_passes np_max round1 passes a))
     = Ex2.alert_flags a /\
   Ex2.ema_values (snd (Ex2.calibration_passes np_max round1 passes a))
     = Ex2.ema_values a /\
   Ex2.stability_counter
     (snd (Ex2.calibration_passes np_max round1 passes a))
     = Ex2.stability_counter a) /\
  (map fst (Ex2.scan_ranges
              (snd (Ex2.calibration_process np_max np_median round1
                      median_filter ignored_ranges passes a)))
     = map fst (Ex2.scan_ranges a) /\
   length (Ex2.alert_flags
             (snd (Ex2.calibration_process np_max np_median round1
                     median_filter ignored_ranges passes a)))
     = length (Ex2.alert_flags a) /\
   length (Ex2.ema_values
             (snd (Ex2.calibration_process np_max np_median round1
                     median_filter ignored_ranges passes a)))
     = length (Ex2.ema_values a) /\
   length (Ex2.stability_counter
             (snd (Ex2.calibration_process np_max np_median round1
                     median_filter ignored_ranges passes a)))
     = length (Ex2.stability_counter a)) /\
  (Ex2.lockstep a ->
   Ex2.lockstep
     (snd (Ex2.auto_calibrate_thresholds np_max np_median round1 a)) /\
   Ex2.lockstep
     (snd (Ex2.calibration_process np_max np_median round1
             median_filter ignored_ranges passes a))).
Proof.
  assert (Hinit :
    map fst (Ex2.scan_ranges
               (snd (Ex2.auto_calibrate_thresholds np_max np_median round1 a)))
      = map fst (Ex2.scan_ranges a) /\
    Ex2.alert_flags
      (snd (Ex2.auto_calibrate_thresholds np_max np_median round1 a))
      = Ex2.alert_flags a /\
    Ex2.ema_values
      (snd (Ex2.auto_calibrate_thresholds np_max np_median round1 a))
      = Ex2.ema_values a /\
    Ex2.stability_counter
      (snd (Ex2.auto_calibrate_thresholds np_max np_median round1 a))
      = Ex2.stability_counter a).
  { unfold Ex2.auto_calibrate_thresholds.
    destruct (Ex2.serial_conn a); [|cbn; auto].
    destruct (Ex2.for_ranges _ _ _ _) as [r a1] eqn:Hpass.
    exact (for_ranges_shape _
             (auto_calibrate_range_shape np_max np_median round1)
             _ [] a a1 r Hpass eq_refl). }
  pose proof (calibration_passes_shape np_max round1 passes a) as Hloop.
  pose proof (calibration_process_shape np_max np_median round1
                median_filter ignored_ranges passes a) as Hcont.
  split; [exact Hinit|]. split; [exact Hloop|]. split; [exact Hcont|].
  intros (Hf & He & Hc).
  destruct Hinit as (Hr1 & Hf1 & He1 & Hs1).
  destruct Hcont as (Hr2 & Hf2 & He2 & Hs2).
  apply (f_equal (@length _)) in Hr1, Hr2. rewrite !length_map in Hr1, Hr2.
  unfold Ex2.lockstep.
  rewrite Hf1, He1, Hs1, Hf2, He2, Hs2.
  repeat split;
    (etransitivity; [|symmetry; first [exact Hr1 | exact Hr2]]); assumption.
Qed.

Lemma calibration_keeps_registry_shape_witness :
  Ex2.lockstep
    (snd (Ex2.auto_calibrate_thresholds
            Ex2.py_max (fun l => nth 0 l 0%float) (fun x => x)
            (Ex2.init
               (Some (Ex2.mk_serial
                        [xbb; xc2; x10; x00; x00; x00; x80; x3f;
                         x00; x00; x40; x40; x00; x24; xf4; x49;
                         x00; x24; xf4; x49; x8e; xd3] [] false))))) /\
  Ex2.lockstep
    (snd (Ex2.calibration_process
            Ex2.py_max (fun l => nth 0 l 0%float) (fun x => x)
            (fun l => Return l) [] 1
            (Ex2.init
               (Some (Ex2.mk_serial
                        [xbb; xc2; x10; x00; x00; x00; x80; x3f;
                         x00; x00; x40; x40; x00; x24; xf4; x49;
                         x00; x24; xf4; x49; x8e; xd3] [] false))))).
Proof.
  apply (proj2 (proj2 (proj2 (calibration_keeps_registry_shape
                         Ex2.py_max (fun l => nth 0 l 0%float) (fun x => x)
                         (fun l => Return l) [] 1
                         (Ex2.init
                            (Some (Ex2.mk_serial
                                     [xbb; xc2; x10; x00; x00; x00; x80; x3f;
                                      x00; x00; x40; x40; x00; x24; xf4; x49;
                                      x00; x24; xf4; x49; x8e; xd3]
                                     [] false))))))).
  unfold Ex2.lockstep. simpl. auto.
Defined.

Lemma calibration_thresholds_witness :
  exists (a_k a_k' : Ex2.app) (amplitudes : list float),
    Ex2.for_ranges
      (Ex2.auto_calibrate_range Ex2.py_max (fun l => nth 0 l 0%float)
                                (fun x => x))
      O []
      (Ex2.init
         (Some (Ex2.mk_serial
                  [xbb; xc2; x08; x00; x00; x00; x80; x3f;
                   x00; x24; xf4; x49; xa5; x42] [] false)))
      = (Return tt, a_k) /\
    Ex2.collect_amplitudes Ex2.py_max 500 400000000 500000000 [] a_k
      = (Return amplitudes, a_k') /\
    Ex2.scan_ranges
      (snd (Ex2.auto_calibrate_thresholds
              Ex2.py_max (fun l => nth 0 l 0%float) (fun x => x)
              (Ex2.init
                 (Some (Ex2.mk_serial
                          [xbb; xc2; x08; x00; x00; x00; x80; x3f;
                           x00; x24; xf4; x49; xa5; x42] [] false)))))
      !! length (@nil Ex2.scan_range)
    = Some (400000000, 500000000,
            match amplitudes with
            | [] => None
            | _ => Some (nth 0 amplitudes 0 + 1)%float
            end).
Proof.
  apply (proj1 (calibration_thresholds
                  Ex2.py_max (fun l => nth 0 l 0%float) (fun x => x)
                  (fun l => Return l) [])
           (Ex2.init
              (Some (Ex2.mk_serial
                       [xbb; xc2; x08; x00; x00; x00; x80; x3f;
                        x00; x24; xf4; x49; xa5; x42] [] false)))
           _
           (Ex2.mk_serial
              [xbb; xc2; x08; x00; x00; x00; x80; x3f;
               x00; x24; xf4; x49; xa5; x42] [] false)
           [] [] 400000000 500000000 None).
  - reflexivity.
  - reflexivity.
  - vm_compute. reflexivity.
Defined.

(** ** Alerts of the worker for one frame *)

Lemma sub_self_not_above (t : float) :
  (Arduino.min_alert_interval <? t - t)%float = false.
Proof.
  unfold Arduino.min_alert_interval.
  rewrite FloatAxioms.ltb_spec, FloatAxioms.sub_spec.
  destruct (Prim2SF t) as [s|s| |s m e];
    try (destruct s; vm_compute; reflexivity).
  - vm_compute. reflexivity.
  - unfold SF64sub, SFsub. cbv zeta. rewrite Z.sub_diag.
    vm_compute. reflexivity.
Qed.

(** Once the interval test fails it fails for the rest of the frame. *)
Lemma scan_peaks_quiet (current_time : float) (mags freqs : list float) :
  forall st : Arduino.frame_outcome,
    (Arduino.min_alert_interval
       <? current_time - Arduino.last_alert_time st)%float = false ->
    Arduino.scan_peaks current_time mags freqs st
    = Arduino.mk_frame_outcome
        (Arduino.alerts st) (Arduino.last_alert_time st)
        (Arduino.has_peak st
         || existsb (fun p => (Arduino.threshold <? fst p)%float)
                    (combine mags freqs)).
Proof.
  revert freqs. induction mags as [|amp mags IH];
    intros [|freq freqs] [al last hp] Hq;
    cbn [Arduino.scan_peaks combine existsb Arduino.alerts
         Arduino.last_alert_time Arduino.has_peak fst] in *;
    rewrite ?orb_false_r; try reflexivity.
  destruct (Arduino.threshold <? amp)%float.
  - rewrite Hq, (IH freqs (Arduino.mk_frame_outcome al last true) Hq).
    cbn [Arduino.alerts Arduino.last_alert_time Arduino.has_peak orb].
    now rewrite orb_true_r.
  - rewrite (IH freqs (Arduino.mk_frame_outcome al last hp) Hq).
    cbn [Arduino.alerts Arduino.last_alert_time Arduino.has_peak orb].
    reflexivity.
Qed.

Lemma scan_peaks_first (current_time : float) (mags freqs : list float) :
  forall (al : list (float * float)) (last_alert : float),
    Arduino.scan_peaks current_time mags freqs
      (Arduino.mk_frame_outcome al last_alert false)
    = match List.filter (fun p => (Arduino.threshold <? fst p)%float)
                        (combine mags freqs) with
      | [] => Arduino.mk_frame_outcome al last_alert false
      | p :: _ =>
          if (Arduino.min_alert_interval <? current_time - last_alert)%float
          then Arduino.mk_frame_outcome (al ++ [p]) current_time true
          else Arduino.mk_frame_outcome al last_alert true
      end.
Proof.
  revert freqs. induction mags as [|amp mags IH];
    intros [|freq freqs] al last_alert;
    cbn [Arduino.scan_peaks combine List.filter fst]; try reflexivity.
  destruct (Arduino.threshold <? amp)%float; [|apply IH].
  cbn [Arduino.last_alert_time Arduino.alerts].
  destruct (Arduino.min_alert_interval <? current_time - last_alert)%float
    eqn:Hq.
  - rewrite scan_peaks_quiet
      by (cbn [Arduino.last_alert_time]; apply sub_self_not_above).
    reflexivity.
  - rewrite scan_peaks_quiet by (cbn [Arduino.last_alert_time]; exact Hq).
    reflexivity.
Qed.

(** X15.  The handling of one decoded frame sends at most one alert, whatever
    the number of samples above the threshold: the samples are paired up
    to the shorter of the two arrays; if no pair has its amplitude above
    the threshold, nothing is sent and the LED command is ['0']; otherwise
    the LED command is ['1'], and the alert is sent for the first such
    pair only, and only if more than [min_alert_interval] has passed since
    the last alert, which then becomes the time of this frame. *)
Theorem handle_frame_alerts (current_time last_alert : float)
    (mags freqs : list float) :
  Arduino.handle_frame current_time (mags, freqs) last_alert
  = match List.filter (fun p => (Arduino.threshold <? fst p)%float)
                      (combine mags freqs) with
    | [] => Arduino.mk_frame_outcome [] last_alert false
    | p :: _ =>
        if (Arduino.min_alert_interval <? current_time - last_alert)%float
        then Arduino.mk_frame_outcome [p] current_time true
        else Arduino.mk_frame_outcome [] last_alert true
    end.
Proof.
  unfold Arduino.handle_frame. cbn [fst snd].
  now rewrite scan_peaks_first.
Qed.

(** ** The two filters applied to a spectrum *)

Lemma ignore_known_values_pairs (ignored_ranges : list (float * float))
    (mags : list float) :
  forall freqs : list float,
    length (fst (Ex2.ignore_known_values ignored_ranges mags freqs))
    = length (snd (Ex2.ignore_known_values ignored_ranges mags freqs)) /\
    combine (fst (Ex2.ignore_known_values ignored_ranges mags freqs))
            (snd (Ex2.ignore_known_values ignored_ranges mags freqs))
    = List.filter
        (fun p => negb (Ex2.is_ignored ignored_ranges (fst p) (snd p)))
        (combine mags freqs).
Proof.
  induction mags as [|mag mags IH]; intros [|freq freqs];
    cbn [Ex2.ignore_known_values combine List.filter fst snd]; auto.
  destruct (IH freqs) as [Hlen Hzip].
  destruct (Ex2.ignore_known_values ignored_ranges mags freqs)
    as [filtered_mags filtered_freqs].
  cbn [fst snd] in *.
  destruct (Ex2.is_ignored ignored_ranges mag freq);
    cbn [negb fst snd length combine]; [auto|].
  now rewrite Hlen, Hzip.
Qed.

Lemma select_pairs (keep : float -> bool) (mags : list float) :
  forall freqs : list float,
    length freqs = length mags ->
    length (Ex2.select (map keep mags) mags)
    = length (Ex2.select (map keep mags) freqs) /\
    combine (Ex2.select (map keep mags) mags)
            (Ex2.select (map keep mags) freqs)
    = List.filter (fun p => keep (fst p)) (combine mags freqs).
Proof.
  induction mags as [|mag mags IH]; intros [|freq freqs] Hlen;
    try discriminate; cbn [map Ex2.select combine List.filter fst]; auto.
  injection Hlen as Hlen. destruct (IH freqs Hlen) as [Hl Hzip].
  destruct (keep mag); cbn [length combine]; [|auto].
  now rewrite Hl, Hzip.
Qed.

Lemma process_spectrum_same_length (np_median : list float -> float)
    (mags freqs : list float) :
  length freqs = length mags ->
  Ex2.process_spectrum np_median mags freqs
  = Return
      (Ex2.select (map (fun m => (np_median mags <? m)%float) mags) mags,
       Ex2.select (map (fun m => (np_median mags <? m)%float) mags) freqs).
Proof.
  intros Hlen. unfold Ex2.process_spectrum.
  now rewrite Hlen, Nat.eqb_refl, orb_true_r.
Qed.

(** X16.  [process_spectrum] applied to the result of [ignore_known_values], as
    both callers do, never raises: the two arrays it gets have the same
    length, even when the frame gave arrays of different lengths.  The two
    arrays it returns have the same length too, and read as pairs they
    are, in this order, the pairs (amplitude, frequency) of the frame that
    are not ignored and whose amplitude is above the median of the
    amplitudes not ignored: an amplitude is never paired with the
    frequency of another sample. *)
Theorem spectrum_filters_keep_pairs
    (np_median : list float -> float)
    (ignored_ranges : list (float * float)) (mags freqs : list float) :
  let kept := Ex2.ignore_known_values ignored_ranges mags freqs in
  exists filtered_mags filtered_freqs : list float,
    Ex2.process_spectrum np_median (fst kept) (snd kept)
      = Return (filtered_mags, filtered_freqs) /\
    length filtered_mags = length filtered_freqs /\
    combine filtered_mags filtered_freqs
    = List.filter
        (fun p => (np_median (fst kept) <? fst p)%float)
        (List.filter
           (fun p => negb (Ex2.is_ignored ignored_ranges (fst p) (snd p)))
           (combine mags freqs)).
Proof.
  intros kept.
  destruct (ignore_known_values_pairs ignored_ranges mags freqs)
    as [Hlen Hzip].
  fold kept in Hlen, Hzip.
  destruct (select_pairs (fun m => (np_median (fst kept) <? m)%float)
              (fst kept) (snd kept) (eq_sym Hlen)) as [Hl Hsel].
  rewrite (process_spectrum_same_length np_median _ _ (eq_sym Hlen)).
  eexists. eexists. split; [reflexivity|]. split; [exact Hl|].
  now rewrite Hsel, Hzip.
Qed.

(** ** One call of [update_spectrum], range by range *)




Section PollingRanges.

Variable median_filter : list float -> outcome (list float).
Variable np_median : list float -> float.
Variable np_max : list float -> outcome float.
Variable ignored_ranges : list (float * float).





End PollingRanges.


